(** * DOSMatGen: the property-guided crystal diffusion model

    A shallow embedding of [dosmatgen/models/cspnet_cfg.py] (the
    message-passing backbone [CSPNet]) and of
    [dosmatgen/diffusion/property.py] (the diffusion module
    [CSPProperty]), with the properties of the edge builder, of the
    forward corruption, of the reverse sampler and of the backbone's
    dispatch stated and proved over it.

    Conventions of the embedding.
    - A scalar is an exact rational [Qc]; [nan] and [inf] of the
      floating-point formats are outside the model, and so is rounding,
      except where one rounded operation decides a result: the product
      whose integer part is the start timestep of the samplers, and the
      remainder [x % 1.] of a negative number ([round_float],
      [float_remainder_1]).
    - A tensor is a nested list: [vec] for one row, [mat] for a
      two-dimensional and [tensor3] for a three-dimensional tensor.  An
      elementwise operation on two tensors of different shapes raises
      [RuntimeError]; broadcasting is written out where the code relies on
      it ([unsqueeze_scale], [repeat_interleave], scalar factors).
    - A Python exception is a value of [exn]; code that can raise returns a
      [result].  Code that draws random numbers threads the generator
      state [rng] as well ([M]).
    - What lives outside the two source files (square root and the
      transcendental functions, the random generator, autograd, the
      schedulers' tables, the constant [MAX_ATOMIC_NUM], the periodic
      neighbour search) is a field of the class [Primitives] or of a
      record passed to the function, and every theorem holds for all of
      them. *)

From Stdlib Require Import ZArith QArith Qcanon Qround Qpower Qabs Lia Lqa String.
From stdpp Require Import base option list strings pretty gmap.

(** ** Exceptions and the two monads *)

Inductive exn : Set :=
| ValueError
| AssertionError
| NotImplementedError
| TypeError
| AttributeError
| RuntimeError
| IndexError
| KeyError
| ZeroDivisionError.

Definition result (A : Type) : Type := (exn + A)%type.

Definition ret {A : Type} (a : A) : result A := inr a.

Definition raise {A : Type} (e : exn) : result A := inl e.

Definition bind {A B : Type} (m : result A) (k : A -> result B) : result B :=
  match m with
  | inl e => inl e
  | inr a => k a
  end.

Notation "x <- e ;; k" := (bind e (fun x => k))
  (at level 20, e at level 99, k at level 200, only parsing).
Notation "' p <- e ;; k" := (bind e (fun p => k))
  (at level 20, p pattern, e at level 99, k at level 200, only parsing).

(** [a if a is not None]: reading through a value that may be [None]. *)
Definition not_none {A : Type} (e : exn) (o : option A) : result A :=
  match o with
  | Some a => ret a
  | None => raise e
  end.

(** ** Scalars *)

Abbreviation vec := (list Qc).
Abbreviation mat := (list (list Qc)).
Abbreviation tensor3 := (list (list (list Qc))).

(** Python's [x % 1.] on a float: the result takes the sign of the divisor,
    so it is [x - floor x]. *)
Definition fmod1 (x : Qc) : Qc := (x - Q2Qc (inject_Z (Qfloor x)))%Qc.

Definition Qcleb (x y : Qc) : bool := Qle_bool x y.

(** ** Tensors as nested lists *)

Fixpoint zip_with_checked {A B C : Type} (f : A -> B -> result C)
    (l1 : list A) (l2 : list B) : result (list C) :=
  match l1, l2 with
  | [], [] => ret []
  | a :: l1, b :: l2 =>
      c <- f a b ;;
      cs <- zip_with_checked f l1 l2 ;;
      ret (c :: cs)
  | _, _ => raise RuntimeError
  end.

(** A stateful traversal, for [torch.randn_like]: one draw per entry, in
    storage order. *)
Fixpoint draw_list {S A : Type} (draw : A -> S -> A * S) (l : list A) (s : S)
    : list A * S :=
  match l with
  | [] => ([], s)
  | a :: l =>
      let '(a', s1) := draw a s in
      let '(l', s2) := draw_list draw l s1 in
      (a' :: l', s2)
  end.

Class Tensor (A : Type) : Type := {
  tmap : (Qc -> Qc) -> A -> A;
  tmap2 : (Qc -> Qc -> Qc) -> A -> A -> result A;
  tdraw : forall {S : Type}, (S -> Qc * S) -> A -> S -> A * S;
  tForall : (Qc -> Prop) -> A -> Prop
}.

#[export] Hint Mode Tensor ! : typeclass_instances.

#[export] Instance scalar_tensor : Tensor Qc := {|
  tmap f x := f x;
  tmap2 f x y := ret (f x y);
  tdraw S draw _ s := draw s;
  tForall P x := P x
|}.

#[export] Instance list_tensor {A : Type} `{Tensor A} : Tensor (list A) := {|
  tmap f l := List.map (tmap f) l;
  tmap2 f l1 l2 := zip_with_checked (tmap2 f) l1 l2;
  tdraw S draw l s := draw_list (tdraw draw) l s;
  tForall P l := Forall (tForall P) l
|}.

Definition tadd {A : Type} `{Tensor A} (a b : A) : result A := tmap2 Qcplus a b.
Definition tsub {A : Type} `{Tensor A} (a b : A) : result A := tmap2 Qcminus a b.
Definition tmul {A : Type} `{Tensor A} (a b : A) : result A := tmap2 Qcmult a b.

(** A zero-dimensional tensor (or Python number) times a tensor. *)
Definition tscale {A : Type} `{Tensor A} (c : Qc) (a : A) : A := tmap (Qcmult c) a.

(** [torch.zeros_like]. *)
Definition zeros_like {A : Type} `{Tensor A} (a : A) : A := tmap (fun _ => 0%Qc) a.

(** Two tensors have the same shape when their [zeros_like] coincide. *)
Definition same_shape {A : Type} `{Tensor A} (a b : A) : Prop :=
  zeros_like a = zeros_like b.

(** [t % 1.] *)
Definition wrap {A : Type} `{Tensor A} (a : A) : A := tmap fmod1 a.

(** [c[:, None, ...] * t]: entry [i] of the one-dimensional [c] scales the
    whole slice [i] of [t]. *)
Definition unsqueeze_scale {A : Type} `{Tensor A} (c : vec) (t : list A)
    : result (list A) :=
  zip_with_checked (fun ci ti => ret (tscale ci ti)) c t.

(** [t[idx]] with an index tensor: every index must be in range. *)
Fixpoint index_select {A : Type} (t : list A) (idx : list nat) : result (list A) :=
  match idx with
  | [] => ret []
  | i :: idx =>
      r <- not_none IndexError (t !! i) ;;
      rs <- index_select t idx ;;
      ret (r :: rs)
  end.

(** [t.repeat_interleave(repeats, dim=0)]: slice [i] is repeated
    [repeats[i]] times; a one-element [repeats] is broadcast. *)
Fixpoint repeat_each {A : Type} (t : list A) (repeats : list nat) : result (list A) :=
  match t, repeats with
  | [], [] => ret []
  | a :: t, n :: repeats =>
      rs <- repeat_each t repeats ;;
      ret (replicate n a ++ rs)
  | _, _ => raise RuntimeError
  end.

Definition repeat_interleave {A : Type} (t : list A) (repeats : list nat)
    : result (list A) :=
  match repeats with
  | [n] => ret (concat (List.map (replicate n) t))
  | _ => repeat_each t repeats
  end.

(** [torch.cat([a, b], dim=1)] on two-dimensional tensors. *)
Definition cat1 (a b : mat) : result mat :=
  zip_with_checked (fun r1 r2 => ret (r1 ++ r2)) a b.

(** [t.view(-1, k)] in general: a list cut into consecutive groups of
    [k]; the length must be a multiple of [k], and [k = 0] is refused. *)
Fixpoint chunks_fuel {A : Type} (fuel k : nat) (l : list A) : result (list (list A)) :=
  match l with
  | [] => ret []
  | _ :: _ =>
      match fuel with
      | O => raise RuntimeError
      | S fuel =>
          if decide (length l < k) then raise RuntimeError
          else rs <- chunks_fuel fuel k (drop k l) ;; ret (take k l :: rs)
      end
  end.

Definition chunks {A : Type} (k : nat) (l : list A) : result (list (list A)) :=
  if decide (k = 0) then raise RuntimeError else chunks_fuel (length l) k l.

Fixpoint map_result {A B : Type} (f : A -> result B) (l : list A) : result (list B) :=
  match l with
  | [] => ret []
  | a :: l =>
      b <- f a ;;
      bs <- map_result f l ;;
      ret (b :: bs)
  end.

(** ** Dense adjacency matrices *)

Record dense : Type := mk_dense {
  nrows : nat;
  ncols : nat;
  entries : list vec
}.

(** [torch.ones(n, m)] *)
Definition ones (n m : nat) : dense :=
  mk_dense n m (replicate n (replicate m 1%Qc)).

Fixpoint block_rows (total offset : nat) (blocks : list dense) : list vec :=
  match blocks with
  | [] => []
  | b :: bs =>
      List.map (fun r => replicate offset 0%Qc ++ r
                         ++ replicate (total - offset - ncols b) 0%Qc) (entries b)
      ++ block_rows total (offset + ncols b) bs
  end.

(** [torch.block_diag] of the blocks; with no block at all torch returns an
    empty tensor of shape (1, 0). *)
Definition block_diag (blocks : list dense) : dense :=
  match blocks with
  | [] => mk_dense 1 0 [[]]
  | _ :: _ =>
      let total := sum_list (ncols <$> blocks) in
      mk_dense (sum_list (nrows <$> blocks)) total (block_rows total 0 blocks)
  end.

(** [adj.nonzero()]: the positions of the non-zero entries, row by row. *)
Definition nonzero_row (i : nat) (row : vec) : list (nat * nat) :=
  omap (fun p : nat * Qc => if decide (p.2 = 0%Qc) then None else Some (i, p.1))
       (imap (fun j x => (j, x)) row).

Definition nonzero (a : list vec) : list (nat * nat) :=
  concat (imap nonzero_row a).

(** An edge index is the pair of endpoint arrays [edge_index[0]],
    [edge_index[1]]. *)
Abbreviation edge_index := (list nat * list nat)%type.

(** [torch_geometric.utils.dense_to_sparse] on a two-dimensional
    adjacency: the non-zero positions and the values there. *)
Definition dense_to_sparse (adj : dense) : edge_index * vec :=
  let idx := nonzero (entries adj) in
  ((idx.*1, idx.*2),
   omap (fun p : nat * nat => (entries adj !! p.1) ≫= (fun r => r !! p.2)) idx).

(** ** Small linear algebra *)

Definition qsum (l : vec) : Qc := foldr Qcplus 0%Qc l.

Definition dot (a b : vec) : Qc := qsum (zip_with Qcmult a b).

Definition width (m : mat) : nat :=
  match m with
  | [] => 0
  | r :: _ => length r
  end.

Definition col (j : nat) (m : mat) : vec := (fun r => default 0%Qc (r !! j)) <$> m.

(** [m.transpose(-1, -2)] *)
Definition transpose (m : mat) : mat := (fun j => col j m) <$> seq 0 (width m).

(** [a @ b] on two matrices; the inner dimensions must agree. *)
Definition matmul (a b : mat) : result mat :=
  if forallb (fun r => length r =? length b) a
  then ret ((fun r => dot r <$> transpose b) <$> a)
  else raise RuntimeError.

(** ** What the two source files take from elsewhere *)

Class Primitives : Type := {
  (** [torch.sqrt], [sin], [cos], [exp] on one entry *)
  fsqrt : Qc -> Qc;
  fsin : Qc -> Qc;
  fcos : Qc -> Qc;
  fexp : Qc -> Qc;
  (** [math.pi] and [math.log(10000)] *)
  math_pi : Qc;
  log_10000 : Qc;
  (** the state of the global random generator, with one standard normal
      draw ([torch.randn]), one uniform draw on the unit interval
      ([torch.rand]) and one uniform draw below a bound *)
  rng : Type;
  randn : rng -> Qc * rng;
  rand : rng -> Qc * rng;
  randbelow : nat -> rng -> nat * rng;
  (** [dosmatgen.utils.constants.MAX_ATOMIC_NUM] *)
  MAX_ATOMIC_NUM : nat;
  (** [dosmatgen.utils.data.lattice_params_to_matrix_torch lengths angles] *)
  lattice_params_to_matrix_torch : mat -> mat -> tensor3;
  (** the cutoff-radius branch of the edge builder, which rests on
      [radius_graph_pbc] and [repeat_blocks] of [dosmatgen.utils.graphs]:
      cutoff, max_neighbors, num_atoms, frac_coords, lattices, node2graph *)
  knn_edges : Qc -> nat -> list nat -> mat -> tensor3 -> list nat
              -> result (edge_index * mat);
  (** [torch.autograd.grad(val, [t, x, l], grad_outputs=ones,
      allow_unused=True)] for [val] computed by the given function at the
      given point: one gradient per input, [None] for an input that the
      computation does not use *)
  autograd : (mat -> mat -> tensor3 -> result mat) -> mat -> mat -> tensor3
             -> option mat * option mat * option tensor3
}.

(** Computations that also draw random numbers. *)
Definition M `{Primitives} (A : Type) : Type := rng -> result (A * rng).

Definition retM `{Primitives} {A : Type} (a : A) : M A := fun g => ret (a, g).

Definition bindM `{Primitives} {A B : Type} (m : M A) (k : A -> M B) : M B :=
  fun g =>
    match m g with
    | inl e => inl e
    | inr (a, g') => k a g'
    end.

Definition lift `{Primitives} {A : Type} (r : result A) : M A :=
  fun g =>
    match r with
    | inl e => inl e
    | inr a => ret (a, g)
    end.

Definition raiseM `{Primitives} {A : Type} (e : exn) : M A := fun _ => raise e.

Notation "x <~ e ;; k" := (bindM e (fun x => k))
  (at level 20, e at level 99, k at level 200, only parsing).
Notation "' p <~ e ;; k" := (bindM e (fun p => k))
  (at level 20, p pattern, e at level 99, k at level 200, only parsing).

(** [torch.randn_like t] and [torch.zeros_like t]. *)
Definition randn_like `{Primitives} {A : Type} `{Tensor A} (t : A) : M A :=
  fun g => ret (tdraw randn t g).

(** [torch.randn([n, m])] and [torch.rand([n, m])]. *)
Definition randn_mat `{Primitives} (n m : nat) : M mat :=
  fun g => ret (tdraw randn (replicate n (replicate m 0%Qc)) g).

Definition rand_mat `{Primitives} (n m : nat) : M mat :=
  fun g => ret (tdraw rand (replicate n (replicate m 0%Qc)) g).

(** The value of a run, without the final generator state. *)
Definition value `{Primitives} {A : Type} (r : result (A * rng)) : result A :=
  match r with
  | inl e => inl e
  | inr (a, _) => inr a
  end.

(** ** torch.nn layers

    A freshly constructed layer takes its parameter values from an
    initialiser [init name i j], the entry [(i, j)] of the parameter
    registered under [name]. *)

Definition initialiser : Type := string -> nat -> nat -> Qc.

Definition tabulate (n m : nat) (f : nat -> nat -> Qc) : mat :=
  (fun i => f i <$> seq 0 m) <$> seq 0 n.

Record Linear : Type := mk_Linear {
  in_features : nat;
  out_features : nat;
  weight : mat;
  bias : option vec
}.

(** [nn.Linear(in_features, out_features, bias=with_bias)] *)
Definition nn_Linear (init : initialiser) (name : string)
    (in_features out_features : nat) (with_bias : bool) : Linear :=
  mk_Linear in_features out_features
    (tabulate out_features in_features (init (name +:+ ".weight")))
    (if with_bias then Some (init (name +:+ ".bias") 0 <$> seq 0 out_features)
     else None).

Definition linear_row (L : Linear) (r : vec) : vec :=
  let y := dot r <$> weight L in
  match bias L with
  | Some b => zip_with Qcplus y b
  | None => y
  end.

Definition call_linear (L : Linear) (x : mat) : result mat :=
  if forallb (fun r => length r =? in_features L) x
  then ret (linear_row L <$> x)
  else raise RuntimeError.

Record Embedding : Type := mk_Embedding {
  num_embeddings : nat;
  embedding_dim : nat;
  table : mat
}.

(** [nn.Embedding(num_embeddings, embedding_dim)] *)
Definition nn_Embedding (init : initialiser) (name : string)
    (num_embeddings embedding_dim : nat) : Embedding :=
  mk_Embedding num_embeddings embedding_dim
    (tabulate num_embeddings embedding_dim (init (name +:+ ".weight"))).

Definition call_embedding (E : Embedding) (ids : list Z) : result mat :=
  map_result
    (fun i : Z =>
       if decide (0 <= i < Z.of_nat (num_embeddings E))%Z
       then not_none IndexError (table E !! Z.to_nat i)
       else raise IndexError) ids.

Record LayerNorm : Type := mk_LayerNorm {
  normalized_shape : nat;
  gamma : vec;
  beta : vec
}.

(** [nn.LayerNorm(normalized_shape)], with the default [eps = 1e-5]. *)
Definition nn_LayerNorm (init : initialiser) (name : string) (n : nat) : LayerNorm :=
  mk_LayerNorm n (init (name +:+ ".weight") 0 <$> seq 0 n)
                 (init (name +:+ ".bias") 0 <$> seq 0 n).

Definition layer_norm_eps : Qc := Q2Qc (1 # 100000).

Definition layer_norm_row `{Primitives} (N : LayerNorm) (r : vec) : vec :=
  let n := Q2Qc (inject_Z (Z.of_nat (length r))) in
  let mean := (qsum r / n)%Qc in
  let var := (qsum ((fun x => (x - mean) * (x - mean)) <$> r) / n)%Qc in
  zip_with (fun x gb => (x - mean) / fsqrt (var + layer_norm_eps) * gb.1 + gb.2)%Qc
           r (zip (gamma N) (beta N)).

Definition call_layer_norm `{Primitives} (N : LayerNorm) (x : mat) : result mat :=
  if forallb (fun r => length r =? normalized_shape N) x
  then ret (layer_norm_row N <$> x)
  else raise RuntimeError.

(** [nn.SiLU]: [x * sigmoid(x)]. *)
Definition silu `{Primitives} (x : Qc) : Qc := (x * (1 / (1 + fexp (- x))))%Qc.

(** What the constructor argument [act_fn] has become: the module
    [nn.SiLU()], or still the string that was passed. *)
Inductive activation : Type :=
| SiLU
| ActStr (s : string).

(** The stages of an [nn.Sequential]. *)
Inductive stage : Type :=
| StLinear (L : Linear)
| StSiLU.

Definition Sequential : Type := list stage.

(** [nn.Sequential(...)] refuses an argument that is not a module. *)
Definition as_stage (a : activation) : result stage :=
  match a with
  | SiLU => ret StSiLU
  | ActStr _ => raise TypeError
  end.

Definition call_stage `{Primitives} (st : stage) (x : mat) : result mat :=
  match st with
  | StLinear L => call_linear L x
  | StSiLU => ret (tmap silu x)
  end.

Fixpoint call_sequential `{Primitives} (sq : Sequential) (x : mat) : result mat :=
  match sq with
  | [] => ret x
  | st :: sq => y <- call_stage st x ;; call_sequential sq y
  end.

(** ** torch_geometric.utils.scatter with [reduce='mean'], along dim 0 *)

(** [out.scatter_add_(0, index, src)]: [out[index[e]] += src[e]]. *)
Fixpoint scatter_add {A : Type} `{Tensor A} (out : list A) (index : list nat)
    (src : list A) : result (list A) :=
  match index, src with
  | [], [] => ret out
  | i :: index, x :: src =>
      acc <- not_none RuntimeError (out !! i) ;;
      acc' <- tadd acc x ;;
      scatter_add (<[i := acc']> out) index src
  | _, _ => raise RuntimeError
  end.

(** The width of the rows of [src]; a tensor without rows still has the
    width [w] it was declared with. *)
Definition row_width (w : nat) (src : mat) : nat :=
  match src with
  | [] => w
  | r :: _ => length r
  end.

Definition Qcmax (x y : Qc) : Qc := if Qcleb x y then y else x.

(** [scatter(src, index, dim=0, reduce='mean', dim_size=dim_size)]: the
    sums per index divided by the counts, a count of zero being clamped to
    one.  Without [dim_size] the result has [max index + 1] rows. *)
Definition scatter_mean (w : nat) (src : mat) (index : list nat)
    (dim_size : option nat) : result mat :=
  let size := match dim_size with
              | Some n => n
              | None => match index with
                        | [] => 0
                        | _ :: _ => S (foldr Nat.max 0 index)
                        end
              end in
  count <- scatter_add (replicate size 0%Qc) index (replicate (length src) 1%Qc) ;;
  let count := Qcmax 1 <$> count in
  out <- scatter_add (replicate size (replicate (row_width w src) 0%Qc)) index src ;;
  ret (zip_with (fun row c => tmap (fun x => x / c)%Qc row) out count).

(** ** cspnet_cfg.py: SinusoidsEmbedding *)

Module SinusoidsEmbedding.

Record t : Type := mk {
  n_frequencies : nat;
  n_space : nat;
  frequencies : vec;
  dim : nat
}.

(** [2 * math.pi * torch.arange(n_frequencies)] *)
Definition init `{Primitives} (n_freq space : nat) : t :=
  mk n_freq space
     ((fun k => 2 * math_pi * Q2Qc (inject_Z (Z.of_nat k)))%Qc <$> seq 0 n_freq)
     (n_freq * 2 * space).

Definition forward `{Primitives} (self : t) (x : mat) : result mat :=
  let emb : tensor3 :=
    (fun r : vec => (fun xi : Qc => tscale xi (frequencies self)) <$> r) <$> x in
  emb <- chunks (n_frequencies self * n_space self) (concat (concat emb)) ;;
  ret ((fun r : vec => tmap fsin r ++ tmap fcos r) <$> emb).

End SinusoidsEmbedding.

(** What the constructor argument [dis_emb] has become: an embedding
    module, or still the string that was passed ([None] is the third
    case). *)
Inductive dis_embedding : Type :=
| DisSin (e : SinusoidsEmbedding.t)
| DisStr (s : string).

(** ** cspnet_cfg.py: CSPLayer *)

Module CSPLayer.

Record t : Type := mk {
  hidden_dim : nat;
  dis_emb : option SinusoidsEmbedding.t;
  ln : bool;
  ip : bool;
  dis_dim : nat;
  edge_mlp : Sequential;
  node_mlp : Sequential;
  layer_norm : option LayerNorm
}.

Definition init (w : initialiser) (name : string) (hidden : nat)
    (act_fn : activation) (dis_embed : option dis_embedding) (use_ln use_ip : bool)
    : result t :=
  dis <- match dis_embed with
         | None => ret (None, 3)
         | Some (DisSin e) => ret (Some e, SinusoidsEmbedding.dim e)
         | Some (DisStr _) => raise AttributeError
         end ;;
  act <- as_stage act_fn ;;
  let edge_mlp :=
    [ StLinear (nn_Linear w (name +:+ ".edge_mlp.0")
                          (hidden * 2 + 9 + dis.2) hidden true);
      act;
      StLinear (nn_Linear w (name +:+ ".edge_mlp.2") hidden hidden true);
      act ] in
  let node_mlp :=
    [ StLinear (nn_Linear w (name +:+ ".node_mlp.0") (hidden * 2) hidden true);
      act;
      StLinear (nn_Linear w (name +:+ ".node_mlp.2") hidden hidden true);
      act ] in
  ret (mk hidden dis.1 use_ln use_ip dis.2 edge_mlp node_mlp
          (if use_ln then Some (nn_LayerNorm w (name +:+ ".layer_norm") hidden)
           else None)).

Definition edge_model `{Primitives} (self : t) (node_features frac_coords : mat)
    (lattices : tensor3) (edges : edge_index) (edge2graph : list nat)
    (frac_diff : option mat) : result mat :=
  hi <- index_select node_features edges.1 ;;
  hj <- index_select node_features edges.2 ;;
  frac_diff <- match frac_diff with
               | None =>
                   xi <- index_select frac_coords edges.1 ;;
                   xj <- index_select frac_coords edges.2 ;;
                   d <- tsub xj xi ;;
                   ret (wrap d)
               | Some d => ret d
               end ;;
  frac_diff <- match dis_emb self with
               | Some emb => SinusoidsEmbedding.forward emb frac_diff
               | None => ret frac_diff
               end ;;
  lattice_ips <- (if ip self
                  then map_result (fun l => matmul l (transpose l)) lattices
                  else ret lattices) ;;
  lattice_ips_flatten <- chunks 9 (concat (concat lattice_ips)) ;;
  lattice_ips_flatten_edges <- index_select lattice_ips_flatten edge2graph ;;
  edges_input <- cat1 hi hj ;;
  edges_input <- cat1 edges_input lattice_ips_flatten_edges ;;
  edges_input <- cat1 edges_input frac_diff ;;
  call_sequential (edge_mlp self) edges_input.

Definition node_model `{Primitives} (self : t) (node_features edge_features : mat)
    (edges : edge_index) : result mat :=
  agg <- scatter_mean (hidden_dim self) edge_features edges.1
                      (Some (length node_features)) ;;
  agg <- cat1 node_features agg ;;
  call_sequential (node_mlp self) agg.

Definition forward `{Primitives} (self : t) (node_features frac_coords : mat)
    (lattices : tensor3) (edges : edge_index) (edge2graph : list nat)
    (frac_diff : option mat) : result mat :=
  let node_input := node_features in
  node_features <- (if ln self
                    then N <- not_none AttributeError (layer_norm self) ;;
                         call_layer_norm N node_input
                    else ret node_features) ;;
  edge_features <- edge_model self node_features frac_coords lattices
                              edges edge2graph frac_diff ;;
  node_output <- node_model self node_features edge_features edges ;;
  tadd node_input node_output.

End CSPLayer.

(** ** cspnet_cfg.py: CSPNet *)

(** The backbone is called with integer species ids or, in the smooth
    embedding mode, with a row of type weights per atom. *)
Inductive atom_input : Type :=
| AtomIds (ids : list Z)
| AtomProbs (p : mat).

(** [atom_types - 1] *)
Definition minus_one (a : atom_input) : atom_input :=
  match a with
  | AtomIds ids => AtomIds ((fun i => i - 1)%Z <$> ids)
  | AtomProbs p => AtomProbs (tmap (fun x => x - 1)%Qc p)
  end.

(** [self.node_embedding(a)]: an [nn.Linear] takes float rows, an
    [nn.Embedding] integer ids; the other combinations are dtype errors. *)
Definition call_node_embedding (e : Linear + Embedding) (a : atom_input) : result mat :=
  match e, a with
  | inl L, AtomProbs p => call_linear L p
  | inr E, AtomIds ids => call_embedding E ids
  | _, _ => raise RuntimeError
  end.

(** The five outputs [(coord_out, lattice_out, type_out, graph_out,
    node_out)] of the backbone. *)
Abbreviation outputs := (mat * tensor3 * option mat * option mat * option mat)%type.

(** [a, b = v]: unpacking [None] is a [TypeError]. *)
Definition unpack {A : Type} (v : option A) : result A := not_none TypeError v.

(** [t.view(-1, 3, 3)] *)
Definition view_33 (x : mat) : result tensor3 :=
  rows <- chunks 3 (concat x) ;;
  chunks 3 rows.

(** [a + b] where a single row of either operand is broadcast along
    dim 0. *)
Definition expand0 {A : Type} (n : nat) (l : list A) : list A :=
  match l with
  | [x] => replicate n x
  | _ => l
  end.

Definition tadd_rows (a b : mat) : result mat :=
  tadd (expand0 (length b) a) (expand0 (length a) b).

Module CSPNet.

(** The keyword arguments of the constructor. *)
Module Args.
Record t : Type := mk {
  hidden_dim : nat;
  latent_dim : nat;
  num_layers : nat;
  max_atoms : nat;
  act_fn : string;
  dis_emb : string;
  num_freqs : nat;
  edge_style : string;
  cutoff : Qc;
  max_neighbors : nat;
  ln : bool;
  ip : bool;
  smooth : bool;
  pred_type : bool;
  pred_graph_level : bool;
  pred_node_level : bool;
  pred_dim : option nat;
  cfg : bool;
  cfg_prob : Qc
}.

(** The defaults of the signature. *)
Definition default : t :=
  mk 128 256 4 100 "silu" "sin" 10 "fc" (Q2Qc 6) 20
     false true false false false false None false 0%Qc.
End Args.

Record t : Type := mk {
  hidden_dim : nat;
  latent_dim : nat;
  num_layers : nat;
  max_atoms : nat;
  act_fn : activation;
  dis_emb : option dis_embedding;
  num_freqs : nat;
  edge_style : string;
  cutoff : Qc;
  max_neighbors : nat;
  ln : bool;
  ip : bool;
  smooth : bool;
  pred_type : bool;
  pred_graph_level : bool;
  pred_node_level : bool;
  pred_dim : option nat;
  cfg : bool;
  cfg_prob : Qc;
  node_embedding : Linear + Embedding;
  atom_latent_emb : Linear;
  (** the message-passing layers, registered under ["csp_layer_%d" % i] *)
  _modules : gmap string CSPLayer.t;
  coord_out : Linear;
  lattice_out : Linear;
  final_layer_norm : option LayerNorm;
  type_out : option Linear;
  graph_out : option Linear;
  node_out : option Linear;
  y_projection : option Linear
}.

(** The loop [for i in range(0, num_layers): self.add_module(...)]. *)
Fixpoint add_layers (w : initialiser) (hidden : nat) (act : activation)
    (dis : option dis_embedding) (use_ln use_ip : bool) (indices : list nat)
    (modules : gmap string CSPLayer.t) : result (gmap string CSPLayer.t) :=
  match indices with
  | [] => ret modules
  | i :: indices =>
      let name := "csp_layer_" +:+ pretty i in
      layer <- CSPLayer.init w name hidden act dis use_ln use_ip ;;
      add_layers w hidden act dis use_ln use_ip indices (<[name := layer]> modules)
  end.

(** [CSPNet.__init__] *)
Definition init `{Primitives} (w : initialiser) (a : Args.t) : result t :=
  let hidden := Args.hidden_dim a in
  let node_emb : Linear + Embedding :=
    if Args.smooth a
    then inl (nn_Linear w "node_embedding" (Args.max_atoms a) hidden true)
    else inr (nn_Embedding w "node_embedding" (Args.max_atoms a) hidden) in
  let atom_latent := nn_Linear w "atom_latent_emb" (hidden + Args.latent_dim a) hidden true in
  let act := if decide (Args.act_fn a = "silu") then SiLU else ActStr (Args.act_fn a) in
  let dis :=
    if decide (Args.dis_emb a = "sin")
    then Some (DisSin (SinusoidsEmbedding.init (Args.num_freqs a) 3))
    else if decide (Args.dis_emb a = "none") then None
    else Some (DisStr (Args.dis_emb a)) in
  modules <- add_layers w hidden act dis (Args.ln a) (Args.ip a)
                        (seq 0 (Args.num_layers a)) ∅ ;;
  let coord := nn_Linear w "coord_out" hidden 3 false in
  let lattice := nn_Linear w "lattice_out" hidden 9 false in
  let final_ln :=
    if Args.ln a then Some (nn_LayerNorm w "final_layer_norm" hidden) else None in
  let type_head :=
    if Args.pred_type a then Some (nn_Linear w "type_out" hidden MAX_ATOMIC_NUM true)
    else None in
  _ <- (if (Args.pred_graph_level a || Args.pred_node_level a)
           && bool_decide (Args.pred_dim a = None)
        then raise ValueError else ret tt) ;;
  graph_head <- (if Args.pred_graph_level a
                 then d <- not_none TypeError (Args.pred_dim a) ;;
                      ret (Some (nn_Linear w "graph_out" hidden d true))
                 else ret None) ;;
  node_head <- (if Args.pred_node_level a
                then d <- not_none TypeError (Args.pred_dim a) ;;
                     ret (Some (nn_Linear w "node_out" hidden d false))
                else ret None) ;;
  y_proj <- (if Args.cfg a
             then d <- not_none TypeError (Args.pred_dim a) ;;
                  ret (Some (nn_Linear w "y_projection" d hidden true))
             else ret None) ;;
  ret (mk hidden (Args.latent_dim a) (Args.num_layers a) (Args.max_atoms a)
          act dis (Args.num_freqs a) (Args.edge_style a) (Args.cutoff a)
          (Args.max_neighbors a) (Args.ln a) (Args.ip a) (Args.smooth a)
          (Args.pred_type a) (Args.pred_graph_level a) (Args.pred_node_level a)
          (Args.pred_dim a) (Args.cfg a) (Args.cfg_prob a)
          node_emb atom_latent modules coord lattice final_ln type_head
          graph_head node_head y_proj).

(** [gen_edges]; with an [edge_style] that is neither ['fc'] nor ['knn']
    the function falls off its end and returns [None]. *)
Definition gen_edges `{Primitives} (self : t) (num_atoms : list nat)
    (frac_coords : mat) (lattices : tensor3) (node2graph : list nat)
    : result (option (edge_index * mat)) :=
  if decide (edge_style self = "fc") then
    let lis := (fun n => ones n n) <$> num_atoms in
    let fc_graph := block_diag lis in
    let fc_edges := (dense_to_sparse fc_graph).1 in
    xj <- index_select frac_coords fc_edges.2 ;;
    xi <- index_select frac_coords fc_edges.1 ;;
    d <- tsub xj xi ;;
    ret (Some (fc_edges, wrap d))
  else if decide (edge_style self = "knn") then
    e <- knn_edges (cutoff self) (max_neighbors self) num_atoms frac_coords
                   lattices node2graph ;;
    ret (Some e)
  else ret None.

(** [CSPNet.unconditional] *)
Definition unconditional `{Primitives} (self : t) (time_emb : mat)
    (atom_types : atom_input) (frac_coords : mat) (lattices : tensor3)
    (num_atoms node2graph : list nat) (y : option mat) : result outputs :=
  '(edges, frac_diff) <- (e <- gen_edges self num_atoms frac_coords lattices node2graph ;;
                          unpack e) ;;
  edge2graph <- index_select node2graph edges.1 ;;
  node_features <- (if smooth self
                    then call_node_embedding (node_embedding self) atom_types
                    else call_node_embedding (node_embedding self) (minus_one atom_types)) ;;
  t_per_atom <- repeat_interleave time_emb num_atoms ;;
  node_features <- cat1 node_features t_per_atom ;;
  node_features <- call_linear (atom_latent_emb self) node_features ;;
  node_features <-
    foldl (fun acc i =>
             h <- acc ;;
             layer <- not_none KeyError (_modules self !! ("csp_layer_" +:+ pretty i)) ;;
             CSPLayer.forward layer h frac_coords lattices edges edge2graph
                              (Some frac_diff))
          (ret node_features) (seq 0 (num_layers self)) ;;
  node_features <- (if ln self
                    then N <- not_none AttributeError (final_layer_norm self) ;;
                         call_layer_norm N node_features
                    else ret node_features) ;;
  coord <- call_linear (coord_out self) node_features ;;
  node <- (if pred_node_level self
           then L <- not_none AttributeError (node_out self) ;;
                o <- call_linear L node_features ;;
                ret (Some o)
           else ret None) ;;
  graph_features <- scatter_mean (hidden_dim self) node_features node2graph None ;;
  graph <- (if pred_graph_level self
            then L <- not_none AttributeError (graph_out self) ;;
                 o <- call_linear L graph_features ;;
                 ret (Some o)
            else ret None) ;;
  lattice <- call_linear (lattice_out self) graph_features ;;
  lattice <- view_33 lattice ;;
  lattice <- (if ip self then zip_with_checked matmul lattice lattices
              else ret lattice) ;;
  type <- (if pred_type self
           then L <- not_none AttributeError (type_out self) ;;
                o <- call_linear L node_features ;;
                ret (Some o)
           else ret None) ;;
  ret (coord, lattice, type, graph, node).

(** [CSPNet.conditional] *)
Definition conditional `{Primitives} (self : t) (time_emb : mat)
    (atom_types : atom_input) (frac_coords : mat) (lattices : tensor3)
    (num_atoms node2graph : list nat) (y : option mat) : result outputs :=
  '(edges, frac_diff) <- (e <- gen_edges self num_atoms frac_coords lattices node2graph ;;
                          unpack e) ;;
  edge2graph <- index_select node2graph edges.1 ;;
  node_features <- (if smooth self
                    then call_node_embedding (node_embedding self) atom_types
                    else call_node_embedding (node_embedding self) (minus_one atom_types)) ;;
  t_per_atom <- repeat_interleave time_emb num_atoms ;;
  y <- not_none AttributeError y ;;
  P <- not_none AttributeError (y_projection self) ;;
  y_proj <- call_linear P y ;;
  node_features <- tadd_rows node_features y_proj ;;
  node_features <- cat1 node_features t_per_atom ;;
  node_features <- call_linear (atom_latent_emb self) node_features ;;
  node_features <-
    foldl (fun acc i =>
             h <- acc ;;
             layer <- not_none KeyError (_modules self !! ("csp_layer_" +:+ pretty i)) ;;
             CSPLayer.forward layer h frac_coords lattices edges edge2graph
                              (Some frac_diff))
          (ret node_features) (seq 0 (num_layers self)) ;;
  node_features <- (if ln self
                    then N <- not_none AttributeError (final_layer_norm self) ;;
                         call_layer_norm N node_features
                    else ret node_features) ;;
  coord <- call_linear (coord_out self) node_features ;;
  node <- (if pred_node_level self
           then L <- not_none AttributeError (node_out self) ;;
                o <- call_linear L node_features ;;
                ret (Some o)
           else ret None) ;;
  graph_features <- scatter_mean (hidden_dim self) node_features node2graph None ;;
  graph <- (if pred_graph_level self
            then L <- not_none AttributeError (graph_out self) ;;
                 o <- call_linear L graph_features ;;
                 ret (Some o)
            else ret None) ;;
  lattice <- call_linear (lattice_out self) graph_features ;;
  lattice <- view_33 lattice ;;
  lattice <- (if ip self then zip_with_checked matmul lattice lattices
              else ret lattice) ;;
  type <- (if pred_type self
           then L <- not_none AttributeError (type_out self) ;;
                o <- call_linear L node_features ;;
                ret (Some o)
           else ret None) ;;
  ret (coord, lattice, type, graph, node).

(** [CSPNet.forward].  In classifier-free-guidance mode one uniform
    draw decides whether the projected property is added. *)
Definition forward `{Primitives} (self : t) (time_emb : mat)
    (atom_types : atom_input) (frac_coords : mat) (lattices : tensor3)
    (num_atoms node2graph : list nat) (y : option mat)
    (unconditional_flag conditional_flag : bool) : M outputs :=
  if unconditional_flag then
    lift (unconditional self time_emb atom_types frac_coords lattices
                        num_atoms node2graph y)
  else if conditional_flag then
    lift (conditional self time_emb atom_types frac_coords lattices
                      num_atoms node2graph y)
  else
    '(edges, frac_diff) <~
       lift (e <- gen_edges self num_atoms frac_coords lattices node2graph ;;
             unpack e) ;;
    edge2graph <~ lift (index_select node2graph edges.1) ;;
    node_features <~
      lift (if smooth self
            then call_node_embedding (node_embedding self) atom_types
            else call_node_embedding (node_embedding self) (minus_one atom_types)) ;;
    t_per_atom <~ lift (repeat_interleave time_emb num_atoms) ;;
    node_features <~
      (if cfg self then
         u <~ (fun g => ret (rand g)) ;;
         if Qcleb (cfg_prob self) u then
           lift (y <- not_none AttributeError y ;;
                 P <- not_none AttributeError (y_projection self) ;;
                 y_proj <- call_linear P y ;;
                 tadd_rows node_features y_proj)
         else retM node_features
       else retM node_features) ;;
    node_features <~ lift (cat1 node_features t_per_atom) ;;
    node_features <~ lift (call_linear (atom_latent_emb self) node_features) ;;
    node_features <~
      lift (foldl (fun acc i =>
                     h <- acc ;;
                     layer <- not_none KeyError
                                (_modules self !! ("csp_layer_" +:+ pretty i)) ;;
                     CSPLayer.forward layer h frac_coords lattices edges edge2graph
                                      (Some frac_diff))
                  (ret node_features) (seq 0 (num_layers self))) ;;
    node_features <~
      lift (if ln self
            then N <- not_none AttributeError (final_layer_norm self) ;;
                 call_layer_norm N node_features
            else ret node_features) ;;
    coord <~ lift (call_linear (coord_out self) node_features) ;;
    node <~ lift (if pred_node_level self
                  then L <- not_none AttributeError (node_out self) ;;
                       o <- call_linear L node_features ;;
                       ret (Some o)
                  else ret None) ;;
    graph_features <~
      lift (scatter_mean (hidden_dim self) node_features node2graph None) ;;
    graph <~ lift (if pred_graph_level self
                   then L <- not_none AttributeError (graph_out self) ;;
                        o <- call_linear L graph_features ;;
                        ret (Some o)
                   else ret None) ;;
    lattice <~ lift (call_linear (lattice_out self) graph_features) ;;
    lattice <~ lift (view_33 lattice) ;;
    lattice <~ lift (if ip self then zip_with_checked matmul lattice lattices
                     else ret lattice) ;;
    type <~ lift (if pred_type self
                  then L <- not_none AttributeError (type_out self) ;;
                       o <- call_linear L node_features ;;
                       ret (Some o)
                  else ret None) ;;
    retM (coord, lattice, type, graph, node).

End CSPNet.

(** ** property.py: helpers *)

Definition Z2Qc (z : Z) : Qc := Q2Qc (inject_Z z).

(** Python's [range(start, stop, -1)]. *)
Definition range_down (start stop : Z) : list Z :=
  (fun k => start - Z.of_nat k)%Z <$> seq 0 (Z.to_nat (start - stop)).

(** Python's [int(x)] on a float: truncation towards zero. *)
Definition int_trunc (x : Qc) : Z := Z.quot (Qnum x) (Zpos (Qden x)).

(** ** Rounding

    Rounding to nearest, ties to even, in the binary floating-point
    format of precision [prec]: 53 for a Python float, 24 for a float32
    tensor.  The exponent range is not modelled (no overflow, no
    subnormal numbers). *)

(** [floor(log2 q)] of a positive rational. *)
Definition ilog2 (q : Q) : Z :=
  let e := (Z.log2 (Qnum q) - Z.log2 (Zpos (Qden q)))%Z in
  if Qle_bool (2 ^ e) q then e else (e - 1)%Z.

(** The nearest integer, the even one of two nearest. *)
Definition round_half_even (q : Q) : Z :=
  let f := Qfloor q in
  match (q - inject_Z f ?= 1 # 2)%Q with
  | Lt => f
  | Gt => (f + 1)%Z
  | Eq => if Z.even f then f else (f + 1)%Z
  end.

Definition round_Q (prec : Z) (q : Q) : Q :=
  match Qnum q with
  | Z0 => 0%Q
  | _ =>
      let a := Qabs q in
      let ulp := (2 ^ (ilog2 a - prec + 1))%Q in
      let m := (inject_Z (round_half_even (a / ulp)) * ulp)%Q in
      if Qle_bool 0 q then m else (- m)%Q
  end.

Definition round_float (prec : Z) (x : Qc) : Qc := Q2Qc (round_Q prec x).

(** The product [a * b] of two Python floats.  Each operand is taken at
    the nearest float (an integer is converted and a decimal literal is
    read with this rounding; a float is left as it is), and the product is
    rounded. *)
Definition float_mul (a b : Qc) : Qc :=
  round_float 53 (round_float 53 a * round_float 53 b).


(** [F.one_hot(ids, num_classes).float()] *)
Definition one_hot (ids : list Z) (num_classes : nat) : result mat :=
  map_result
    (fun i : Z =>
       if decide (0 <= i < Z.of_nat num_classes)%Z
       then ret ((fun k => if decide (k = Z.to_nat i) then 1%Qc else 0%Qc)
                   <$> seq 0 num_classes)
       else raise RuntimeError) ids.

(** The position of the first maximal entry of a non-empty row. *)
Fixpoint argmax_from (best : Qc) (best_i i : nat) (r : vec) : nat :=
  match r with
  | [] => best_i
  | x :: r =>
      if Qcleb x best then argmax_from best best_i (S i) r
      else argmax_from x i (S i) r
  end.

Definition argmax_row (r : vec) : result nat :=
  match r with
  | [] => raise IndexError
  | x :: r => ret (argmax_from x 0 1 r)
  end.

(** [t.argmax(dim=-1) + 1] on a two-dimensional tensor. *)
Definition argmax_plus_1 (t : mat) : result (list nat) :=
  map_result (fun r => i <- argmax_row r ;; ret (i + 1)) t.

(** [torch.stack(l)]: at least one tensor, all of one shape. *)
Definition stack {A : Type} `{Tensor A} `{EqDecision A} (l : list A) : result (list A) :=
  match l with
  | [] => raise RuntimeError
  | a :: _ =>
      if decide (Forall (fun b => zeros_like b = zeros_like a) l) then ret l
      else raise RuntimeError
  end.

Definition Qcabs (x : Qc) : Qc := if Qcleb 0 x then x else (- x)%Qc.

(** [F.l1_loss(input, target)]: the mean of the absolute differences. *)
Definition l1_loss (input target : option mat) : result Qc :=
  input <- not_none AttributeError input ;;
  target <- not_none AttributeError target ;;
  d <- tsub input target ;;
  let flat := concat d in
  ret (qsum (Qcabs <$> flat) / Z2Qc (Z.of_nat (length flat)))%Qc.

(** [torch.linalg.norm(a - b, dim=1, keepdim=True)] *)
Definition norm_rows `{Primitives} (a b : option mat) : result mat :=
  a <- not_none TypeError a ;;
  b <- not_none TypeError b ;;
  d <- tsub a b ;;
  ret ((fun r : vec => [fsqrt (qsum ((fun x => x * x)%Qc <$> r))]) <$> d).

(** ** property.py: SinusoidalTimeEmbeddings *)

Module SinusoidalTimeEmbeddings.

Record t : Type := mk { dim : nat }.

Definition forward `{Primitives} (self : t) (time : list Z) : result mat :=
  let half_dim := (dim self / 2)%nat in
  embeddings <- (if decide (Z.of_nat half_dim - 1 = 0)%Z then raise ZeroDivisionError
                 else ret (log_10000 / Z2Qc (Z.of_nat half_dim - 1))%Qc) ;;
  let embeddings : vec :=
    (fun k => fexp (Z2Qc (Z.of_nat k) * - embeddings)%Qc) <$> seq 0 half_dim in
  let embeddings : mat := (fun ti : Z => tscale (Z2Qc ti) embeddings) <$> time in
  ret ((fun r : vec => tmap fsin r ++ tmap fcos r) <$> embeddings).

End SinusoidalTimeEmbeddings.

(** ** The schedulers of dosmatgen.utils.diffusion

    Their tables are indexed by the timestep. *)

Module BetaScheduler.

Record t : Type := mk {
  timesteps : nat;
  alphas : Z -> Qc;
  alphas_cumprod : Z -> Qc;
  betas : Z -> Qc;
  sigmas : Z -> Qc
}.

(** Modelled from the spec: [BetaScheduler.uniform_sample_t], of
    [dosmatgen.utils.diffusion]: it draws [batch_size] timesteps,
    independently and uniformly from [1 .. timesteps]. *)
Definition uniform_sample_t `{Primitives} (self : t) (batch_size : nat) : M (list Z) :=
  fun g =>
    ret (draw_list
           (fun (_ : Z) g =>
              let '(k, g') := randbelow (timesteps self) g in
              (Z.of_nat (S (k mod timesteps self)), g'))
           (replicate batch_size 0%Z) g).

End BetaScheduler.

Module SigmaScheduler.

Record t : Type := mk {
  sigmas : Z -> Qc;
  sigmas_norm : Z -> Qc;
  sigma_begin : Qc
}.

End SigmaScheduler.

(** ** The batch of structures *)

Module Batch.

Record t : Type := mk {
  num_graphs : nat;
  num_nodes : nat;
  num_atoms : list nat;
  frac_coords : mat;
  lengths : mat;
  angles : mat;
  atom_types : list Z;
  batch : list nat;
  y : option mat
}.

End Batch.

(** ** The backbone instance of the diffusion module

    [property.py] builds its decoder from [dosmatgen.models.cspnet], which
    is not among the sources; it enters through its two prediction-level
    flags and through the function its call computes from [(t, atom_types,
    frac_coords, lattices, num_atoms, node2graph)]. *)

Module Decoder.

Record t : Type := mk {
  pred_graph_level : bool;
  pred_node_level : bool;
  call : mat -> mat -> mat -> tensor3 -> list nat -> list nat -> result outputs
}.

End Decoder.

(** ** The sampling trajectory *)

(** The ['atom_types'] entry of a snapshot holds the soft type weights
    until the terminal snapshot is given hard species ids. *)
Inductive type_channel : Type :=
| Soft (p : mat)
| Hard (ids : list nat).

Definition soft (c : type_channel) : result mat :=
  match c with
  | Soft p => ret p
  | Hard _ => raise TypeError
  end.

Module Snapshot.

Record t : Type := mk {
  num_atoms : list nat;
  atom_types : type_channel;
  frac_coords : mat;
  lattices : tensor3
}.

End Snapshot.

Module TrajStack.

Record t : Type := mk {
  num_atoms : list nat;
  atom_types : list (list nat);
  all_frac_coords : list mat;
  all_lattices : list tensor3
}.

End TrajStack.

(** [traj[i]] *)
Definition traj_item (traj : gmap Z Snapshot.t) (i : Z) : result Snapshot.t :=
  not_none KeyError (traj !! i).

(** A [for] loop over a list, threading the loop state. *)
Fixpoint for_each `{Primitives} {A S : Type} (l : list A) (body : S -> A -> M S)
    (s : S) : M S :=
  match l with
  | [] => retM s
  | a :: l => s' <~ body s a ;; for_each l body s'
  end.

(** ** property.py: CSPProperty *)

Module CSPProperty.

Record t : Type := mk {
  decoder : Decoder.t;
  beta_scheduler : BetaScheduler.t;
  sigma_scheduler : SigmaScheduler.t;
  time_dim : nat;
  time_embedding : SinusoidalTimeEmbeddings.t;
  time_independent : bool;
  (** [hparams.diffusion.latent_dim] *)
  latent_dim : Z
}.

(** [CSPProperty.forward]: the training loss. *)
Definition forward `{Primitives} (self : t) (batch : Batch.t) : M Qc :=
  let batch_size := Batch.num_graphs batch in
  times <~ BetaScheduler.uniform_sample_t (beta_scheduler self) batch_size ;;
  time_emb <~ lift (SinusoidalTimeEmbeddings.forward (time_embedding self) times) ;;
  let alphas_cumprod := BetaScheduler.alphas_cumprod (beta_scheduler self) <$> times in
  let beta := BetaScheduler.betas (beta_scheduler self) <$> times in
  let c0 : vec := fsqrt <$> alphas_cumprod in
  let c1 : vec := (fun a => fsqrt (1 - a)%Qc) <$> alphas_cumprod in
  let sigmas := SigmaScheduler.sigmas (sigma_scheduler self) <$> times in
  let sigmas_norm := SigmaScheduler.sigmas_norm (sigma_scheduler self) <$> times in
  let lattices :=
    lattice_params_to_matrix_torch (Batch.lengths batch) (Batch.angles batch) in
  let frac_coords := Batch.frac_coords batch in
  rand_l <~ randn_like lattices ;;
  rand_x <~ randn_like frac_coords ;;
  input_lattice <~ lift (a <- unsqueeze_scale c0 lattices ;;
                         b <- unsqueeze_scale c1 rand_l ;;
                         tadd a b) ;;
  sigmas_per_atom <~ lift (repeat_interleave sigmas (Batch.num_atoms batch)) ;;
  input_frac_coords <~ lift (n <- unsqueeze_scale sigmas_per_atom rand_x ;;
                             s <- tadd frac_coords n ;;
                             ret (wrap s)) ;;
  gt_atom_types_onehot <~
    lift (one_hot ((fun i => i - 1)%Z <$> Batch.atom_types batch) MAX_ATOMIC_NUM) ;;
  rand_t <~ randn_like gt_atom_types_onehot ;;
  c0_repeated <~ lift (repeat_interleave c0 (Batch.num_atoms batch)) ;;
  c1_repeated <~ lift (repeat_interleave c1 (Batch.num_atoms batch)) ;;
  atom_type_probs <~ lift (a <- unsqueeze_scale c0_repeated gt_atom_types_onehot ;;
                           b <- unsqueeze_scale c1_repeated rand_t ;;
                           tadd a b) ;;
  let '(time_emb, atom_type_probs, input_frac_coords, input_lattice) :=
    if time_independent self
    then (zeros_like time_emb, gt_atom_types_onehot, frac_coords, lattices)
    else (time_emb, atom_type_probs, input_frac_coords, input_lattice) in
  '(pred_x, pred_l, pred_t, pred_graph, pred_node) <~
    lift (Decoder.call (decoder self) time_emb atom_type_probs input_frac_coords
                       input_lattice (Batch.num_atoms batch) (Batch.batch batch)) ;;
  if Decoder.pred_graph_level (decoder self) then
    lift (l1_loss pred_graph (Batch.y batch))
  else if Decoder.pred_node_level (decoder self) then
    lift (l1_loss pred_node (Batch.y batch))
  else raiseM ValueError.

(** [CSPProperty.infer]: the prediction and the target. *)
Definition infer `{Primitives} (self : t) (batch : Batch.t)
    : M (option mat * option mat) :=
  let batch_size := Batch.num_graphs batch in
  times <~ BetaScheduler.uniform_sample_t (beta_scheduler self) batch_size ;;
  time_emb <~ lift (SinusoidalTimeEmbeddings.forward (time_embedding self) times) ;;
  let time_emb := zeros_like time_emb in
  atom_type_probs <~
    lift (one_hot ((fun i => i - 1)%Z <$> Batch.atom_types batch) MAX_ATOMIC_NUM) ;;
  let input_frac_coords := Batch.frac_coords batch in
  let input_lattice :=
    lattice_params_to_matrix_torch (Batch.lengths batch) (Batch.angles batch) in
  '(pred_x, pred_l, pred_t, pred_graph, pred_node) <~
    lift (Decoder.call (decoder self) time_emb atom_type_probs input_frac_coords
                       input_lattice (Batch.num_atoms batch) (Batch.batch batch)) ;;
  if Decoder.pred_graph_level (decoder self) then retM (pred_graph, Batch.y batch)
  else if Decoder.pred_node_level (decoder self) then retM (pred_node, Batch.y batch)
  else raiseM ValueError.

(** The start of [sample] and of [masked_sample] (the two functions
    open with the same text): the timestep to start from and the state
    [(l_T, x_T, t_T)] there. *)
Definition initial_state `{Primitives} (self : t) (batch : Batch.t) (diff_ratio : Qc)
    : M (Z * tensor3 * mat * mat) :=
  _ <~ lift (if time_independent self then raise AssertionError else ret tt) ;;
  let batch_size := Batch.num_graphs batch in
  l_T <~ randn_like (replicate batch_size (replicate 3 (replicate 3 0%Qc))) ;;
  x_T <~ (fun g => ret (tdraw rand (replicate (Batch.num_nodes batch)
                                              (replicate 3 0%Qc)) g)) ;;
  t_T <~ randn_like (replicate (Batch.num_nodes batch)
                               (replicate MAX_ATOMIC_NUM 0%Qc)) ;;
  if Qclt_le_dec diff_ratio 1 then
    let time_start :=
      int_trunc (float_mul (Z2Qc (Z.of_nat (BetaScheduler.timesteps (beta_scheduler self))))
                           diff_ratio) in
    let lattices :=
      lattice_params_to_matrix_torch (Batch.lengths batch) (Batch.angles batch) in
    atom_types_onehot <~
      lift (one_hot ((fun i => i - 1)%Z <$> Batch.atom_types batch) MAX_ATOMIC_NUM) ;;
    let frac_coords := Batch.frac_coords batch in
    rand_l <~ randn_like lattices ;;
    rand_x <~ randn_like frac_coords ;;
    rand_t <~ randn_like atom_types_onehot ;;
    let alphas_cumprod := BetaScheduler.alphas_cumprod (beta_scheduler self) time_start in
    let beta := BetaScheduler.betas (beta_scheduler self) time_start in
    let c0 := fsqrt alphas_cumprod in
    let c1 := fsqrt (1 - alphas_cumprod)%Qc in
    let sigmas := SigmaScheduler.sigmas (sigma_scheduler self) time_start in
    l_T <~ lift (tadd (tscale c0 lattices) (tscale c1 rand_l)) ;;
    x_T <~ lift (s <- tadd frac_coords (tscale sigmas rand_x) ;; ret (wrap s)) ;;
    t_T <~ lift (tadd (tscale c0 atom_types_onehot) (tscale c1 rand_t)) ;;
    retM (time_start, l_T, x_T, t_T)
  else
    retM (Z.of_nat (BetaScheduler.timesteps (beta_scheduler self)), l_T, x_T, t_T).

(** [traj = {time_start: {...}}] *)
Definition initial_traj (batch : Batch.t) (time_start : Z) (l_T : tensor3)
    (x_T t_T : mat) : gmap Z Snapshot.t :=
  {[ time_start := Snapshot.mk (Batch.num_atoms batch) (Soft t_T) (wrap x_T) l_T ]}.

(** The local variables of one pass through the loop, once the guidance
    gradient is computed. *)
Record locals : Type := mk_locals {
  c0 : Qc;
  c1 : Qc;
  sigmas : Qc;
  sigma_norm : Qc;
  step_size : Qc;
  std_x : Qc;
  x_t_minus_05 : mat;
  l_t_minus_05 : tensor3;
  t_t_minus_05 : mat;
  pred_x : mat;
  pred_l : tensor3;
  pred_t : option mat;
  rand_l : tensor3;
  rand_t : mat;
  rand_x : mat;
  grad_t : option mat;
  grad_x : option mat;
  grad_l : option tensor3
}.

(** [randn_like(ref) if t > 1 else zeros_like(ref)] *)
Definition noise `{Primitives} {A : Type} `{Tensor A} (time : Z) (ref : A) : M A :=
  if decide (1 < time)%Z then randn_like ref else retM (zeros_like ref).

(** The body of the loop of [sample] and of [masked_sample] up to the
    guidance gradient (again the same text in both): the corrector, the
    second backbone evaluation and the gradient of the property
    discrepancy. *)
Definition predictor_state `{Primitives} (self uncod : t) (batch : Batch.t)
    (step_lr : Qc) (l_T : tensor3) (x_T t_T : mat) (traj : gmap Z Snapshot.t)
    (time : Z) : M locals :=
  let batch_size := Batch.num_graphs batch in
  let times := replicate batch_size time in
  time_emb <~ lift (SinusoidalTimeEmbeddings.forward (time_embedding self) times) ;;
  _ <~ lift (if decide (0 < latent_dim self)%Z then raise NotImplementedError
             else ret tt) ;;
  rand_l <~ noise time l_T ;;
  rand_t <~ noise time t_T ;;
  rand_x <~ randn_like x_T ;;
  let alphas := BetaScheduler.alphas (beta_scheduler self) time in
  let alphas_cumprod := BetaScheduler.alphas_cumprod (beta_scheduler self) time in
  let sigmas := BetaScheduler.sigmas (beta_scheduler self) time in
  let sigma_x := SigmaScheduler.sigmas (sigma_scheduler self) time in
  let sigma_norm := SigmaScheduler.sigmas_norm (sigma_scheduler self) time in
  let c0 := (1 / fsqrt alphas)%Qc in
  let c1 := ((1 - alphas) / fsqrt (1 - alphas_cumprod))%Qc in
  let c2 := ((1 - alphas) / fsqrt alphas)%Qc in
  snap <~ lift (traj_item traj time) ;;
  let x_t := Snapshot.frac_coords snap in
  let l_t := Snapshot.lattices snap in
  t_t <~ lift (soft (Snapshot.atom_types snap)) ;;
  (* Corrector *)
  rand_l <~ noise time l_T ;;
  rand_t <~ noise time t_T ;;
  rand_x <~ noise time x_T ;;
  let step_size :=
    (step_lr * ((sigma_x / SigmaScheduler.sigma_begin (sigma_scheduler self))
                * (sigma_x / SigmaScheduler.sigma_begin (sigma_scheduler self))))%Qc in
  let std_x := fsqrt (2 * step_size)%Qc in
  '(pred_x, pred_l, pred_t, _, _) <~
    lift (Decoder.call (decoder uncod) time_emb t_t x_t l_t
                       (Batch.num_atoms batch) (Batch.batch batch)) ;;
  let pred_x := tscale (fsqrt sigma_norm) pred_x in
  x_t_minus_05 <~ lift (a <- tsub x_t (tscale step_size pred_x) ;;
                        tadd a (tscale std_x rand_x)) ;;
  let l_t_minus_05 := l_t in
  let t_t_minus_05 := t_t in
  (* Predictor *)
  rand_l <~ noise time l_T ;;
  rand_t <~ noise time t_T ;;
  rand_x <~ noise time x_T ;;
  let adjacent_sigma_x := SigmaScheduler.sigmas (sigma_scheduler self) (time - 1) in
  let step_size := (sigma_x * sigma_x - adjacent_sigma_x * adjacent_sigma_x)%Qc in
  let std_x :=
    fsqrt ((adjacent_sigma_x * adjacent_sigma_x
            * (sigma_x * sigma_x - adjacent_sigma_x * adjacent_sigma_x))
           / (sigma_x * sigma_x))%Qc in
  '(pred_x, pred_l, pred_t, _, _) <~
    lift (Decoder.call (decoder uncod) time_emb t_t_minus_05 x_t_minus_05
                       l_t_minus_05 (Batch.num_atoms batch) (Batch.batch batch)) ;;
  let val := fun (tt : mat) (xx : mat) (ll : tensor3) =>
    '(_, _, _, pred_graph, pred_node) <-
      Decoder.call (decoder self) time_emb tt xx ll
                   (Batch.num_atoms batch) (Batch.batch batch) ;;
    if Decoder.pred_graph_level (decoder self) then
      norm_rows pred_graph (Batch.y batch)
    else if Decoder.pred_node_level (decoder self) then
      norm_rows pred_node (Batch.y batch)
    else raise ValueError in
  _ <~ lift (val t_t_minus_05 x_t_minus_05 l_t_minus_05) ;;
  let '(grad_t, grad_x, grad_l) :=
    autograd val t_t_minus_05 x_t_minus_05 l_t_minus_05 in
  retM (mk_locals c0 c1 sigmas sigma_norm step_size std_x
                  x_t_minus_05 l_t_minus_05 t_t_minus_05
                  pred_x pred_l pred_t rand_l rand_t rand_x
                  grad_t grad_x grad_l).

(** The update of [sample] and the snapshot it stores under [t - 1]. *)
Definition sample_update `{Primitives} (batch : Batch.t) (aug : Qc) (v : locals)
    : result Snapshot.t :=
  let pred_x := tscale (fsqrt (sigma_norm v)) (pred_x v) in
  a <- tsub (x_t_minus_05 v) (tscale (step_size v) pred_x) ;;
  gx <- not_none TypeError (grad_x v) ;;
  a <- tsub a (tscale (std_x v * std_x v * aug)%Qc gx) ;;
  x_t_minus_1 <- tadd a (tscale (std_x v) (rand_x v)) ;;
  a <- tsub (l_t_minus_05 v) (tscale (c1 v) (pred_l v)) ;;
  gl <- not_none TypeError (grad_l v) ;;
  a <- tsub (tscale (c0 v) a) (tscale (sigmas v * sigmas v * aug)%Qc gl) ;;
  l_t_minus_1 <- tadd a (tscale (sigmas v) (rand_l v)) ;;
  pt <- not_none TypeError (pred_t v) ;;
  a <- tsub (t_t_minus_05 v) (tscale (c1 v) pt) ;;
  gt <- not_none TypeError (grad_t v) ;;
  a <- tsub (tscale (c0 v) a) (tscale (sigmas v * sigmas v * aug)%Qc gt) ;;
  t_t_minus_1 <- tadd a (tscale (sigmas v) (rand_t v)) ;;
  ret (Snapshot.mk (Batch.num_atoms batch) (Soft t_t_minus_1)
                   (wrap x_t_minus_1) l_t_minus_1).

(** The update of [masked_sample]; [mask] holds one factor per atom (a
    column, so that it scales the row of each atom). *)
Definition masked_sample_update `{Primitives} (batch : Batch.t) (aug : Qc)
    (mask : option vec) (v : locals) : result Snapshot.t :=
  m <- not_none TypeError mask ;;
  gx <- not_none AttributeError (grad_x v) ;;
  _ <- (if decide (length m = length gx) then ret tt else raise AssertionError) ;;
  gt <- not_none AttributeError (grad_t v) ;;
  _ <- (if decide (length gx = length gt) then ret tt else raise AssertionError) ;;
  grad_x <- unsqueeze_scale m gx ;;
  grad_t <- unsqueeze_scale m gt ;;
  let pred_x := tscale (fsqrt (sigma_norm v)) (pred_x v) in
  a <- tsub (x_t_minus_05 v) (tscale (step_size v) pred_x) ;;
  a <- tsub a (tscale (std_x v * std_x v * aug)%Qc grad_x) ;;
  x_t_minus_1 <- tadd a (tscale (std_x v) (rand_x v)) ;;
  a <- tsub (l_t_minus_05 v) (tscale (c1 v) (pred_l v)) ;;
  l_t_minus_1 <- tadd (tscale (c0 v) a) (tscale (sigmas v) (rand_l v)) ;;
  pt <- not_none TypeError (pred_t v) ;;
  a <- tsub (t_t_minus_05 v) (tscale (c1 v) pt) ;;
  a <- tsub (tscale (c0 v) a) (tscale (sigmas v * sigmas v * aug)%Qc grad_t) ;;
  t_t_minus_1 <- tadd a (tscale (sigmas v) (rand_t v)) ;;
  ret (Snapshot.mk (Batch.num_atoms batch) (Soft t_t_minus_1)
                   (wrap x_t_minus_1) l_t_minus_1).

(** One pass through the loop of [sample]: [traj[t - 1] = {...}]. *)
Definition sample_step `{Primitives} (self uncod : t) (batch : Batch.t)
    (step_lr aug : Qc) (l_T : tensor3) (x_T t_T : mat)
    (traj : gmap Z Snapshot.t) (time : Z) : M (gmap Z Snapshot.t) :=
  v <~ predictor_state self uncod batch step_lr l_T x_T t_T traj time ;;
  snap <~ lift (sample_update batch aug v) ;;
  retM (<[(time - 1)%Z := snap]> traj).

Definition masked_sample_step `{Primitives} (self uncod : t) (batch : Batch.t)
    (step_lr aug : Qc) (mask : option vec) (l_T : tensor3) (x_T t_T : mat)
    (traj : gmap Z Snapshot.t) (time : Z) : M (gmap Z Snapshot.t) :=
  v <~ predictor_state self uncod batch step_lr l_T x_T t_T traj time ;;
  snap <~ lift (masked_sample_update batch aug mask v) ;;
  retM (<[(time - 1)%Z := snap]> traj).

(** The trajectory when the loop of [sample] is over. *)
Definition sample_trajectory `{Primitives} (self : t) (batch : Batch.t) (uncod : t)
    (diff_ratio step_lr aug : Qc) : M (Z * gmap Z Snapshot.t) :=
  '(time_start, l_T, x_T, t_T) <~ initial_state self batch diff_ratio ;;
  let traj := initial_traj batch time_start l_T x_T t_T in
  traj <~ for_each (range_down time_start 0)
                   (sample_step self uncod batch step_lr aug l_T x_T t_T) traj ;;
  retM (time_start, traj).

Definition masked_sample_trajectory `{Primitives} (self : t) (batch : Batch.t)
    (uncod : t) (diff_ratio step_lr aug : Qc) (mask : option vec)
    : M (Z * gmap Z Snapshot.t) :=
  '(time_start, l_T, x_T, t_T) <~ initial_state self batch diff_ratio ;;
  let traj := initial_traj batch time_start l_T x_T t_T in
  traj <~ for_each (range_down time_start 0)
                   (masked_sample_step self uncod batch step_lr aug mask l_T x_T t_T)
                   traj ;;
  retM (time_start, traj).

(** The end of [sample] and of [masked_sample] (the same text once
    more): the stacked trajectory, and the terminal snapshot with its
    type channel replaced by hard species ids. *)
Definition stack_trajectory (batch : Batch.t) (time_start : Z)
    (traj : gmap Z Snapshot.t) : result (Snapshot.t * TrajStack.t) :=
  let keys := range_down time_start (-1) in
  types <- map_result (fun i => s <- traj_item traj i ;;
                                soft (Snapshot.atom_types s)) keys ;;
  types <- stack types ;;
  types <- map_result argmax_plus_1 types ;;
  coords <- map_result (fun i => s <- traj_item traj i ;;
                                 ret (Snapshot.frac_coords s)) keys ;;
  coords <- stack coords ;;
  lats <- map_result (fun i => s <- traj_item traj i ;;
                               ret (Snapshot.lattices s)) keys ;;
  lats <- stack lats ;;
  let traj_stack := TrajStack.mk (Batch.num_atoms batch) types coords lats in
  res <- traj_item traj 0 ;;
  p <- soft (Snapshot.atom_types res) ;;
  ids <- argmax_plus_1 p ;;
  let traj := <[0%Z := Snapshot.mk (Snapshot.num_atoms res) (Hard ids)
                                   (Snapshot.frac_coords res)
                                   (Snapshot.lattices res)]> traj in
  final <- traj_item traj 0 ;;
  ret (final, traj_stack).

(** [CSPProperty.sample] *)
Definition sample `{Primitives} (self : t) (batch : Batch.t) (uncod : t)
    (diff_ratio step_lr aug : Qc) : M (Snapshot.t * TrajStack.t) :=
  '(time_start, traj) <~ sample_trajectory self batch uncod diff_ratio step_lr aug ;;
  lift (stack_trajectory batch time_start traj).

(** [CSPProperty.masked_sample] *)
Definition masked_sample `{Primitives} (self : t) (batch : Batch.t) (uncod : t)
    (diff_ratio step_lr aug : Qc) (mask : option vec)
    : M (Snapshot.t * TrajStack.t) :=
  '(time_start, traj) <~
    masked_sample_trajectory self batch uncod diff_ratio step_lr aug mask ;;
  lift (stack_trajectory batch time_start traj).

End CSPProperty.

(** ** Vocabulary of the statements *)

(** The unit interval, closed below and open above. *)
Definition in_unit (x : Qc) : Prop := (0 <= x)%Qc /\ (x < 1)%Qc.

(** The closed unit interval. *)
Definition in_closed_unit (x : Qc) : Prop := (0 <= x)%Qc /\ (x <= 1)%Qc.

(** Entry [(a, k)] of a matrix and entry [(b, i, j)] of a stack of
    matrices. *)
Definition entry2 (m : mat) (a k : nat) : option Qc :=
  m !! a ≫= (fun r : vec => r !! k).

Definition entry3 (t : tensor3) (b i j : nat) : option Qc :=
  t !! b ≫= (fun m : mat => entry2 m i j).

(** The run-length expansion of the atom counts: the structure that owns
    each atom. *)
Definition owners (num_atoms : list nat) : list nat :=
  concat (imap (fun b n => replicate n b) num_atoms).

(** The rows of [src] whose entry in [index] is atom [a], in order: with
    [index] the first endpoints [edge_index[0]] of the edges (their
    sources), the features of the edges that start at [a]; with the second
    endpoints [edge_index[1]], those of the edges that end at [a]. *)
Definition rows_at {A : Type} (index : list nat) (src : list A) (a : nat) : list A :=
  omap (fun p : nat * A => if decide (p.1 = a) then Some p.2 else None) (zip index src).

(** The mean of a list of rows of width [w]; of no row at all it is the
    zero row. *)
Definition mean_rows (w : nat) (rows : list vec) : vec :=
  (fun x => x / Z2Qc (Z.of_nat (Nat.max 1 (length rows))))%Qc
    <$> foldl (zip_with Qcplus) (replicate w 0%Qc) rows.

(** A trajectory all of whose stored coordinates lie in the closed unit
    interval. *)
Definition wrapped (traj : gmap Z Snapshot.t) : Prop :=
  forall k snap, traj !! k = Some snap ->
                 tForall in_closed_unit (Snapshot.frac_coords snap).

(** [loss] is the L1 distance between the prediction of the enabled head
    on the corrupted state and the target [batch.y], the state being
    corrupted at the timesteps and with the noise drawn from [g]:
    coordinates [(x_0 + sigma(t) * eps) mod 1], lattice [sqrt(abar(t)) * l_0
    + sqrt(1 - abar(t)) * eps], type one-hot [sqrt(abar(t)) * onehot +
    sqrt(1 - abar(t)) * eps], with [t] the timestep of the structure that
    owns the entry. *)
Definition forward_on_corrupted_state `{Primitives} (self : CSPProperty.t)
    (batch : Batch.t) (g : rng) (loss : Qc) (g' : rng) : Prop :=
  let lattices :=
    lattice_params_to_matrix_torch (Batch.lengths batch) (Batch.angles batch) in
  let abar := BetaScheduler.alphas_cumprod (CSPProperty.beta_scheduler self) in
  let sigma := SigmaScheduler.sigmas (CSPProperty.sigma_scheduler self) in
  let T := BetaScheduler.timesteps (CSPProperty.beta_scheduler self) in
  exists times g1 time_emb eps_l g2 eps_x g3 onehot eps_t l_t x_t a_t
         pred_x pred_l pred_t pred_graph pred_node,
    BetaScheduler.uniform_sample_t (CSPProperty.beta_scheduler self)
                                   (Batch.num_graphs batch) g = inr (times, g1)
    /\ length times = Batch.num_graphs batch
    /\ (0 < T -> Forall (fun t => 1 <= t <= Z.of_nat T)%Z times)
    /\ SinusoidalTimeEmbeddings.forward (CSPProperty.time_embedding self) times
       = inr time_emb
    /\ randn_like lattices g1 = inr (eps_l, g2)
    /\ randn_like (Batch.frac_coords batch) g2 = inr (eps_x, g3)
    /\ one_hot ((fun i => i - 1)%Z <$> Batch.atom_types batch) MAX_ATOMIC_NUM = inr onehot
    /\ randn_like onehot g3 = inr (eps_t, g')
    /\ same_shape l_t lattices
    /\ same_shape x_t (Batch.frac_coords batch)
    /\ same_shape a_t onehot
    /\ (forall b i j t l0 e,
          times !! b = Some t ->
          entry3 lattices b i j = Some l0 ->
          entry3 eps_l b i j = Some e ->
          entry3 l_t b i j = Some (fsqrt (abar t) * l0 + fsqrt (1 - abar t) * e)%Qc)
    /\ (forall a k b t x0 e,
          owners (Batch.num_atoms batch) !! a = Some b ->
          times !! b = Some t ->
          entry2 (Batch.frac_coords batch) a k = Some x0 ->
          entry2 eps_x a k = Some e ->
          entry2 x_t a k = Some (fmod1 (x0 + sigma t * e)%Qc))
    /\ (forall a k b t h e,
          owners (Batch.num_atoms batch) !! a = Some b ->
          times !! b = Some t ->
          entry2 onehot a k = Some h ->
          entry2 eps_t a k = Some e ->
          entry2 a_t a k = Some (fsqrt (abar t) * h + fsqrt (1 - abar t) * e)%Qc)
    /\ Decoder.call (CSPProperty.decoder self) time_emb a_t x_t l_t
                    (Batch.num_atoms batch) (Batch.batch batch)
       = inr (pred_x, pred_l, pred_t, pred_graph, pred_node)
    /\ (Decoder.pred_graph_level (CSPProperty.decoder self) = true
        \/ Decoder.pred_node_level (CSPProperty.decoder self) = true)
    /\ l1_loss (if Decoder.pred_graph_level (CSPProperty.decoder self)
                then pred_graph else pred_node) (Batch.y batch) = inr loss.

(** The snapshots of a trajectory at the timesteps [t] and above: what
    the reverse loop has stored when it is about to run step [t]. *)
Definition upto (t : Z) (traj : gmap Z Snapshot.t) : gmap Z Snapshot.t :=
  filter (fun kv : Z * Snapshot.t => (t <= kv.1)%Z) traj.

(** A trajectory whose type channels are all soft and of the shape of
    [t_T]. *)
Definition soft_typed (t_T : mat) (traj : gmap Z Snapshot.t) : Prop :=
  forall k snap, traj !! k = Some snap ->
                 exists p, Snapshot.atom_types snap = Soft p /\ same_shape p t_T.

(** The locals of a step with other guidance gradients in place of the
    computed ones. *)
Definition with_grads (v : CSPProperty.locals) (gt gx : option mat)
    (gl : option tensor3) : CSPProperty.locals :=
  CSPProperty.mk_locals
    (CSPProperty.c0 v) (CSPProperty.c1 v) (CSPProperty.sigmas v)
    (CSPProperty.sigma_norm v) (CSPProperty.step_size v) (CSPProperty.std_x v)
    (CSPProperty.x_t_minus_05 v) (CSPProperty.l_t_minus_05 v)
    (CSPProperty.t_t_minus_05 v) (CSPProperty.pred_x v) (CSPProperty.pred_l v)
    (CSPProperty.pred_t v) (CSPProperty.rand_l v) (CSPProperty.rand_t v)
    (CSPProperty.rand_x v) gt gx gl.

(** ** A small instance on which the definitions run *)

Module Toy.

(** Identity for the scalar functions, a counter for the generator: the
    [k]-th normal draw is [k / 4], every uniform draw [1 / 2]. *)
Definition prims : Primitives := {|
  fsqrt := fun x => x;
  fsin := fun x => x;
  fcos := fun x => x;
  fexp := fun x => x;
  math_pi := Z2Qc 3;
  log_10000 := Z2Qc 9;
  rng := nat;
  randn := fun g => (Q2Qc (Z.of_nat g # 4), S g);
  rand := fun g => (Q2Qc (1 # 2), S g);
  randbelow := fun _ g => (g, S g);
  MAX_ATOMIC_NUM := 3;
  lattice_params_to_matrix_torch := fun lengths _ =>
    (fun l : vec => [[default 0%Qc (l !! 0); 0%Qc; 0%Qc];
                     [0%Qc; default 0%Qc (l !! 1); 0%Qc];
                     [0%Qc; 0%Qc; default 0%Qc (l !! 2)]]) <$> lengths;
  knn_edges := fun _ _ _ _ _ _ => raise NotImplementedError;
  autograd := fun _ t x l =>
    (Some (tmap (fun _ => 1%Qc) t), Some (tmap (fun _ => 1%Qc) x),
     Some (tmap (fun _ => 1%Qc) l))
|}.

Definition weights : initialiser :=
  fun _ i j => Q2Qc ((Z.of_nat i + 1) # Pos.of_nat (j + 2)).

(** A backbone of width 2 with one layer, over three species. *)
Definition args : CSPNet.Args.t :=
  CSPNet.Args.mk 2 1 1 3 "silu" "sin" 1 "fc" (Z2Qc 6) 20
                 false true false true true false (Some 1) false 0%Qc.

(** The backbone without layers and heads, and the one the constructor
    builds from [args]. *)
Definition bare_net : CSPNet.t :=
  CSPNet.mk 2 1 0 3 SiLU None 1 "fc" (Z2Qc 6) 20 false true false false false false
            None false 0%Qc
            (inr (nn_Embedding weights "node_embedding" 3 2))
            (nn_Linear weights "atom_latent_emb" 3 2 true) ∅
            (nn_Linear weights "coord_out" 2 3 false)
            (nn_Linear weights "lattice_out" 2 9 false)
            None None None None None.

Definition net : CSPNet.t :=
  match CSPNet.init (H := prims) weights args with
  | inr n => n
  | inl _ => bare_net
  end.

Definition layer : CSPLayer.t :=
  match CSPLayer.init weights "csp_layer_0" 2 SiLU None false true with
  | inr l => l
  | inl _ => CSPLayer.mk 2 None false true 3 [] [] None
  end.

Definition half : Qc := Q2Qc (1 # 2).
Definition quarter : Qc := Q2Qc (1 # 4).

(** Two structures of one atom each. *)
Definition batch : Batch.t :=
  Batch.mk 2 2 [1; 1]
           [[half; quarter; 0%Qc]; [quarter; half; half]]
           [[1%Qc; 1%Qc; 1%Qc]; [1%Qc; 1%Qc; 1%Qc]]
           [[half; half; half]; [half; half; half]]
           [1%Z; 3%Z] [0; 1] (Some [[0%Qc]; [1%Qc]]).

(** A decoder that hands its inputs back as scores and predicts, for
    each structure, the first coordinate of its atom. *)
Definition decoder : Decoder.t :=
  Decoder.mk true false
    (fun _ t x l _ _ =>
       ret (x, l, Some t, Some ((fun r : vec => take 1 r) <$> x), None)).

Definition beta_scheduler : BetaScheduler.t :=
  BetaScheduler.mk 3 (fun _ => quarter) (fun _ => quarter) (fun _ => half)
                   (fun _ => half).

Definition sigma_scheduler : SigmaScheduler.t :=
  SigmaScheduler.mk (fun t => Z2Qc (t + 1)) (fun _ => 1%Qc) (Z2Qc 4).

(** Five atoms, for the structures of two and of three atoms. *)
Definition coords5 : mat :=
  [[0%Qc; 0%Qc; 0%Qc]; [half; half; half]; [quarter; 0%Qc; half];
   [half; quarter; 0%Qc]; [0%Qc; half; quarter]].

Definition eye : list (list Qc) :=
  [[1%Qc; 0%Qc; 0%Qc]; [0%Qc; 1%Qc; 0%Qc]; [0%Qc; 0%Qc; 1%Qc]].

Definition model (time_independent : bool) : CSPProperty.t :=
  CSPProperty.mk decoder beta_scheduler sigma_scheduler 8
                 (SinusoidalTimeEmbeddings.mk 8) time_independent 0.

(** The state at the last timestep, 3, and the trajectory that holds
    only it. *)
Definition l_3 : tensor3 := [eye; eye].
Definition x_3 : mat := [[half; quarter; 0%Qc]; [quarter; half; half]].
Definition t_3 : mat := [[1%Qc; 0%Qc; 0%Qc]; [0%Qc; 0%Qc; 1%Qc]].

Definition traj_3 : gmap Z Snapshot.t := CSPProperty.initial_traj batch 3 l_3 x_3 t_3.

Definition g0 : @rng prims := 0.

End Toy.

(** ** property.py: judge_requires_grad and RequiresGradContext

    The objects handed to the context manager are references: a tensor is
    known by its identity, a module by the identities of its parameters
    (in the order of [parameters()]), and the [requires_grad] flags of all
    tensors live in one store, so that two references to one tensor, or a
    tensor that is also a parameter of a module, share their flag.  The
    tensors are leaves of a floating-point type, for which
    [requires_grad_] only sets the flag. *)

Inductive pyobj : Type :=
| ObjTensor (id : nat)
| ObjModule (parameters : list nat)
| ObjOther.

Definition flags : Type := nat -> bool.

Definition set_flag (id : nat) (b : bool) (s : flags) : flags :=
  fun k => if decide (k = id) then b else s k.

(** [next(...)] on an exhausted iterator raises [StopIteration], which is
    not among the exceptions the other functions raise. *)
Inductive raised : Set :=
| StopIteration
| Exn (e : exn).

(** [judge_requires_grad] *)
Definition judge_requires_grad (s : flags) (obj : pyobj) : raised + bool :=
  match obj with
  | ObjTensor id => inr (s id)
  | ObjModule (id :: _) => inr (s id)
  | ObjModule [] => inl StopIteration
  | ObjOther => inl (Exn TypeError)
  end.

(** [obj.requires_grad_(b)]: on a module, for every parameter. *)
Definition requires_grad_ (obj : pyobj) (b : bool) (s : flags) : result flags :=
  match obj with
  | ObjTensor id => ret (set_flag id b s)
  | ObjModule ids => ret (foldl (fun s id => set_flag id b s) s ids)
  | ObjOther => raise AttributeError
  end.

(** The keyword argument [requires_grad]: a bool, a list, or something
    else. *)
Inductive requires_grad_arg : Type :=
| RgBool (b : bool)
| RgList (l : list bool)
| RgOther.

Module RequiresGradContext.

Record t : Type := mk {
  objs : list pyobj;
  backups : list bool;
  requires_grads : list bool
}.

Fixpoint judge_all (s : flags) (objs : list pyobj) : raised + list bool :=
  match objs with
  | [] => inr []
  | obj :: objs =>
      match judge_requires_grad s obj with
      | inl e => inl e
      | inr b =>
          match judge_all s objs with
          | inl e => inl e
          | inr bs => inr (b :: bs)
          end
      end
  end.

(** [__init__] *)
Definition init (s : flags) (objs : list pyobj) (requires_grad : requires_grad_arg)
    : raised + t :=
  match judge_all s objs with
  | inl e => inl e
  | inr backups =>
      match requires_grad with
      | RgOther => inl (Exn TypeError)
      | RgBool b =>
          let requires_grads := replicate (length objs) b in
          if decide (length objs = length requires_grads)
          then inr (mk objs backups requires_grads)
          else inl (Exn AssertionError)
      | RgList l =>
          if decide (length objs = length l)
          then inr (mk objs backups l)
          else inl (Exn AssertionError)
      end
  end.

(** The loop [for obj, b in zip(objs, bs): obj.requires_grad_(b)]. *)
Fixpoint set_all (pairs : list (pyobj * bool)) (s : flags) : result flags :=
  match pairs with
  | [] => ret s
  | (obj, b) :: pairs => s' <- requires_grad_ obj b s ;; set_all pairs s'
  end.

(** [__enter__] *)
Definition enter (self : t) (s : flags) : result flags :=
  set_all (zip (objs self) (requires_grads self)) s.

(** [__exit__] *)
Definition exit (self : t) (s : flags) : result flags :=
  set_all (zip (objs self) (backups self)) s.

End RequiresGradContext.

(** An object whose [requires_grad] flag can be read: a tensor, or a
    module with at least one parameter. *)
Definition judgeable (obj : pyobj) : Prop :=
  match obj with
  | ObjTensor _ => True
  | ObjModule ids => ids <> []
  | ObjOther => False
  end.

(** The timestep the samplers start from: the last one, or the fraction
    [diff_ratio] of the schedule, the product rounded as the float it is
    and then truncated. *)
Definition start_time (self : CSPProperty.t) (diff_ratio : Qc) : Z :=
  let T := Z.of_nat (BetaScheduler.timesteps (CSPProperty.beta_scheduler self)) in
  if Qclt_le_dec diff_ratio 1 then int_trunc (float_mul (Z2Qc T) diff_ratio) else T.

(** The name under which the constructor registers layer [i]. *)
Definition layer_name (i : nat) : string := "csp_layer_" +:+ pretty i.

(** The number of rows of a scatter without [dim_size]: one more than the
    largest index. *)
Definition index_rows (index : list nat) : nat :=
  match index with
  | [] => 0
  | _ :: _ => S (foldr Nat.max 0 index)
  end.

(** The number of atoms a backbone input speaks of. *)
Definition num_rows (a : atom_input) : nat :=
  match a with
  | AtomIds ids => length ids
  | AtomProbs p => length p
  end.

(** The edges of the fully-connected style: for each structure in turn
    (its first atom has index [offset]) the ordered pairs of its atoms,
    row by row. *)
Fixpoint fc_pairs (offset : nat) (num_atoms : list nat) : list (nat * nat) :=
  match num_atoms with
  | [] => []
  | n :: rest => cprod (seq offset n) (seq offset n) ++ fc_pairs (offset + n) rest
  end.

(** ** cspnet_cfg.py: the symmetric edges of the cutoff-radius graph *)

(** [t[mask]] with a boolean mask over the first dimension, which must be
    as long as the tensor: the slices whose mask entry is set. *)
Fixpoint masked {A : Type} (t : list A) (mask : list bool) : list A :=
  match t, mask with
  | a :: t, b :: mask => if b then a :: masked t mask else masked t mask
  | _, _ => []
  end.

Definition mask_select {A : Type} (t : list A) (mask : list bool) : result (list A) :=
  if decide (length mask = length t) then ret (masked t mask) else raise IndexError.

(** An integer index into a dimension of size [n]: a negative index counts
    from the end. *)
Definition norm_index (n : nat) (i : Z) : option nat :=
  if decide (0 <= i < Z.of_nat n)%Z then Some (Z.to_nat i)
  else if decide (- Z.of_nat n <= i < 0)%Z then Some (Z.to_nat (Z.of_nat n + i))
  else None.

(** [t[idx]] with an integer index tensor. *)
Definition at_index {A : Type} (t : list A) (i : Z) : result A :=
  not_none IndexError (norm_index (length t) i ≫= (fun k => t !! k)).

Definition index_with {A : Type} (t : list A) (idx : list Z) : result (list A) :=
  map_result (at_index t) idx.

(** The product of a Python integer with a tensor. *)
Class IntScale (A : Type) : Type := int_scale : Z -> A -> A.

#[export] Hint Mode IntScale ! : typeclass_instances.

#[export] Instance Z_int_scale : IntScale Z := Z.mul.

#[export] Instance Qc_int_scale : IntScale Qc := fun s x => (Z2Qc s * x)%Qc.

#[export] Instance list_int_scale {A : Type} `{IntScale A} : IntScale (list A) :=
  fun s l => int_scale s <$> l.

(** [CSPNet.select_symmetric_edges] *)
Definition select_symmetric_edges {A : Type} `{IntScale A} (tensor : list A)
    (mask : list bool) (reorder_idx : list Z) (inverse_neg : bool)
    : result (list A) :=
  tensor_directed <- mask_select tensor mask ;;
  let sign := (1 - 2 * (if inverse_neg then 1 else 0))%Z in
  let tensor_cat := tensor_directed ++ (int_scale sign <$> tensor_directed) in
  index_with tensor_cat reorder_idx.

(** One entry of [cell_earlier]: the offset, read through its columns 0, 1
    and 2, comes before the home cell in the order of the cells. *)
Definition cell_earlier (offset : list Z) : result bool :=
  a <- not_none IndexError (offset !! 0) ;;
  b <- not_none IndexError (offset !! 1) ;;
  c <- not_none IndexError (offset !! 2) ;;
  ret ((a <? 0)%Z
       || ((a =? 0)%Z && (b <? 0)%Z)
       || ((a =? 0)%Z && (b =? 0)%Z && (c <? 0)%Z)).

(** [a &= b] on boolean vectors: [b] is broadcast to the shape of [a] when
    it has one entry. *)
Definition iand (a b : list bool) : result (list bool) :=
  if decide (length b = length a) then ret (zip_with andb a b)
  else match b with
       | [x] => ret ((fun y => y && x) <$> a)
       | _ => raise RuntimeError
       end.

(** The mask of [reorder_symmetric_edges]: an edge between two atoms is
    kept when it goes from the lower index to the higher one, an edge from
    an atom to an image of itself when its cell comes earlier. The two
    rows of an edge index have one length. *)
Definition symmetric_mask (edge_index : edge_index) (cell_offsets : list (list Z))
    : result (list bool) :=
  let mask_sep_atoms := zip_with Nat.ltb edge_index.1 edge_index.2 in
  earlier <- map_result cell_earlier cell_offsets ;;
  let mask_same_atoms := zip_with Nat.eqb edge_index.1 edge_index.2 in
  mask_same_atoms <- iand mask_same_atoms earlier ;;
  ret (zip_with orb mask_sep_atoms mask_same_atoms).

(** [torch.bincount(l, minlength=n)] *)
Definition bincount (l : list nat) (minlength : nat) : list nat :=
  (fun i => count_occ Nat.eq_dec l i) <$> seq 0 (Nat.max minlength (index_rows l)).

Section Reorder.

(** [dosmatgen.utils.graphs.repeat_blocks sizes repeats continuous_indexing
    repeat_inc], its other arguments at their defaults. *)
Variable repeat_blocks : list nat -> nat -> bool -> nat -> result (list Z).

(** [CSPNet.reorder_symmetric_edges] *)
Definition reorder_symmetric_edges (edge_index : edge_index)
    (cell_offsets : list (list Z)) (neighbors : list nat) (edge_vector : mat)
    : result ((list nat * list nat) * list (list Z) * list nat * mat) :=
  mask <- symmetric_mask edge_index cell_offsets ;;
  let edge_index_new := (masked edge_index.1 mask, masked edge_index.2 mask) in
  let edge_index_cat := (edge_index_new.1 ++ edge_index_new.2,
                         edge_index_new.2 ++ edge_index_new.1) in
  batch_edge <- repeat_interleave (seq 0 (length neighbors)) neighbors ;;
  batch_edge <- mask_select batch_edge mask ;;
  let neighbors_new := Nat.mul 2 <$> bincount batch_edge (length neighbors) in
  edge_reorder_idx <- repeat_blocks ((fun n => n / 2) <$> neighbors_new) 2 true
                                    (length edge_index_new.1) ;;
  row0 <- index_with edge_index_cat.1 edge_reorder_idx ;;
  row1 <- index_with edge_index_cat.2 edge_reorder_idx ;;
  cell_offsets_new <- select_symmetric_edges cell_offsets mask edge_reorder_idx true ;;
  edge_vector_new <- select_symmetric_edges edge_vector mask edge_reorder_idx true ;;
  ret ((row0, row1), cell_offsets_new, neighbors_new, edge_vector_new).

End Reorder.

(** [i] is the position of the first maximal entry of the row [r]. *)
Definition is_argmax (r : vec) (i : nat) : Prop :=
  exists v, r !! i = Some v
            /\ (forall k w, r !! k = Some w -> (w <= v)%Qc)
            /\ (forall k w, k < i -> r !! k = Some w -> (w < v)%Qc).

(** The hard species ids of a soft type channel: for each atom, one more
    than the position of the first maximal entry of its row. *)
Definition hard_ids (p : mat) (ids : list nat) : Prop :=
  Forall2 (fun (r : vec) id => 1 <= id /\ is_argmax r (id - 1)) p ids.

(** What [infer] computes from the batch alone: the backbone is called on
    the zero time embedding (one row of width [2 * (dim // 2)] per
    structure), the one-hot encoding of the species, the fractional
    coordinates and the lattice of the batch, none of them noised; the
    result is the prediction of the enabled head and the target. *)
Definition infer_clean `{Primitives} (self : CSPProperty.t) (batch : Batch.t)
    : result (option mat * option mat) :=
  let half_dim :=
    SinusoidalTimeEmbeddings.dim (CSPProperty.time_embedding self) / 2 in
  if decide (half_dim = 1) then raise ZeroDivisionError
  else
    let time_emb := replicate (Batch.num_graphs batch) (replicate (2 * half_dim) 0%Qc) in
    atom_type_probs <-
      one_hot ((fun i => i - 1)%Z <$> Batch.atom_types batch) MAX_ATOMIC_NUM ;;
    let lattice :=
      lattice_params_to_matrix_torch (Batch.lengths batch) (Batch.angles batch) in
    '(pred_x, pred_l, pred_t, pred_graph, pred_node) <-
      Decoder.call (CSPProperty.decoder self) time_emb atom_type_probs
                   (Batch.frac_coords batch) lattice
                   (Batch.num_atoms batch) (Batch.batch batch) ;;
    if Decoder.pred_graph_level (CSPProperty.decoder self)
    then ret (pred_graph, Batch.y batch)
    else if Decoder.pred_node_level (CSPProperty.decoder self)
         then ret (pred_node, Batch.y batch)
         else raise ValueError.


(** ** Further small instances *)

Module Demo.

(** The backbone of [Toy.args] with an edge style the edge builder does
    not know. *)
Definition radius_args : CSPNet.Args.t :=
  CSPNet.Args.mk 2 1 1 3 "silu" "sin" 1 "radius" (Z2Qc 6) 20
                 false true false true true false (Some 1) false 0%Qc.

Definition radius_net : CSPNet.t :=
  match CSPNet.init (H := Toy.prims) Toy.weights radius_args with
  | inr n => n
  | inl _ => Toy.bare_net
  end.

(** The backbone of [Toy.args] in classifier-free-guidance mode, the
    property dropped with probability [cfg_prob]. *)
Definition cfg_args (cfg_prob : Qc) : CSPNet.Args.t :=
  CSPNet.Args.mk 2 1 1 3 "silu" "sin" 1 "fc" (Z2Qc 6) 20
                 false true false true true false (Some 1) true cfg_prob.

Definition cfg_net (cfg_prob : Qc) : CSPNet.t :=
  match CSPNet.init (H := Toy.prims) Toy.weights (cfg_args cfg_prob) with
  | inr n => n
  | inl _ => Toy.bare_net
  end.

(** A stand-in for [repeat_blocks]: the kept edges in their order, then
    their counter-edges. *)
Definition in_order (sizes : list nat) (repeats : nat) (continuous_indexing : bool)
    (repeat_inc : nat) : result (list Z) :=
  ret (Z.of_nat <$> seq 0 (repeats * repeat_inc)).


End Demo.

(** * Properties *)

(** ** The monads *)

Lemma bind_inr {A B : Type} (m : result A) (k : A -> result B) (b : B) :
  bind m k = inr b -> exists a, m = inr a /\ k a = inr b.
Proof. destruct m as [e|a]; simpl; [discriminate | eauto]. Qed.

Lemma not_none_inr {A : Type} (e : exn) (o : option A) (a : A) :
  not_none e o = inr a -> o = Some a.
Proof. destruct o; simpl; [intros [= ->]; reflexivity | discriminate]. Qed.

Lemma bindM_inr `{Primitives} {A B : Type} (m : M A) (k : A -> M B) g b g' :
  bindM m k g = inr (b, g') ->
  exists a g1, m g = inr (a, g1) /\ k a g1 = inr (b, g').
Proof.
  unfold bindM. destruct (m g) as [e|[a g1]]; [discriminate | eauto].
Qed.

Lemma lift_inr `{Primitives} {A : Type} (r : result A) g a g' :
  lift r g = inr (a, g') -> r = inr a /\ g' = g.
Proof.
  unfold lift. destruct r as [e|a0]; [discriminate |].
  intros [= -> ->]. auto.
Qed.

Lemma retM_inr `{Primitives} {A : Type} (a a' : A) g g' :
  retM a g = inr (a', g') -> a' = a /\ g' = g.
Proof. intros [= -> ->]. auto. Qed.

(** Taking a successful run apart, one step at a time. *)
Ltac inv_step :=
  match goal with
  | H : bind _ _ = inr _ |- _ =>
      apply bind_inr in H; destruct H as (? & ? & H)
  | H : bindM _ _ _ = inr (_, _) |- _ =>
      apply bindM_inr in H; destruct H as (? & ? & ? & H)
  | H : lift _ _ = inr (_, _) |- _ =>
      apply lift_inr in H; destruct H as [H ?]; subst
  | H : retM _ _ = inr (_, _) |- _ =>
      apply retM_inr in H; destruct H as [? ?]; subst
  | H : not_none _ _ = inr _ |- _ => apply not_none_inr in H
  | H : ret _ = inr _ |- _ => injection H as H; subst
  | H : raise _ = inr _ |- _ => discriminate H
  | H : raiseM _ _ = inr _ |- _ => discriminate H
  | H : inl _ = inr _ |- _ => discriminate H
  end.

Ltac inv_run := repeat inv_step.

(** ** Comparisons *)

Lemma Qcleb_true (x y : Qc) : Qcleb x y = true <-> (x <= y)%Qc.
Proof. unfold Qcleb. apply Qle_bool_iff. Qed.

Lemma Qcleb_false (x y : Qc) : Qcleb x y = false <-> (y < x)%Qc.
Proof.
  split.
  - intros Hb. apply Qcnot_le_lt. intros Hle. apply Qcleb_true in Hle. congruence.
  - intros Hlt. destruct (Qcleb x y) eqn:Hb; [| reflexivity].
    apply Qcleb_true in Hb. exfalso. eapply Qclt_not_le; eassumption.
Qed.

(** ** The torus *)

Lemma fmod1_range (x : Qc) : (0 <= fmod1 x)%Qc /\ (fmod1 x < 1)%Qc.
Proof.
  unfold fmod1.
  pose proof (Qfloor_le x) as Hlo.
  pose proof (Qlt_floor x) as Hhi.
  set (f := Qfloor x) in *.
  assert (Hf : (Q2Qc (inject_Z f) <= x)%Qc).
  { unfold Qcle. simpl. rewrite Qred_correct. exact Hlo. }
  assert (Hg : (x < Q2Qc (inject_Z f) + 1)%Qc).
  { unfold Qclt. simpl. rewrite Qred_correct, Qred_correct.
    rewrite inject_Z_plus in Hhi. exact Hhi. }
  split.
  - apply Qcle_minus_iff in Hf. exact Hf.
  - apply Qclt_minus_iff. apply Qclt_minus_iff in Hg.
    replace (1 + - (x - Q2Qc (inject_Z f)))%Qc
      with (Q2Qc (inject_Z f) + 1 + - x)%Qc by ring.
    exact Hg.
Qed.


(** ** Rounding *)

















(** ** Tensors: the laws of the elementwise operations *)

Class TensorLaws (A : Type) `{Tensor A} : Prop := {
  tmap_ext : forall (f g : Qc -> Qc) (a : A),
    (forall x, f x = g x) -> tmap f a = tmap g a;
  tmap_tmap : forall (f g : Qc -> Qc) (a : A),
    tmap g (tmap f a) = tmap (fun x => g (f x)) a;
  tmap_id : forall a : A, tmap (fun x => x) a = a;
  tmap2_shape : forall (f : Qc -> Qc -> Qc) (a b c : A),
    tmap2 f a b = inr c -> same_shape a b /\ same_shape c a;
  tmap2_total : forall (f : Qc -> Qc -> Qc) (a b : A),
    same_shape a b -> exists c, tmap2 f a b = inr c;
  tmap2_tmap : forall (f : Qc -> Qc -> Qc) (g h : Qc -> Qc) (a : A),
    tmap2 f (tmap g a) (tmap h a) = inr (tmap (fun x => f (g x) (h x)) a);
  tForall_tmap : forall (P : Qc -> Prop) (f : Qc -> Qc) (a : A),
    (forall x, P (f x)) -> tForall P (tmap f a);
  tForall_zero : forall a : A, tForall (fun x => x = 0%Qc) a -> a = zeros_like a;
  tdraw_shape : forall (S : Type) (draw : S -> Qc * S) (a : A) (s : S),
    same_shape (tdraw draw a s).1 a
}.

#[export] Instance scalar_laws : TensorLaws Qc.
Proof.
  split; unfold same_shape, zeros_like; simpl; intros; eauto.
Qed.

Lemma zip_with_checked_cons {A B C : Type} (f : A -> B -> result C) a l1 b l2 l3 :
  zip_with_checked f (a :: l1) (b :: l2) = inr l3 ->
  exists c cs, f a b = inr c /\ zip_with_checked f l1 l2 = inr cs /\ l3 = c :: cs.
Proof. simpl. intros H. inv_run. eauto. Qed.

Lemma zip_with_checked_length {A B C : Type} (f : A -> B -> result C) l1 l2 l3 :
  zip_with_checked f l1 l2 = inr l3 -> length l1 = length l2 /\ length l3 = length l1.
Proof.
  revert l2 l3. induction l1 as [|a l1 IH]; intros [|b l2] l3 H; try discriminate.
  - injection H as <-. auto.
  - apply zip_with_checked_cons in H as (c & cs & _ & H & ->).
    apply IH in H as [H1 H2]. simpl. rewrite H1, H2. auto.
Qed.

Lemma draw_list_cons {S A : Type} (draw : A -> S -> A * S) a l s :
  draw_list draw (a :: l) s =
  ((draw a s).1 :: (draw_list draw l (draw a s).2).1,
   (draw_list draw l (draw a s).2).2).
Proof.
  simpl. destruct (draw a s) as [a' s1]. simpl.
  destruct (draw_list draw l s1) as [l' s2]. reflexivity.
Qed.

#[export] Instance list_laws {A : Type} `{TensorLaws A} : TensorLaws (list A).
Proof.
  split; unfold same_shape, zeros_like; simpl.
  - intros f g a Hfg. induction a as [|x a IH]; simpl; [reflexivity |].
    rewrite IH. f_equal. apply tmap_ext. exact Hfg.
  - intros f g a. induction a as [|x a IH]; simpl; [reflexivity |].
    rewrite IH. f_equal. apply tmap_tmap.
  - intros a. induction a as [|x a IH]; simpl; [reflexivity |].
    rewrite IH. f_equal. apply tmap_id.
  - intros f a. induction a as [|x a IH]; intros [|y b] c Hc; try discriminate.
    + injection Hc as <-. auto.
    + apply zip_with_checked_cons in Hc as (z & zs & Hz & Hzs & ->).
      apply tmap2_shape in Hz as [Hz1 Hz2]. apply IH in Hzs as [IH1 IH2].
      unfold same_shape, zeros_like in Hz1, Hz2. simpl.
      split; congruence.
  - intros f a. induction a as [|x a IH]; intros [|y b] Hs; try discriminate.
    + exists []. reflexivity.
    + simpl in Hs. injection Hs as Hx Hs.
      destruct (tmap2_total f x y Hx) as [z Hz].
      destruct (IH b Hs) as [zs Hzs].
      exists (z :: zs). simpl. rewrite Hz. simpl. rewrite Hzs. reflexivity.
  - intros f g h a. induction a as [|x a IH]; simpl; [reflexivity |].
    rewrite tmap2_tmap. simpl. rewrite IH. reflexivity.
  - intros P f a HP. induction a as [|x a IH]; simpl; constructor; auto.
    apply tForall_tmap. exact HP.
  - intros a Ha. induction Ha as [|x a Hx Ha IH]; simpl; [reflexivity |].
    rewrite <- IH. f_equal. apply tForall_zero. exact Hx.
  - intros S draw a. induction a as [|x a IH]; intros s; [reflexivity |].
    rewrite draw_list_cons. simpl. rewrite IH. f_equal. apply tdraw_shape.
Qed.

Section TensorFacts.

Context {A : Type} `{TensorLaws A}.

Lemma same_shape_refl (a : A) : same_shape a a.
Proof. reflexivity. Qed.

Lemma same_shape_sym (a b : A) : same_shape a b -> same_shape b a.
Proof. unfold same_shape. congruence. Qed.

Lemma same_shape_trans (a b c : A) :
  same_shape a b -> same_shape b c -> same_shape a c.
Proof. unfold same_shape. congruence. Qed.

Lemma same_shape_tmap (f : Qc -> Qc) (a : A) : same_shape (tmap f a) a.
Proof.
  unfold same_shape, zeros_like. rewrite tmap_tmap. reflexivity.
Qed.

Lemma zeros_like_shape (a b : A) : same_shape a b -> zeros_like a = zeros_like b.
Proof. auto. Qed.

(** Subtracting a tensor of zeros of the right shape changes nothing. *)
Lemma tsub_zeros (a z : A) :
  same_shape z a -> tForall (fun x => x = 0%Qc) z -> tsub a z = inr a.
Proof.
  intros Hs Hz. apply tForall_zero in Hz. rewrite Hz, Hs.
  unfold tsub, zeros_like.
  rewrite <- (tmap_id a) at 1. rewrite tmap2_tmap.
  rewrite <- (tmap_id a) at 2. f_equal. apply tmap_ext. intros x. ring.
Qed.

Lemma tForall_zeros_like (a : A) : tForall (fun x => x = 0%Qc) (zeros_like a).
Proof. apply tForall_tmap. reflexivity. Qed.

Lemma tscale_zeros (c : Qc) (z : A) :
  tForall (fun x => x = 0%Qc) z -> tForall (fun x => x = 0%Qc) (tscale c z).
Proof.
  intros Hz. apply tForall_zero in Hz. rewrite Hz.
  unfold tscale, zeros_like. rewrite tmap_tmap.
  apply tForall_tmap. intros _. ring.
Qed.


Lemma wrap_in_unit (a : A) : tForall in_unit (wrap a).
Proof. apply tForall_tmap. exact fmod1_range. Qed.

Lemma wrap_in_closed_unit (a : A) : tForall in_closed_unit (wrap a).
Proof.
  apply tForall_tmap. intros u. destruct (fmod1_range u) as [Hlo Hhi].
  split; [exact Hlo | apply Qclt_le_weak; exact Hhi].
Qed.

End TensorFacts.

Lemma bindM_lift `{Primitives} {A B : Type} (r : result A) (k : A -> M B) g :
  bindM (lift r) k g = match r with inl e => inl e | inr a => k a g end.
Proof. destruct r; reflexivity. Qed.

Lemma lift_bind `{Primitives} {A B : Type} (r : result A) (k : A -> result B) g :
  lift (bind r k) g = match r with inl e => inl e | inr a => lift (k a) g end.
Proof. destruct r; reflexivity. Qed.

Lemma bindM_retM `{Primitives} {A B : Type} (a : A) (k : A -> M B) g :
  bindM (retM a) k g = k a g.
Proof. reflexivity. Qed.

(** ** The backbone's dispatch *)

(** C9: with classifier-free guidance off ([cfg] false), the default path
    of [CSPNet.forward] (neither [unconditional] nor [conditional]
    requested) and [CSPNet.unconditional] compute the same five outputs
    from the same inputs and weights, raise the same exception when they
    raise, and the default path draws no random number. *)
Theorem forward_default_is_unconditional `{Primitives} (self : CSPNet.t)
    (time_emb : mat) (atom_types : atom_input) (frac_coords : mat)
    (lattices : tensor3) (num_atoms node2graph : list nat) (y : option mat) (g : rng) :
  CSPNet.cfg self = false ->
  CSPNet.forward self time_emb atom_types frac_coords lattices num_atoms node2graph y
                 false false g
  = lift (CSPNet.unconditional self time_emb atom_types frac_coords lattices
                               num_atoms node2graph y) g.
Proof.
  intros Hcfg. unfold CSPNet.forward, CSPNet.unconditional. rewrite Hcfg.
  repeat first
    [ rewrite bindM_retM
    | rewrite bindM_lift, lift_bind;
      match goal with
      | |- match ?r with _ => _ end = match ?r with _ => _ end =>
          destruct r as [?|?]; [reflexivity |]
      end
    | match goal with
      | |- context [let '(_, _) := ?p in _] => destruct p
      end ].
  reflexivity.
Qed.

(** ** Construction of the backbone *)








Section LevelCheck.

Context `{Primitives}.







End LevelCheck.




(** ** The fully-connected edge builder *)

Lemma fc_edges_2_3 :
  (dense_to_sparse (block_diag ((fun n => ones n n) <$> [2; 3]))).1
  = ([0; 0; 1; 1; 2; 2; 2; 3; 3; 3; 4; 4; 4],
     [0; 1; 0; 1; 2; 3; 4; 2; 3; 4; 2; 3; 4]).
Proof. vm_compute. reflexivity. Qed.

(** C1 (as the code has it): for [num_atoms = [2, 3]] the fully-connected
    edge builder returns 2*2 + 3*3 = 13 directed edges, one for every
    ordered pair of atoms of one structure, the five self-loops [(i, i)]
    included; the edge-to-structure map is [0] four times and [1] nine
    times; and the edge from [i] to [j] carries [(x_j - x_i) mod 1]. *)
Theorem gen_edges_fc_2_3 `{Primitives} (self : CSPNet.t) (frac_coords : mat)
    (lattices : tensor3) (node2graph : list nat) :
  CSPNet.edge_style self = "fc" ->
  length frac_coords = 5 ->
  Forall (fun r : vec => length r = 3) frac_coords ->
  exists frac_diff,
    CSPNet.gen_edges self [2; 3] frac_coords lattices node2graph
    = inr (Some (([0; 0; 1; 1; 2; 2; 2; 3; 3; 3; 4; 4; 4],
                  [0; 1; 0; 1; 2; 3; 4; 2; 3; 4; 2; 3; 4]), frac_diff))
    /\ index_select (owners [2; 3]) [0; 0; 1; 1; 2; 2; 2; 3; 3; 3; 4; 4; 4]
       = inr [0; 0; 0; 0; 1; 1; 1; 1; 1; 1; 1; 1; 1]
    /\ length frac_diff = 13
    /\ forall e i j xi xj,
         [0; 0; 1; 1; 2; 2; 2; 3; 3; 3; 4; 4; 4] !! e = Some i ->
         [0; 1; 0; 1; 2; 3; 4; 2; 3; 4; 2; 3; 4] !! e = Some j ->
         frac_coords !! i = Some xi ->
         frac_coords !! j = Some xj ->
         frac_diff !! e = Some (zip_with (fun a b => fmod1 (a - b)%Qc) xj xi).
Proof.
  intros Hfc Hlen Hrows. unfold CSPNet.gen_edges.
  rewrite decide_True by exact Hfc. rewrite fc_edges_2_3.
  destruct frac_coords as [|x0 [|x1 [|x2 [|x3 [|x4 [|]]]]]]; try discriminate.
  repeat match goal with
         | H : Forall _ (_ :: _) |- _ => inversion H; subst; clear H
         end.
  repeat match goal with
         | H : length ?r = 3 |- _ =>
             destruct r as [|? [|? [|? [|]]]]; try discriminate; clear H
         end.
  eexists. split; [reflexivity |]. split; [reflexivity |]. split; [reflexivity |].
  intros e i j xi xj He1 He2 Hi Hj.
  do 13 (destruct e as [|e];
         [cbn in He1, He2; simplify_eq; cbn in *; simplify_eq; reflexivity |]).
  discriminate.
Qed.


(** C1 as stated fails: there are not 8 edges, there are self-loops, and
    the edge-to-structure map is not [[0,0,1,1,1,1,1,1]]. *)
Lemma gen_edges_fc_2_3_counterexample :
  ~ exists edges frac_diff,
      CSPNet.gen_edges (H := Toy.prims) Toy.net [2; 3] Toy.coords5
                       [Toy.eye; Toy.eye] [0; 0; 1; 1; 1]
      = inr (Some (edges, frac_diff))
      /\ length edges.1 = 8
      /\ Forall2 (fun i j => i <> j) edges.1 edges.2
      /\ index_select [0; 0; 1; 1; 1] edges.1 = inr [0; 0; 1; 1; 1; 1; 1; 1].
Proof.
  intros (edges & frac_diff & Hrun & Hlen & _).
  vm_compute in Hrun. injection Hrun as <- _. discriminate Hlen.
Qed.

Lemma gen_edges_fc_2_3_witness :
  exists frac_diff,
    CSPNet.gen_edges (H := Toy.prims) Toy.net [2; 3] Toy.coords5
                     [Toy.eye; Toy.eye] [0; 0; 1; 1; 1]
    = inr (Some (([0; 0; 1; 1; 2; 2; 2; 3; 3; 3; 4; 4; 4],
                  [0; 1; 0; 1; 2; 3; 4; 2; 3; 4; 2; 3; 4]), frac_diff))
    /\ length frac_diff = 13.
Proof.
  destruct (gen_edges_fc_2_3 (H := Toy.prims) Toy.net Toy.coords5
              [Toy.eye; Toy.eye] [0; 0; 1; 1; 1]) as (d & Hd & _ & Hl & _).
  - reflexivity.
  - reflexivity.
  - repeat constructor.
  - exists d. split; assumption.
Defined.

(** ** Mean aggregation *)

Lemma rows_at_cons {A : Type} (i : nat) (index : list nat) (x : A) (src : list A) a :
  rows_at (i :: index) (x :: src) a
  = if decide (i = a) then x :: rows_at index src a else rows_at index src a.
Proof. unfold rows_at. simpl. case_decide; reflexivity. Qed.

Lemma scatter_add_fold {A : Type} `{Tensor A} (add : A -> A -> A) (P : A -> Prop) :
  (forall a b, P a -> P b -> tadd a b = inr (add a b) /\ P (add a b)) ->
  forall (index : list nat) (src out : list A),
    length index = length src ->
    Forall (fun i => i < length out) index ->
    Forall P src ->
    Forall P out ->
    exists out',
      scatter_add out index src = inr out'
      /\ length out' = length out
      /\ Forall P out'
      /\ forall a acc, out !! a = Some acc ->
                       out' !! a = Some (foldl add acc (rows_at index src a)).
Proof.
  intros Hadd index.
  induction index as [|i index IH]; intros [|x src] out Hlen Hidx Hsrc Hout;
    try discriminate.
  - exists out. simpl. auto.
  - inversion Hidx as [|? ? Hi Hidx']; subst. inversion Hsrc as [|? ? Hx Hsrc']; subst.
    destruct (lookup_lt_is_Some_2 out i Hi) as [acc Hacc].
    assert (Pacc : P acc).
    { rewrite Forall_lookup in Hout. eapply Hout. exact Hacc. }
    destruct (Hadd acc x Pacc Hx) as [Hsum Psum].
    destruct (IH src (<[i := add acc x]> out)) as (out' & Hrun & Hl & HP & Hspec).
    + simpl in Hlen. lia.
    + rewrite length_insert. exact Hidx'.
    + exact Hsrc'.
    + apply Forall_insert; assumption.
    + exists out'. simpl. rewrite Hacc. simpl. rewrite Hsum. simpl.
      split; [exact Hrun |]. split; [rewrite Hl; apply length_insert |].
      split; [exact HP |].
      intros a acc0 Ha. rewrite rows_at_cons. case_decide as Hia.
      * subst a. simpl. apply Hspec.
        rewrite list_lookup_insert_eq by exact Hi. congruence.
      * apply Hspec. rewrite list_lookup_insert_ne by exact Hia. exact Ha.
Qed.

Lemma vec_tadd (a b : vec) :
  length a = length b -> tadd a b = inr (zip_with Qcplus a b).
Proof.
  revert b. induction a as [|x a IH]; intros [|y b] Hl; try discriminate.
  - reflexivity.
  - unfold tadd in *. simpl in *. rewrite IH by lia. reflexivity.
Qed.

Lemma rows_at_ones {A : Type} (index : list nat) (src : list A) a :
  length index = length src ->
  rows_at index (replicate (length src) 1%Qc) a
  = replicate (length (rows_at index src a)) 1%Qc.
Proof.
  revert src. induction index as [|i index IH]; intros [|x src] Hl; try discriminate.
  - reflexivity.
  - simpl replicate. rewrite !rows_at_cons. case_decide; simpl; rewrite IH by (simpl in Hl; lia);
      reflexivity.
Qed.

Lemma Z2Qc_succ (n : nat) : (Z2Qc (Z.of_nat n) + 1)%Qc = Z2Qc (Z.of_nat (S n)).
Proof.
  apply Qc_is_canon. unfold Z2Qc. simpl.
  rewrite !Qred_correct. rewrite Nat2Z.inj_succ. unfold Z.succ.
  rewrite inject_Z_plus. reflexivity.
Qed.

Lemma count_ones (k : nat) (c : Qc) :
  foldl Qcplus c (replicate k 1%Qc) = (c + Z2Qc (Z.of_nat k))%Qc.
Proof.
  revert c. induction k as [|k IH]; intros c; simpl replicate; simpl foldl.
  - change (Z2Qc (Z.of_nat 0)) with 0%Qc. ring.
  - rewrite IH. rewrite <- Z2Qc_succ. ring.
Qed.

Lemma Z2Qc_le (m n : Z) : (m <= n)%Z -> Qcleb (Z2Qc m) (Z2Qc n) = true.
Proof.
  intros Hmn. unfold Qcleb, Z2Qc. apply Qle_bool_iff. simpl.
  rewrite !Qred_correct. rewrite <- Zle_Qle. exact Hmn.
Qed.

Lemma clamp_count (k : nat) :
  Qcmax 1 (0 + Z2Qc (Z.of_nat k)) = Z2Qc (Z.of_nat (Nat.max 1 k)).
Proof.
  replace (0 + Z2Qc (Z.of_nat k))%Qc with (Z2Qc (Z.of_nat k)) by ring.
  unfold Qcmax. destruct k as [|k].
  - reflexivity.
  - change 1%Qc with (Z2Qc 1). rewrite Z2Qc_le by lia.
    replace (Nat.max 1 (S k)) with (S k) by lia. reflexivity.
Qed.

(** The rows of [scatter(src, index, dim=0, reduce='mean', dim_size=n)]. *)
Lemma scatter_mean_rows (w : nat) (src : mat) (index : list nat) (n : nat) :
  length index = length src ->
  Forall (fun i => i < n) index ->
  Forall (fun r : vec => length r = w) src ->
  exists agg,
    scatter_mean w src index (Some n) = inr agg
    /\ length agg = n
    /\ forall a, a < n -> agg !! a = Some (mean_rows w (rows_at index src a)).
Proof.
  intros Hlen Hidx Hsrc. unfold scatter_mean.
  destruct (scatter_add_fold (A := Qc) Qcplus (fun _ => True)) with
    (index := index) (src := replicate (length src) 1%Qc) (out := replicate n 0%Qc)
    as (count & Hcount & Hcl & _ & Hcspec).
  { intros a b _ _. split; [reflexivity | exact I]. }
  { rewrite length_replicate. exact Hlen. }
  { rewrite length_replicate. exact Hidx. }
  { apply Forall_forall. auto. }
  { apply Forall_forall. auto. }
  assert (Hw : row_width w src = w).
  { destruct src as [|r src]; [reflexivity |]. inversion Hsrc; subst. reflexivity. }
  rewrite Hw.
  destruct (scatter_add_fold (A := vec) (zip_with Qcplus)
              (fun r : vec => length r = w)) with
    (index := index) (src := src) (out := replicate n (replicate w 0%Qc))
    as (out & Hout & Hol & _ & Hospec).
  { intros a b Ha Hb. split; [apply vec_tadd; congruence |].
    rewrite length_zip_with. lia. }
  { exact Hlen. }
  { rewrite length_replicate. exact Hidx. }
  { exact Hsrc. }
  { apply Forall_replicate. apply length_replicate. }
  rewrite Hcount. simpl. rewrite Hout. simpl.
  eexists. split; [reflexivity |].
  rewrite length_replicate in Hcl. rewrite length_replicate in Hol.
  split.
  - rewrite length_zip_with, length_fmap. lia.
  - intros a Ha. rewrite lookup_zip_with.
    rewrite (Hospec a (replicate w 0%Qc)) by (apply lookup_replicate_2; exact Ha).
    simpl. rewrite list_lookup_fmap.
    rewrite (Hcspec a 0%Qc) by (apply lookup_replicate_2; exact Ha).
    simpl. rewrite rows_at_ones by exact Hlen. rewrite count_ones, clamp_count.
    reflexivity.
Qed.

Lemma mean_rows_nil (w : nat) : mean_rows w [] = replicate w 0%Qc.
Proof.
  unfold mean_rows. simpl. rewrite fmap_replicate. f_equal.
Qed.

(** C7 (as the code has it): in the node update of a message-passing
    layer the edge features are mean-aggregated per atom, grouped by the
    first endpoint [edge_index[0]] of the edges, the atom whose features
    come first in the edge input and whose structure is the edge's: the
    source atom.  Row [a] of the aggregate is the mean of the features of
    the edges that start at [a].  For an atom at which no edge starts the
    row is the zero vector, and the aggregation returns all the same.  The
    aggregate is then concatenated to the atom features and passed through
    the node MLP. *)
Theorem node_model_mean_aggregation `{Primitives} (self : CSPLayer.t)
    (node_features edge_features : mat) (edges : edge_index) :
  length edges.1 = length edge_features ->
  Forall (fun i => i < length node_features) edges.1 ->
  Forall (fun r : vec => length r = CSPLayer.hidden_dim self) edge_features ->
  exists agg,
    scatter_mean (CSPLayer.hidden_dim self) edge_features edges.1
                 (Some (length node_features)) = inr agg
    /\ length agg = length node_features
    /\ (forall a, a < length node_features ->
          agg !! a = Some (mean_rows (CSPLayer.hidden_dim self)
                                     (rows_at edges.1 edge_features a)))
    /\ (forall a, a < length node_features ->
          rows_at edges.1 edge_features a = [] ->
          agg !! a = Some (replicate (CSPLayer.hidden_dim self) 0%Qc))
    /\ CSPLayer.node_model self node_features edge_features edges
       = (x <- cat1 node_features agg ;; call_sequential (CSPLayer.node_mlp self) x).
Proof.
  intros Hlen Hidx Hrows.
  destruct (scatter_mean_rows (CSPLayer.hidden_dim self) edge_features edges.1
              (length node_features) Hlen Hidx Hrows) as (agg & Hrun & Hl & Hspec).
  exists agg. split; [exact Hrun |]. split; [exact Hl |]. split; [exact Hspec |]. split.
  - intros a Ha Hnone. rewrite (Hspec a Ha), Hnone, mean_rows_nil. reflexivity.
  - unfold CSPLayer.node_model. rewrite Hrun. reflexivity.
Qed.

Lemma node_model_mean_aggregation_witness :
  exists agg,
    scatter_mean 2 [[1%Qc; Toy.half]; [0%Qc; Toy.half]] [0; 0] (Some 3) = inr agg
    /\ agg !! 0 = Some (mean_rows 2 [[1%Qc; Toy.half]; [0%Qc; Toy.half]])
    /\ agg !! 1 = Some [0%Qc; 0%Qc]
    /\ agg !! 2 = Some [0%Qc; 0%Qc].
Proof.
  destruct (node_model_mean_aggregation (H := Toy.prims) Toy.layer
              [[0%Qc; 0%Qc]; [1%Qc; 1%Qc]; [Toy.half; Toy.half]]
              [[1%Qc; Toy.half]; [0%Qc; Toy.half]] ([0; 0], [1; 2]))
    as (agg & Hrun & _ & Hmean & Hzero & _).
  - reflexivity.
  - repeat constructor.
  - repeat constructor.
  - exists agg. split; [exact Hrun |]. split; [| split].
    + apply (Hmean 0). simpl. lia.
    + apply (Hzero 1); [simpl; lia | reflexivity].
    + apply (Hzero 2); [simpl; lia | reflexivity].
Defined.

(** C7 as stated fails: the aggregate is not grouped by the destination
    atom [edge_index[1]] of the edges.  On the two edges from atom 0 to
    atom 1 and from atom 0 to atom 2, the aggregate of the source atom 0 is
    the mean of the two edge features and the destination atoms 1 and 2
    get the zero row, where grouping by destination would give atom 1 the
    feature of the first edge. *)
Lemma node_model_mean_aggregation_counterexample :
  let edge_features := [[1%Qc; Toy.half]; [0%Qc; Toy.half]] in
  let edges : list nat * list nat := ([0; 0], [1; 2]) in
  exists agg,
    scatter_mean 2 edge_features edges.1 (Some 3) = inr agg
    /\ CSPLayer.node_model (H := Toy.prims) Toy.layer
         [[0%Qc; 0%Qc]; [1%Qc; 1%Qc]; [Toy.half; Toy.half]] edge_features edges
       = (x <- cat1 [[0%Qc; 0%Qc]; [1%Qc; 1%Qc]; [Toy.half; Toy.half]] agg ;;
          call_sequential (H := Toy.prims) (CSPLayer.node_mlp Toy.layer) x)
    /\ agg !! 0 = Some (mean_rows 2 edge_features)
    /\ agg !! 1 = Some [0%Qc; 0%Qc]
    /\ rows_at edges.2 edge_features 1 = [[1%Qc; Toy.half]]
    /\ ~ (forall a, a < 3 ->
            agg !! a = Some (mean_rows 2 (rows_at edges.2 edge_features a))).
Proof.
  cbv zeta.
  destruct (scatter_mean_rows 2 [[1%Qc; Toy.half]; [0%Qc; Toy.half]] [0; 0] 3)
    as (agg & Hrun & _ & Hspec).
  - reflexivity.
  - repeat constructor.
  - repeat constructor.
  - exists agg. split; [exact Hrun |].
    split.
    { unfold CSPLayer.node_model.
      change (CSPLayer.hidden_dim Toy.layer) with 2.
      cbn [fst length]. rewrite Hrun. reflexivity. }
    split; [exact (Hspec 0 ltac:(lia)) |].
    assert (H1 : agg !! 1 = Some [0%Qc; 0%Qc]) by exact (Hspec 1 ltac:(lia)).
    split; [exact H1 |]. split; [reflexivity |].
    intros Hall. specialize (Hall 1 ltac:(lia)). rewrite H1 in Hall.
    vm_compute in Hall. discriminate Hall.
Qed.

(** ** Property inference *)

Lemma draw_list_length {S A : Type} (draw : A -> S -> A * S) (l : list A) (s : S) :
  length (draw_list draw l s).1 = length l.
Proof.
  revert s. induction l as [|a l IH]; intros s; [reflexivity |].
  rewrite draw_list_cons. simpl. rewrite IH. reflexivity.
Qed.

Lemma uniform_sample_t_length `{Primitives} (self : BetaScheduler.t) (n : nat) g :
  exists times g', BetaScheduler.uniform_sample_t self n g = inr (times, g')
                   /\ length times = n.
Proof.
  unfold BetaScheduler.uniform_sample_t, ret.
  match goal with |- context [draw_list ?d ?l ?s] =>
    pose proof (draw_list_length d l s) as Hl; destruct (draw_list d l s) as [times g']
  end.
  exists times, g'. split; [reflexivity |].
  simpl in Hl. rewrite length_replicate in Hl. exact Hl.
Qed.

(** The zeroed time embedding depends on the number of timesteps only. *)
Lemma zeroed_time_embedding `{Primitives} (self : SinusoidalTimeEmbeddings.t)
    (times : list Z) :
  let half_dim := (SinusoidalTimeEmbeddings.dim self / 2)%nat in
  match SinusoidalTimeEmbeddings.forward self times with
  | inl e => e = ZeroDivisionError /\ (Z.of_nat half_dim - 1 = 0)%Z
  | inr emb =>
      (Z.of_nat half_dim - 1 <> 0)%Z
      /\ zeros_like emb = replicate (length times) (replicate (half_dim + half_dim) 0%Qc)
  end.
Proof.
  intros half_dim. unfold SinusoidalTimeEmbeddings.forward. fold half_dim.
  case_decide as Hz; simpl; [auto |]. split; [exact Hz |].
  unfold zeros_like. simpl. rewrite !map_map.
  induction times as [|ti times IH]; simpl; [reflexivity |].
  rewrite IH. f_equal.
  rewrite map_app, !map_map. rewrite replicate_add. f_equal.
  - change (map ?f ?l) with (f <$> l).
    erewrite const_fmap by (intros; reflexivity). rewrite length_seq. reflexivity.
  - change (map ?f ?l) with (f <$> l).
    erewrite const_fmap by (intros; reflexivity). rewrite length_seq. reflexivity.
Qed.

Lemma infer_value `{Primitives} (self : CSPProperty.t) (batch : Batch.t) (g : rng) :
  value (CSPProperty.infer self batch g) = infer_clean self batch.
Proof.
  unfold CSPProperty.infer, infer_clean.
  destruct (uniform_sample_t_length (CSPProperty.beta_scheduler self)
              (Batch.num_graphs batch) g) as (t1 & h1 & Hd1 & Hl1).
  unfold bindM at 1. rewrite Hd1. rewrite !bindM_lift.
  pose proof (zeroed_time_embedding (CSPProperty.time_embedding self) t1) as Z1.
  destruct (SinusoidalTimeEmbeddings.forward (CSPProperty.time_embedding self) t1)
    as [e1|emb1]; cbv beta iota zeta in Z1.
  - destruct Z1 as [-> Z1]. rewrite decide_True by lia. reflexivity.
  - destruct Z1 as [Z1 Z2]. rewrite decide_False by lia.
    rewrite Z2, Hl1. replace (2 * _) with
      (SinusoidalTimeEmbeddings.dim (CSPProperty.time_embedding self) / 2
       + SinusoidalTimeEmbeddings.dim (CSPProperty.time_embedding self) / 2) by lia.
    rewrite !bindM_lift.
    destruct (one_hot _ _) as [e|onehot]; [reflexivity |].
    rewrite !bindM_lift. cbn [bind].
    destruct (Decoder.call _ _ _ _ _ _ _) as [e|[[[[px pl] pt] pg] pn]]; [reflexivity |].
    destruct (Decoder.pred_graph_level _); [reflexivity |].
    destruct (Decoder.pred_node_level _); reflexivity.
Qed.

(** C10: the prediction of [infer] does not depend on the timesteps it
    draws.  Whatever the state of the random generator, [infer] returns
    what [infer_clean] computes from the batch alone: the prediction of the
    enabled head of the backbone called on the zeroed time embedding and
    on the clean one-hot types, coordinates and lattice, paired with the
    target (or the exception raised on the way).  So two runs on one
    batch, from any two states of the generator, return the same
    (prediction, target) pair, or raise the same exception. *)
Theorem infer_independent_of_timestep `{Primitives} (self : CSPProperty.t)
    (batch : Batch.t) (g1 g2 : rng) :
  value (CSPProperty.infer self batch g1) = infer_clean self batch
  /\ value (CSPProperty.infer self batch g1) = value (CSPProperty.infer self batch g2).
Proof.
  split; [apply infer_value |]. rewrite !infer_value. reflexivity.
Qed.

(** ** Entries of the elementwise operations *)

Lemma zip_with_checked_lookup {A B C : Type} (f : A -> B -> result C) l1 l2 l3 i a b :
  zip_with_checked f l1 l2 = inr l3 ->
  l1 !! i = Some a -> l2 !! i = Some b ->
  exists c, l3 !! i = Some c /\ f a b = inr c.
Proof.
  revert l2 l3 i. induction l1 as [|x l1 IH]; intros [|y l2] l3 i Hrun Ha Hb;
    try discriminate.
  apply zip_with_checked_cons in Hrun as (c & cs & Hc & Hcs & ->).
  destruct i as [|i]; simpl in *.
  - injection Ha as ->. injection Hb as ->. eauto.
  - eapply IH; eassumption.
Qed.

Lemma entry2_tmap2 (f : Qc -> Qc -> Qc) (x y z : mat) a k u v :
  tmap2 f x y = inr z ->
  entry2 x a k = Some u -> entry2 y a k = Some v ->
  entry2 z a k = Some (f u v).
Proof.
  unfold entry2. intros Hrun Hu Hv.
  destruct (x !! a) as [rx|] eqn:Hrx; [|discriminate].
  destruct (y !! a) as [ry|] eqn:Hry; [|discriminate].
  simpl in Hu, Hv.
  destruct (zip_with_checked_lookup _ _ _ _ _ _ _ Hrun Hrx Hry) as (rz & -> & Hrz).
  simpl. simpl in Hrz.
  destruct (zip_with_checked_lookup _ _ _ _ _ _ _ Hrz Hu Hv) as (w & -> & Hw).
  simpl in Hw. injection Hw as <-. reflexivity.
Qed.

Lemma entry3_tmap2 (f : Qc -> Qc -> Qc) (x y z : tensor3) b i j u v :
  tmap2 f x y = inr z ->
  entry3 x b i j = Some u -> entry3 y b i j = Some v ->
  entry3 z b i j = Some (f u v).
Proof.
  unfold entry3. intros Hrun Hu Hv.
  destruct (x !! b) as [mx|] eqn:Hmx; [|discriminate].
  destruct (y !! b) as [my|] eqn:Hmy; [|discriminate].
  simpl in Hu, Hv.
  destruct (zip_with_checked_lookup _ _ _ _ _ _ _ Hrun Hmx Hmy) as (mz & -> & Hmz).
  simpl. eapply entry2_tmap2; eassumption.
Qed.

Lemma entry2_tmap (f : Qc -> Qc) (m : mat) a k :
  entry2 (tmap f m) a k = f <$> entry2 m a k.
Proof.
  unfold entry2. simpl. change (map ?g ?l) with (g <$> l).
  rewrite list_lookup_fmap. destruct (m !! a) as [r|]; simpl; [|reflexivity].
  change (map ?g ?l) with (g <$> l). apply list_lookup_fmap.
Qed.


Lemma entry2_tscale (c : Qc) (m : mat) a k u :
  entry2 m a k = Some u -> entry2 (tscale c m) a k = Some (c * u)%Qc.
Proof. intros Hu. unfold tscale. rewrite entry2_tmap, Hu. reflexivity. Qed.


Lemma entry2_wrap (m : mat) a k :
  entry2 (wrap m) a k = fmod1 <$> entry2 m a k.
Proof. apply entry2_tmap. Qed.

(** ** Loops *)

Lemma for_each_cons `{Primitives} {A S : Type} (a : A) (l : list A)
    (body : S -> A -> M S) s g s' g' :
  for_each (a :: l) body s g = inr (s', g') ->
  exists s1 g1, body s a g = inr (s1, g1) /\ for_each l body s1 g1 = inr (s', g').
Proof. simpl. intros Hrun. apply bindM_inr in Hrun. exact Hrun. Qed.

Lemma for_each_invariant `{Primitives} {A S : Type} (P : S -> Prop) (l : list A)
    (body : S -> A -> M S) :
  (forall s a g s' g', body s a g = inr (s', g') -> P s -> P s') ->
  forall s g s' g', for_each l body s g = inr (s', g') -> P s -> P s'.
Proof.
  intros Hbody. induction l as [|a l IH]; intros s g s' g' Hrun Hs.
  - simpl in Hrun. apply retM_inr in Hrun as [-> _]. exact Hs.
  - apply for_each_cons in Hrun as (s1 & g1 & H1 & Hrest).
    eapply IH; [exact Hrest |]. eapply Hbody; eassumption.
Qed.

Lemma range_down_succ (n : nat) (stop : Z) :
  (stop <= Z.of_nat n)%Z ->
  range_down (Z.of_nat (S n)) stop = Z.of_nat (S n) :: range_down (Z.of_nat n) stop.
Proof.
  intros Hs. unfold range_down.
  replace (Z.to_nat (Z.of_nat (S n) - stop)) with (S (Z.to_nat (Z.of_nat n - stop))) by lia.
  simpl seq. rewrite fmap_cons. f_equal.
  rewrite <- fmap_S_seq, <- list_fmap_compose.
  apply list_fmap_ext. intros _ k _. simpl. lia.
Qed.

Lemma range_down_nil (z : Z) : range_down z z = [].
Proof. unfold range_down. rewrite Z.sub_diag. reflexivity. Qed.

Lemma range_down_length (start stop : Z) :
  length (range_down start stop) = Z.to_nat (start - stop).
Proof. unfold range_down. rewrite length_fmap, length_seq. reflexivity. Qed.

Lemma range_down_lookup (start stop : Z) (i : nat) :
  i < Z.to_nat (start - stop) ->
  range_down start stop !! i = Some (start - Z.of_nat i)%Z.
Proof.
  intros Hi. unfold range_down. rewrite list_lookup_fmap.
  rewrite lookup_seq_lt by exact Hi. reflexivity.
Qed.

Lemma map_result_length {A B : Type} (f : A -> result B) l r :
  map_result f l = inr r -> length r = length l.
Proof.
  revert r. induction l as [|a l IH]; intros r Hrun; simpl in Hrun; inv_run.
  - reflexivity.
  - simpl. f_equal. apply IH. assumption.
Qed.

Lemma map_result_lookup {A B : Type} (f : A -> result B) l r i a :
  map_result f l = inr r -> l !! i = Some a ->
  exists b, r !! i = Some b /\ f a = inr b.
Proof.
  revert r i. induction l as [|x l IH]; intros r i Hrun Hi; [discriminate |].
  simpl in Hrun. inv_run.
  destruct i as [|i]; simpl in *.
  - injection Hi as ->. eauto.
  - eapply IH; eassumption.
Qed.

Lemma map_result_Forall {A B : Type} (f : A -> result B) (P : B -> Prop) l r :
  (forall a b, f a = inr b -> P b) -> map_result f l = inr r -> Forall P r.
Proof.
  intros Hf. revert r. induction l as [|x l IH]; intros r Hrun; simpl in Hrun; inv_run.
  - constructor.
  - constructor; eauto.
Qed.

Lemma stack_inr {A : Type} `{Tensor A} `{EqDecision A} (l r : list A) :
  stack l = inr r -> r = l.
Proof.
  unfold stack. destruct l as [|a l]; [discriminate |].
  case_decide; [|discriminate]. intros [= <-]. reflexivity.
Qed.

(** ** The reverse sampler: one step *)

(** Conjuncts proved from left to right, each one fixing the values the
    next ones speak of. *)
Ltac split_seq :=
  repeat (split; [first [eassumption | reflexivity] |]);
  first [eassumption | reflexivity].

Section Sampler.

Context `{Primitives}.

Import CSPProperty.

(** What a successful update of [sample] has computed. *)
Lemma sample_update_inr (batch : Batch.t) (aug : Qc) (v : locals) (snap : Snapshot.t) :
  sample_update batch aug v = inr snap ->
  exists gx gl gt pt ax bx x1 al bl l1 at1 bt1 t1,
    grad_x v = Some gx /\ grad_l v = Some gl /\ grad_t v = Some gt
    /\ pred_t v = Some pt
    /\ tsub (x_t_minus_05 v)
            (tscale (step_size v) (tscale (fsqrt (sigma_norm v)) (pred_x v))) = inr ax
    /\ tsub ax (tscale (std_x v * std_x v * aug)%Qc gx) = inr bx
    /\ tadd bx (tscale (std_x v) (rand_x v)) = inr x1
    /\ tsub (l_t_minus_05 v) (tscale (c1 v) (pred_l v)) = inr al
    /\ tsub (tscale (c0 v) al) (tscale (sigmas v * sigmas v * aug)%Qc gl) = inr bl
    /\ tadd bl (tscale (sigmas v) (rand_l v)) = inr l1
    /\ tsub (t_t_minus_05 v) (tscale (c1 v) pt) = inr at1
    /\ tsub (tscale (c0 v) at1) (tscale (sigmas v * sigmas v * aug)%Qc gt) = inr bt1
    /\ tadd bt1 (tscale (sigmas v) (rand_t v)) = inr t1
    /\ snap = Snapshot.mk (Batch.num_atoms batch) (Soft t1) (wrap x1) l1.
Proof.
  unfold sample_update. intros Hrun. inv_run.
  do 13 eexists. split_seq.
Qed.

(** What a successful update of [masked_sample] has computed. *)
Lemma masked_sample_update_inr (batch : Batch.t) (aug : Qc) (mask : option vec)
    (v : locals) (snap : Snapshot.t) :
  masked_sample_update batch aug mask v = inr snap ->
  exists m gx gt mx mt pt ax bx x1 al l1 at1 bt1 t1,
    mask = Some m /\ grad_x v = Some gx /\ grad_t v = Some gt
    /\ length m = length gx /\ length gx = length gt
    /\ unsqueeze_scale m gx = inr mx /\ unsqueeze_scale m gt = inr mt
    /\ pred_t v = Some pt
    /\ tsub (x_t_minus_05 v)
            (tscale (step_size v) (tscale (fsqrt (sigma_norm v)) (pred_x v))) = inr ax
    /\ tsub ax (tscale (std_x v * std_x v * aug)%Qc mx) = inr bx
    /\ tadd bx (tscale (std_x v) (rand_x v)) = inr x1
    /\ tsub (l_t_minus_05 v) (tscale (c1 v) (pred_l v)) = inr al
    /\ tadd (tscale (c0 v) al) (tscale (sigmas v) (rand_l v)) = inr l1
    /\ tsub (t_t_minus_05 v) (tscale (c1 v) pt) = inr at1
    /\ tsub (tscale (c0 v) at1) (tscale (sigmas v * sigmas v * aug)%Qc mt) = inr bt1
    /\ tadd bt1 (tscale (sigmas v) (rand_t v)) = inr t1
    /\ snap = Snapshot.mk (Batch.num_atoms batch) (Soft t1) (wrap x1) l1.
Proof.
  unfold masked_sample_update. intros Hrun. inv_run.
  repeat case_decide; try discriminate.
  do 14 eexists. split_seq.
Qed.

Lemma sample_step_inr (self uncod : t) (batch : Batch.t) (step_lr aug : Qc)
    (l_T : tensor3) (x_T t_T : mat) (traj : gmap Z Snapshot.t) (time : Z) g traj' g' :
  sample_step self uncod batch step_lr aug l_T x_T t_T traj time g = inr (traj', g') ->
  exists v snap,
    predictor_state self uncod batch step_lr l_T x_T t_T traj time g = inr (v, g')
    /\ sample_update batch aug v = inr snap
    /\ traj' = <[(time - 1)%Z := snap]> traj.
Proof.
  unfold sample_step. intros Hrun. inv_run. eauto.
Qed.

Lemma masked_sample_step_inr (self uncod : t) (batch : Batch.t) (step_lr aug : Qc)
    (mask : option vec) (l_T : tensor3) (x_T t_T : mat) (traj : gmap Z Snapshot.t)
    (time : Z) g traj' g' :
  masked_sample_step self uncod batch step_lr aug mask l_T x_T t_T traj time g
  = inr (traj', g') ->
  exists v snap,
    predictor_state self uncod batch step_lr l_T x_T t_T traj time g = inr (v, g')
    /\ masked_sample_update batch aug mask v = inr snap
    /\ traj' = <[(time - 1)%Z := snap]> traj.
Proof.
  unfold masked_sample_step. intros Hrun. inv_run. eauto.
Qed.

End Sampler.

(** ** Coordinates stay on the torus *)

Section Wrapped.

Context `{Primitives}.

Import CSPProperty.

Lemma initial_traj_wrapped (batch : Batch.t) time_start l_T x_T t_T :
  wrapped (initial_traj batch time_start l_T x_T t_T).
Proof.
  intros k snap Hk. unfold initial_traj in Hk.
  apply lookup_singleton_Some in Hk as [_ <-]. apply wrap_in_closed_unit.
Qed.

Lemma sample_step_wrapped (self uncod : t) batch step_lr aug l_T x_T t_T
    traj time g traj' g' :
  sample_step self uncod batch step_lr aug l_T x_T t_T traj time g = inr (traj', g') ->
  wrapped traj -> wrapped traj'.
Proof.
  intros Hstep Htraj.
  apply sample_step_inr in Hstep as (v & snap & _ & Hup & ->).
  apply sample_update_inr in Hup
    as (gx & gl & gt & pt & ax & bx & x1 & al & bl & l1 & at1 & bt1 & t1 & Hup).
  intros k s Hk. apply lookup_insert_Some in Hk as [[_ <-]|[_ Hk]].
  - destruct Hup as (_ & _ & _ & _ & _ & _ & _ & _ & _ & _ & _ & _ & _ & ->).
    apply wrap_in_closed_unit.
  - eapply Htraj. exact Hk.
Qed.

Lemma masked_sample_step_wrapped (self uncod : t) batch step_lr aug mask l_T x_T t_T
    traj time g traj' g' :
  masked_sample_step self uncod batch step_lr aug mask l_T x_T t_T traj time g
  = inr (traj', g') ->
  wrapped traj -> wrapped traj'.
Proof.
  intros Hstep Htraj.
  apply masked_sample_step_inr in Hstep as (v & snap & _ & Hup & ->).
  apply masked_sample_update_inr in Hup
    as (m & gx & gt & mx & mt & pt & ax & bx & x1 & al & l1 & at1 & bt1 & t1 & Hup).
  intros k s Hk. apply lookup_insert_Some in Hk as [[_ <-]|[_ Hk]].
  - destruct Hup as (_ & _ & _ & _ & _ & _ & _ & _ & _ & _ & _ & _ & _ & _ & _ & _ & ->).
    apply wrap_in_closed_unit.
  - eapply Htraj. exact Hk.
Qed.

Lemma masked_sample_trajectory_wrapped (self : t) batch (uncod : t) diff_ratio step_lr
    aug mask g time_start traj g' :
  masked_sample_trajectory self batch uncod diff_ratio step_lr aug mask g
  = inr ((time_start, traj), g') ->
  wrapped traj.
Proof.
  unfold masked_sample_trajectory. intros Hrun.
  apply bindM_inr in Hrun as ([[[ts l_T] x_T] t_T] & g1 & _ & Hrun).
  apply bindM_inr in Hrun as (traj1 & g2 & Hloop & Hret).
  apply retM_inr in Hret as [[= <- <-] _].
  eapply for_each_invariant; [| exact Hloop | apply initial_traj_wrapped].
  intros s a h s' h' Hstep. eapply masked_sample_step_wrapped. exact Hstep.
Qed.

End Wrapped.

(** ** What the trajectory stores *)

Section Stored.

Context `{Primitives}.

Import CSPProperty.



End Stored.




(** ** The lattice update with and without guidance *)

Section LatticeUpdate.

Context `{Primitives}.

Import CSPProperty.




End LatticeUpdate.


(** ** The mask gates the guidance *)

Section Gate.

Context `{Primitives}.

Import CSPProperty.

Lemma same_shape_length {A : Type} `{Tensor A} (a b : list A) :
  same_shape a b -> length a = length b.
Proof.
  unfold same_shape, zeros_like. simpl. intros Hs.
  apply (f_equal length) in Hs. rewrite !length_map in Hs. exact Hs.
Qed.

(** A mask of zeros turns any gradient into the zero tensor of its
    shape. *)
Lemma unsqueeze_scale_zeros {A : Type} `{TensorLaws A} (m : vec) (gr : list A) :
  Forall (fun x => x = 0%Qc) m ->
  length m = length gr ->
  unsqueeze_scale m gr = inr (zeros_like gr).
Proof.
  intros Hm. revert gr. induction Hm as [|x m -> Hm IH]; intros [|r gr] Hl;
    try discriminate; [reflexivity |].
  unfold unsqueeze_scale in *. simpl. rewrite IH by (simpl in Hl; lia). simpl.
  unfold zeros_like. simpl. do 2 f_equal.
  unfold tscale. apply tmap_ext. intros y. ring.
Qed.

Lemma tsub_gated {A : Type} `{TensorLaws A} (k : Qc) (a gr b : A) :
  tsub a (tscale k (zeros_like gr)) = inr b -> b = a.
Proof.
  intros Hsub.
  pose proof (tmap2_shape _ _ _ _ Hsub) as [Hs _].
  rewrite tsub_zeros in Hsub.
  - injection Hsub as <-. reflexivity.
  - apply same_shape_sym. exact Hs.
  - apply tscale_zeros. apply tForall_zeros_like.
Qed.

Lemma zero_mask_update (batch : Batch.t) (aug : Qc) (m : vec) (v : locals)
    (snap : Snapshot.t) :
  Forall (fun x => x = 0%Qc) m ->
  masked_sample_update batch aug (Some m) v = inr snap ->
  exists x1 t1 pt gx gt,
    Snapshot.frac_coords snap = wrap x1
    /\ Snapshot.atom_types snap = Soft t1
    /\ pred_t v = Some pt /\ grad_x v = Some gx /\ grad_t v = Some gt
    /\ same_shape x1 (x_t_minus_05 v)
    /\ same_shape t1 (t_t_minus_05 v)
    /\ (forall a k x p r,
          entry2 (x_t_minus_05 v) a k = Some x ->
          entry2 (pred_x v) a k = Some p ->
          entry2 (rand_x v) a k = Some r ->
          entry2 x1 a k
          = Some (x - step_size v * (fsqrt (sigma_norm v) * p) + std_x v * r)%Qc)
    /\ (forall a k x p r,
          entry2 (t_t_minus_05 v) a k = Some x ->
          entry2 pt a k = Some p ->
          entry2 (rand_t v) a k = Some r ->
          entry2 t1 a k = Some (c0 v * (x - c1 v * p) + sigmas v * r)%Qc)
    /\ (forall gx' gt' gl',
          same_shape gx' gx -> same_shape gt' gt ->
          masked_sample_update batch aug (Some m)
                               (with_grads v (Some gt') (Some gx') gl')
          = inr snap).
Proof.
  intros Hm Hup. pose proof Hup as Hrun.
  apply masked_sample_update_inr in Hup
    as (m' & gx & gt & mx & mt & pt & ax & bx & x1 & al & l1 & at1 & bt1 & t1
        & [= <-] & Hgx & Hgt & Lx & Lt & Hmx & Hmt & Hpt & Hax & Hbx & Hx1
        & Hal & Hl1 & Hat & Hbt & Ht1 & ->).
  rewrite unsqueeze_scale_zeros in Hmx by assumption. injection Hmx as <-.
  rewrite unsqueeze_scale_zeros in Hmt by (try assumption; congruence).
  injection Hmt as <-.
  pose proof (tsub_gated _ _ _ _ Hbx) as ->.
  pose proof (tsub_gated _ _ _ _ Hbt) as ->.
  pose proof (tmap2_shape _ _ _ _ Hax) as [_ Sax].
  pose proof (tmap2_shape _ _ _ _ Hx1) as [_ Sx1].
  pose proof (tmap2_shape _ _ _ _ Hat) as [_ Sat].
  pose proof (tmap2_shape _ _ _ _ Ht1) as [_ St1].
  exists x1, t1, pt, gx, gt. cbn [Snapshot.frac_coords Snapshot.atom_types].
  split; [reflexivity |]. split; [reflexivity |].
  split; [exact Hpt |]. split; [exact Hgx |]. split; [exact Hgt |].
  split; [eapply same_shape_trans; eassumption |].
  split.
  { eapply same_shape_trans; [exact St1 |].
    eapply same_shape_trans; [apply same_shape_tmap | exact Sat]. }
  split.
  { intros a k x p r Hx Hp Hr.
    eapply entry2_tmap2; [exact Hx1 | | apply entry2_tscale; exact Hr].
    eapply entry2_tmap2; [exact Hax | exact Hx |].
    apply entry2_tscale. apply entry2_tscale. exact Hp. }
  split.
  { intros a k x p r Hx Hp Hr.
    eapply entry2_tmap2; [exact Ht1 | | apply entry2_tscale; exact Hr].
    apply entry2_tscale.
    eapply entry2_tmap2; [exact Hat | exact Hx | apply entry2_tscale; exact Hp]. }
  intros gx' gt' gl' Sx St.
  pose proof (same_shape_length _ _ Sx) as Lx'.
  pose proof (same_shape_length _ _ St) as Lt'.
  unfold masked_sample_update in Hrun |- *. cbn [with_grads grad_x grad_t
    pred_x pred_l pred_t sigma_norm step_size std_x x_t_minus_05 l_t_minus_05
    t_t_minus_05 c0 c1 sigmas rand_x rand_l rand_t].
  rewrite Hgx, Hgt in Hrun. simpl not_none in *. cbn [bind ret] in *.
  rewrite !decide_True in Hrun by assumption.
  rewrite !decide_True by congruence.
  cbn [bind ret] in *.
  rewrite !unsqueeze_scale_zeros in Hrun by (try assumption; congruence).
  rewrite !unsqueeze_scale_zeros by (try assumption; congruence).
  rewrite Sx, St. exact Hrun.
Qed.

End Gate.

(** C6: with a mask of zeros a step of [masked_sample] stores the
    unguided updates, [x - step_size * pred_x + std_x * rand_x] for the
    coordinates (before wrapping) and [c0 * (t - c1 * pred_t) + sigmas *
    rand_t] for the types, entry by entry, and it stores the same snapshot
    whatever gradients [grad_x], [grad_t] (of the shapes of the state) and
    [grad_l] the guidance has computed. *)
Theorem zero_mask_removes_guidance `{Primitives} (self uncod : CSPProperty.t)
    (batch : Batch.t) (step_lr aug : Qc) (m : vec) (l_T : tensor3) (x_T t_T : mat)
    (traj : gmap Z Snapshot.t) (time : Z) (g : rng) (traj' : gmap Z Snapshot.t)
    (g' : rng) :
  Forall (fun x => x = 0%Qc) m ->
  CSPProperty.masked_sample_step self uncod batch step_lr aug (Some m) l_T x_T t_T
                                 traj time g = inr (traj', g') ->
  exists v snap x1 t1 pt gx gt,
    CSPProperty.predictor_state self uncod batch step_lr l_T x_T t_T traj time g
    = inr (v, g')
    /\ traj' = <[(time - 1)%Z := snap]> traj
    /\ Snapshot.frac_coords snap = wrap x1
    /\ Snapshot.atom_types snap = Soft t1
    /\ CSPProperty.pred_t v = Some pt
    /\ CSPProperty.grad_x v = Some gx
    /\ CSPProperty.grad_t v = Some gt
    /\ same_shape x1 (CSPProperty.x_t_minus_05 v)
    /\ same_shape t1 (CSPProperty.t_t_minus_05 v)
    /\ (forall a k x p r,
          entry2 (CSPProperty.x_t_minus_05 v) a k = Some x ->
          entry2 (CSPProperty.pred_x v) a k = Some p ->
          entry2 (CSPProperty.rand_x v) a k = Some r ->
          entry2 x1 a k
          = Some (x - CSPProperty.step_size v * (fsqrt (CSPProperty.sigma_norm v) * p)
                  + CSPProperty.std_x v * r)%Qc)
    /\ (forall a k x p r,
          entry2 (CSPProperty.t_t_minus_05 v) a k = Some x ->
          entry2 pt a k = Some p ->
          entry2 (CSPProperty.rand_t v) a k = Some r ->
          entry2 t1 a k
          = Some (CSPProperty.c0 v * (x - CSPProperty.c1 v * p)
                  + CSPProperty.sigmas v * r)%Qc)
    /\ (forall gx' gt' gl',
          same_shape gx' gx -> same_shape gt' gt ->
          CSPProperty.masked_sample_update batch aug (Some m)
            (with_grads v (Some gt') (Some gx') gl') = inr snap).
Proof.
  intros Hm Hstep.
  apply masked_sample_step_inr in Hstep as (v & snap & Hv & Hup & ->).
  destruct (zero_mask_update batch aug m v snap Hm Hup)
    as (x1 & t1 & pt & gx & gt & Hx & Ht & Hpt & Hgx & Hgt & Sx & St & Ex & Et & Hind).
  exists v, snap, x1, t1, pt, gx, gt.
  split; [exact Hv |]. split; [reflexivity |]. split; [exact Hx |].
  split; [exact Ht |]. split; [exact Hpt |]. split; [exact Hgx |].
  split; [exact Hgt |]. split; [exact Sx |]. split; [exact St |].
  split; [exact Ex |]. split; [exact Et | exact Hind].
Qed.


Lemma zero_mask_removes_guidance_witness :
  match CSPProperty.masked_sample_step (H := Toy.prims) (Toy.model false)
          (Toy.model false) Toy.batch (Q2Qc (1 # 100)) 1 (Some [0%Qc; 0%Qc])
          Toy.l_3 Toy.x_3 Toy.t_3 Toy.traj_3 3 Toy.g0 with
  | inr (traj', _) =>
      exists v snap,
        traj' !! 2%Z = Some snap
        /\ forall gx' gt' gl',
             same_shape gx' Toy.x_3 -> same_shape gt' Toy.t_3 ->
             CSPProperty.masked_sample_update (H := Toy.prims) Toy.batch 1
               (Some [0%Qc; 0%Qc]) (with_grads v (Some gt') (Some gx') gl')
             = inr snap
  | inl _ => False
  end.
Proof.
  destruct (CSPProperty.masked_sample_step (H := Toy.prims) (Toy.model false)
              (Toy.model false) Toy.batch (Q2Qc (1 # 100)) 1 (Some [0%Qc; 0%Qc])
              Toy.l_3 Toy.x_3 Toy.t_3 Toy.traj_3 3 Toy.g0)
    as [e|[traj' g']] eqn:Hstep.
  { vm_compute in Hstep. discriminate Hstep. }
  assert (Hm : Forall (fun x => x = 0%Qc) [0%Qc; 0%Qc]) by (repeat constructor).
  destruct (zero_mask_removes_guidance (H := Toy.prims) _ _ _ _ _ _ _ _ _ _ _ _ _ _
              Hm Hstep)
    as (v & snap & x1 & t1 & pt & gx & gt & Hv & -> & _ & _ & _ & Hgx & Hgt & _ & _
        & _ & _ & Hind).
  exists v, snap. split; [apply lookup_insert_eq |].
  intros gx' gt' gl' Sx St. apply Hind.
  - vm_compute in Hv. injection Hv as <- _. cbn in Hgx. injection Hgx as <-. exact Sx.
  - vm_compute in Hv. injection Hv as <- _. cbn in Hgt. injection Hgt as <-. exact St.
Defined.



Lemma forward_default_is_unconditional_witness :
  CSPNet.forward (H := Toy.prims) Toy.net [[1%Qc]; [Toy.half]] (AtomIds [1%Z; 3%Z])
                 Toy.x_3 Toy.l_3 [1; 1] [0; 1] None false false Toy.g0
  = lift (H := Toy.prims)
         (CSPNet.unconditional (H := Toy.prims) Toy.net [[1%Qc]; [Toy.half]]
            (AtomIds [1%Z; 3%Z]) Toy.x_3 Toy.l_3 [1; 1] [0; 1] None) Toy.g0.
Proof.
  apply (forward_default_is_unconditional (H := Toy.prims)). reflexivity.
Defined.

(** ** The trajectory of the reverse loop *)

Lemma upto_lookup (t k : Z) (traj : gmap Z Snapshot.t) :
  upto t traj !! k = if decide (t <= k)%Z then traj !! k else None.
Proof.
  unfold upto. case_decide as Hk.
  - destruct (traj !! k) as [s|] eqn:Hs.
    + apply map_lookup_filter_Some. auto.
    + apply map_lookup_filter_None. left. exact Hs.
  - apply map_lookup_filter_None. right. intros s _. exact Hk.
Qed.

Lemma upto_all (t : Z) (traj : gmap Z Snapshot.t) :
  (forall k, is_Some (traj !! k) -> (t <= k)%Z) -> upto t traj = traj.
Proof.
  intros Hkeys. apply map_eq. intros k. rewrite upto_lookup.
  case_decide as Hk; [reflexivity |].
  destruct (traj !! k) as [s|] eqn:Hs; [| reflexivity].
  exfalso. apply Hk. apply Hkeys. rewrite Hs. eauto.
Qed.

Lemma upto_upto (t t' : Z) (traj : gmap Z Snapshot.t) :
  (t' <= t)%Z -> upto t (upto t' traj) = upto t traj.
Proof.
  intros Ht. apply map_eq. intros k. rewrite !upto_lookup.
  repeat case_decide; try reflexivity; lia.
Qed.

Lemma upto_insert_below (t k : Z) (s : Snapshot.t) (traj : gmap Z Snapshot.t) :
  (k < t)%Z -> upto t (<[k := s]> traj) = upto t traj.
Proof.
  intros Hk. apply map_eq. intros j. rewrite !upto_lookup.
  case_decide; [| reflexivity]. apply lookup_insert_ne. lia.
Qed.

Section Loop.

Context `{Primitives}.

Import CSPProperty.

Variables (self uncod : t) (batch : Batch.t) (step_lr aug : Qc)
          (l_T : tensor3) (x_T t_T : mat).

Let step := sample_step self uncod batch step_lr aug l_T x_T t_T.

(** The loop from timestep [n] down to 1, started on a trajectory that
    holds timesteps [n] and above only: every step stores one new
    snapshot, under the key below, and leaves the others alone. *)
Lemma sample_loop (n : nat) (traj : gmap Z Snapshot.t) g traj' g' :
  for_each (range_down (Z.of_nat n) 0) step traj g = inr (traj', g') ->
  (forall k, is_Some (traj !! k) -> (Z.of_nat n <= k)%Z) ->
  upto (Z.of_nat n) traj' = traj
  /\ size traj' = size traj + n
  /\ (forall k, (0 <= k < Z.of_nat n)%Z -> is_Some (traj' !! k))
  /\ (forall k, is_Some (traj' !! k) -> (0 <= k)%Z)
  /\ (forall time, (1 <= time <= Z.of_nat n)%Z ->
        upto time traj' !! (time - 1)%Z = None
        /\ exists g1 g2 snap,
             step (upto time traj') time g1 = inr (upto (time - 1) traj', g2)
             /\ upto (time - 1) traj' = <[(time - 1)%Z := snap]> (upto time traj')).
Proof.
  revert traj g. induction n as [|m IH]; intros traj g Hrun Hkeys.
  - rewrite range_down_nil in Hrun. simpl in Hrun.
    apply retM_inr in Hrun as [-> _].
    split; [apply upto_all; exact Hkeys |]. split; [lia |].
    split; [intros k Hk; lia |]. split; [exact Hkeys |].
    intros time Ht. lia.
  - rewrite range_down_succ in Hrun by lia.
    apply for_each_cons in Hrun as (traj1 & g1 & Hstep & Hrest).
    pose proof Hstep as Hstep'.
    apply sample_step_inr in Hstep' as (v & snap & _ & _ & Htraj1).
    replace (Z.of_nat (S m) - 1)%Z with (Z.of_nat m) in Htraj1 by lia.
    assert (Hfresh : traj !! Z.of_nat m = None).
    { destruct (traj !! Z.of_nat m) as [s|] eqn:Hs; [| reflexivity].
      assert (Z.of_nat (S m) <= Z.of_nat m)%Z by (apply Hkeys; rewrite Hs; eauto).
      lia. }
    assert (Hkeys1 : forall k, is_Some (traj1 !! k) -> (Z.of_nat m <= k)%Z).
    { intros k Hk. subst traj1.
      destruct (decide (k = Z.of_nat m)) as [-> | Hne]; [lia |].
      rewrite lookup_insert_ne in Hk by congruence. apply Hkeys in Hk. lia. }
    destruct (IH traj1 g1 Hrest Hkeys1) as (Hup & Hsize & Hlow & Hnonneg & Hsteps).
    assert (Hup' : upto (Z.of_nat (S m)) traj' = traj).
    { rewrite <- (upto_upto _ (Z.of_nat m)) by lia. rewrite Hup. subst traj1.
      rewrite upto_insert_below by lia. apply upto_all. exact Hkeys. }
    split; [exact Hup' |].
    split.
    { rewrite Hsize. subst traj1. rewrite map_size_insert_None by exact Hfresh. lia. }
    split.
    { intros k Hk. destruct (decide (k = Z.of_nat m)) as [-> | Hne].
      - assert (Hm : upto (Z.of_nat m) traj' !! Z.of_nat m = Some snap).
        { rewrite Hup. subst traj1. apply lookup_insert_eq. }
        rewrite upto_lookup in Hm. case_decide; [| discriminate]. rewrite Hm. eauto.
      - apply Hlow. lia. }
    split; [exact Hnonneg |].
    intros time Ht. destruct (decide (time = Z.of_nat (S m))) as [-> | Hne].
    + replace (Z.of_nat (S m) - 1)%Z with (Z.of_nat m) by lia.
      rewrite Hup', Hup. split; [exact Hfresh |].
      exists g, g1, snap. split; [exact Hstep | exact Htraj1].
    + apply Hsteps. lia.
Qed.

End Loop.

Lemma argmax_from_bound (r : vec) (best : Qc) (best_i i : nat) :
  best_i < i -> argmax_from best best_i i r < i + length r.
Proof.
  revert best best_i i. induction r as [|x r IH]; intros best best_i i Hi; simpl.
  - lia.
  - destruct (Qcleb x best).
    + specialize (IH best best_i (S i)). lia.
    + specialize (IH x i (S i)). lia.
Qed.

Lemma argmax_row_bound (r : vec) (i : nat) :
  argmax_row r = inr i -> i < length r.
Proof.
  destruct r as [|x r]; [discriminate |]. simpl. intros [= <-].
  pose proof (argmax_from_bound r x 0 1). lia.
Qed.

Lemma argmax_plus_1_range (p : mat) (ids : list nat) (n : nat) :
  argmax_plus_1 p = inr ids ->
  Forall (fun r : vec => length r = n) p ->
  Forall (fun id => 1 <= id <= n) ids.
Proof.
  unfold argmax_plus_1. revert ids.
  induction p as [|r p IH]; intros ids Hrun Hrows; simpl in Hrun; inv_run.
  - constructor.
  - inversion Hrows; subst. constructor.
    + match goal with Hr : argmax_row _ = inr _ |- _ =>
        apply argmax_row_bound in Hr end. lia.
    + apply IH; assumption.
Qed.

Lemma same_shape_rows (p q : mat) (n : nat) :
  same_shape p q ->
  Forall (fun r : vec => length r = n) q ->
  Forall (fun r : vec => length r = n) p.
Proof.
  unfold same_shape, zeros_like. simpl. revert q.
  induction p as [|r p IH]; intros [|s q] Hs Hq; try discriminate; [constructor |].
  simpl in Hs. injection Hs as Hr Hs. inversion Hq; subst.
  constructor; [| eapply IH; eassumption].
  apply (f_equal length) in Hr. rewrite !length_map in Hr. exact Hr.
Qed.

Section Terminal.

Context `{Primitives}.

Import CSPProperty.

(** Where the state of a step comes from. *)
Lemma predictor_state_inr (self uncod : t) (batch : Batch.t) (step_lr : Qc)
    (l_T : tensor3) (x_T t_T : mat) (traj : gmap Z Snapshot.t) (time : Z) g v g' :
  predictor_state self uncod batch step_lr l_T x_T t_T traj time g = inr (v, g') ->
  exists snap,
    traj !! time = Some snap
    /\ Snapshot.atom_types snap = Soft (t_t_minus_05 v)
    /\ Snapshot.lattices snap = l_t_minus_05 v.
Proof.
  unfold predictor_state. intros Hrun.
  repeat (inv_step; try match goal with
                        | Hx : context [let '(_, _) := ?p in _] |- _ => destruct p
                        end).
  match goal with
  | Hs : traj_item _ _ = inr ?s |- _ => exists s; apply not_none_inr in Hs
  end.
  match goal with
  | Hs : soft ?c = inr _ |- _ => destruct c; [| discriminate]; injection Hs as ->
  end.
  cbn [t_t_minus_05 l_t_minus_05]. auto.
Qed.

Lemma sample_step_soft_typed (self uncod : t) batch step_lr aug l_T x_T t_T
    traj time g traj' g' :
  sample_step self uncod batch step_lr aug l_T x_T t_T traj time g = inr (traj', g') ->
  soft_typed t_T traj -> soft_typed t_T traj'.
Proof.
  intros Hstep Htraj.
  apply sample_step_inr in Hstep as (v & snap & Hv & Hup & ->).
  apply predictor_state_inr in Hv as (s0 & Hs0 & Ht0 & _).
  destruct (Htraj _ _ Hs0) as (p & Hp & Sp). rewrite Ht0 in Hp. injection Hp as <-.
  apply sample_update_inr in Hup
    as (gx & gl & gt & pt & ax & bx & x1 & al & bl & l1 & at1 & bt1 & t1
        & _ & _ & _ & _ & _ & _ & _ & _ & _ & _ & Hat & Hbt & Ht1 & ->).
  pose proof (tmap2_shape _ _ _ _ Hat) as [_ Sat].
  pose proof (tmap2_shape _ _ _ _ Hbt) as [_ Sbt].
  pose proof (tmap2_shape _ _ _ _ Ht1) as [_ St1].
  intros k s Hk. apply lookup_insert_Some in Hk as [[_ <-]|[_ Hk]].
  - exists t1. split; [reflexivity |].
    eapply same_shape_trans; [exact St1 |].
    eapply same_shape_trans; [exact Sbt |].
    eapply same_shape_trans; [apply same_shape_tmap |].
    eapply same_shape_trans; [exact Sat | exact Sp].
  - eapply Htraj. exact Hk.
Qed.

(** With [diff_ratio] at 1 or above the sampler starts from noise at the
    last timestep. *)
Lemma initial_state_full (self : t) (batch : Batch.t) (diff_ratio : Qc) g
    time_start l_T x_T t_T g' :
  (1 <= diff_ratio)%Qc ->
  initial_state self batch diff_ratio g = inr ((time_start, l_T, x_T, t_T), g') ->
  time_start = Z.of_nat (BetaScheduler.timesteps (beta_scheduler self))
  /\ Forall (fun r : vec => length r = MAX_ATOMIC_NUM) t_T.
Proof.
  intros Hratio. unfold initial_state. intros Hrun.
  destruct (Qclt_le_dec diff_ratio 1) as [Hlt | _].
  { exfalso. apply Qclt_not_le in Hlt. contradiction. }
  unfold randn_like in Hrun.
  repeat inv_step.
  match goal with
  | Hx : (time_start, l_T, x_T, t_T) = _ |- _ => injection Hx as -> -> -> ->
  end.
  split; [reflexivity |].
  match goal with
  | Hd : draw_list _ (replicate _ (replicate MAX_ATOMIC_NUM _)) ?s = (?p, _) |- _ =>
      pose proof (tdraw_shape (A := mat) rng randn
                    (replicate (Batch.num_nodes batch)
                               (replicate MAX_ATOMIC_NUM 0%Qc)) s) as Sh;
      cbn [tdraw list_tensor scalar_tensor] in Sh; rewrite Hd in Sh
  end.
  eapply same_shape_rows; [exact Sh |].
  apply Forall_replicate. apply length_replicate.
Qed.

End Terminal.

Lemma soft_inr (c : type_channel) (p : mat) : soft c = inr p -> c = Soft p.
Proof. destruct c; simpl; [intros [= ->]; reflexivity | discriminate]. Qed.

(** What the stacked trajectory and the terminal snapshot are made of. *)
Lemma stack_trajectory_inr (batch : Batch.t) (time_start : Z)
    (traj : gmap Z Snapshot.t) (final : Snapshot.t) (stk : TrajStack.t) :
  CSPProperty.stack_trajectory batch time_start traj = inr (final, stk) ->
  length (TrajStack.atom_types stk) = Z.to_nat (time_start + 1)
  /\ length (TrajStack.all_frac_coords stk) = Z.to_nat (time_start + 1)
  /\ length (TrajStack.all_lattices stk) = Z.to_nat (time_start + 1)
  /\ (forall i, i < Z.to_nat (time_start + 1) ->
        exists s p ids,
          traj !! (time_start - Z.of_nat i)%Z = Some s
          /\ Snapshot.atom_types s = Soft p
          /\ argmax_plus_1 p = inr ids
          /\ TrajStack.atom_types stk !! i = Some ids
          /\ TrajStack.all_frac_coords stk !! i = Some (Snapshot.frac_coords s)
          /\ TrajStack.all_lattices stk !! i = Some (Snapshot.lattices s))
  /\ exists res p ids,
       traj !! 0%Z = Some res
       /\ Snapshot.atom_types res = Soft p
       /\ argmax_plus_1 p = inr ids
       /\ final = Snapshot.mk (Snapshot.num_atoms res) (Hard ids)
                              (Snapshot.frac_coords res) (Snapshot.lattices res).
Proof.
  unfold CSPProperty.stack_trajectory, traj_item. intros Hrun.
  apply bind_inr in Hrun as (types0 & Htypes0 & Hrun).
  apply bind_inr in Hrun as (types1 & Hstack1 & Hrun).
  apply bind_inr in Hrun as (types & Htypes & Hrun).
  apply bind_inr in Hrun as (coords0 & Hcoords0 & Hrun).
  apply bind_inr in Hrun as (coords & Hstack2 & Hrun).
  apply bind_inr in Hrun as (lats0 & Hlats0 & Hrun).
  apply bind_inr in Hrun as (lats & Hstack3 & Hrun).
  apply bind_inr in Hrun as (res & Hres & Hrun).
  apply bind_inr in Hrun as (p & Hp & Hrun).
  apply bind_inr in Hrun as (ids & Hids & Hrun).
  apply bind_inr in Hrun as (final' & Hfinal & Hrun).
  injection Hrun as <- <-.
  apply stack_inr in Hstack1, Hstack2, Hstack3. subst types1 coords lats.
  apply not_none_inr in Hres. apply soft_inr in Hp.
  rewrite lookup_insert_eq in Hfinal. injection Hfinal as <-.
  assert (Hlen : length (range_down time_start (-1)) = Z.to_nat (time_start + 1)).
  { rewrite range_down_length. f_equal. }
  cbn [TrajStack.atom_types TrajStack.all_frac_coords TrajStack.all_lattices].
  split; [rewrite (map_result_length _ _ _ Htypes), (map_result_length _ _ _ Htypes0);
          exact Hlen |].
  split; [rewrite (map_result_length _ _ _ Hcoords0); exact Hlen |].
  split; [rewrite (map_result_length _ _ _ Hlats0); exact Hlen |].
  split; [| exists res, p, ids; auto].
  intros i Hi.
  assert (Hk : range_down time_start (-1) !! i = Some (time_start - Z.of_nat i)%Z).
  { apply range_down_lookup. replace (time_start - -1)%Z with (time_start + 1)%Z by lia.
    exact Hi. }
  destruct (map_result_lookup _ _ _ _ _ Htypes0 Hk) as (pi & Hpi & Hsi).
  apply bind_inr in Hsi as (s & Hs & Hsoft).
  apply not_none_inr in Hs. apply soft_inr in Hsoft.
  destruct (map_result_lookup _ _ _ _ _ Htypes Hpi) as (idsi & Hidsi & Hargmax).
  destruct (map_result_lookup _ _ _ _ _ Hcoords0 Hk) as (ci & Hci & Hsc).
  apply bind_inr in Hsc as (s' & Hs' & Hc).
  apply not_none_inr in Hs'. rewrite Hs in Hs'. injection Hs' as <-.
  injection Hc as <-.
  destruct (map_result_lookup _ _ _ _ _ Hlats0 Hk) as (li & Hli & Hsl).
  apply bind_inr in Hsl as (s' & Hs' & Hl).
  apply not_none_inr in Hs'. rewrite Hs in Hs'. injection Hs' as <-.
  injection Hl as <-.
  exists s, pi, idsi. auto 10.
Qed.

(** The trajectory and the stack of a run of [sample] from noise: the
    keys, the steps and the frames. *)
Lemma sample_from_noise `{Primitives} (self : CSPProperty.t) (batch : Batch.t)
    (uncod : CSPProperty.t) (diff_ratio step_lr aug : Qc) (g : rng)
    (final : Snapshot.t) (stk : TrajStack.t) (g' : rng) :
  (1 <= diff_ratio)%Qc ->
  CSPProperty.sample self batch uncod diff_ratio step_lr aug g = inr ((final, stk), g') ->
  let T := BetaScheduler.timesteps (CSPProperty.beta_scheduler self) in
  exists traj l_T x_T t_T,
    CSPProperty.sample_trajectory self batch uncod diff_ratio step_lr aug g
    = inr ((Z.of_nat T, traj), g')
    /\ (forall k, is_Some (traj !! k) <-> (0 <= k <= Z.of_nat T)%Z)
    /\ size traj = T + 1
    /\ upto (Z.of_nat T) traj = CSPProperty.initial_traj batch (Z.of_nat T) l_T x_T t_T
    /\ (forall time, (1 <= time <= Z.of_nat T)%Z ->
          upto time traj !! (time - 1)%Z = None
          /\ exists g1 g2 snap,
               CSPProperty.sample_step self uncod batch step_lr aug l_T x_T t_T
                                       (upto time traj) time g1
               = inr (upto (time - 1) traj, g2)
               /\ upto (time - 1) traj = <[(time - 1)%Z := snap]> (upto time traj))
    /\ length (TrajStack.atom_types stk) = T + 1
    /\ length (TrajStack.all_frac_coords stk) = T + 1
    /\ length (TrajStack.all_lattices stk) = T + 1
    /\ (forall i, i <= T ->
          exists s p ids,
            traj !! (Z.of_nat T - Z.of_nat i)%Z = Some s
            /\ Snapshot.atom_types s = Soft p
            /\ argmax_plus_1 p = inr ids
            /\ TrajStack.atom_types stk !! i = Some ids
            /\ TrajStack.all_frac_coords stk !! i = Some (Snapshot.frac_coords s)
            /\ TrajStack.all_lattices stk !! i = Some (Snapshot.lattices s))
    /\ (exists res p ids,
          traj !! 0%Z = Some res
          /\ Snapshot.atom_types res = Soft p
          /\ argmax_plus_1 p = inr ids
          /\ final = Snapshot.mk (Snapshot.num_atoms res) (Hard ids)
                                 (Snapshot.frac_coords res) (Snapshot.lattices res)
          /\ Forall (fun id => 1 <= id <= MAX_ATOMIC_NUM) ids)
    /\ Forall (Forall (fun id => 1 <= id <= MAX_ATOMIC_NUM)) (TrajStack.atom_types stk).
Proof.
  intros Hratio Hrun T.
  unfold CSPProperty.sample in Hrun.
  apply bindM_inr in Hrun as ([ts traj] & g1 & Htraj & Hstack).
  apply lift_inr in Hstack as [Hstack ->].
  pose proof Htraj as Hloop. unfold CSPProperty.sample_trajectory in Hloop.
  apply bindM_inr in Hloop as ([[[ts0 l_T] x_T] t_T] & g0 & Hinit & Hloop).
  apply bindM_inr in Hloop as (traj1 & g2 & Hloop & Hret).
  apply retM_inr in Hret as [[= <- <-] <-].
  destruct (initial_state_full _ _ _ _ _ _ _ _ _ Hratio Hinit) as [-> Hrows].
  fold T in Hloop, Htraj, Hstack.
  assert (Hkeys0 : forall k,
             is_Some (CSPProperty.initial_traj batch (Z.of_nat T) l_T x_T t_T !! k) ->
             (Z.of_nat T <= k)%Z).
  { intros k [s Hs]. unfold CSPProperty.initial_traj in Hs.
    apply lookup_singleton_Some in Hs as [<- _]. lia. }
  destruct (sample_loop _ _ _ _ _ _ _ _ _ _ _ _ _ Hloop Hkeys0)
    as (Hup & Hsize & Hlow & Hnonneg & Hsteps).
  assert (Htyped : soft_typed t_T traj).
  { eapply (for_each_invariant (soft_typed t_T)); [| exact Hloop |].
    - intros s a h s' h' Hstep. eapply sample_step_soft_typed. exact Hstep.
    - intros k s Hs. unfold CSPProperty.initial_traj in Hs.
      apply lookup_singleton_Some in Hs as [_ <-].
      exists t_T. split; [reflexivity | apply same_shape_refl]. }
  assert (Hrange : forall s p ids,
             traj !! s = Some p -> forall q, Snapshot.atom_types p = Soft q ->
             argmax_plus_1 q = inr ids ->
             Forall (fun id => 1 <= id <= MAX_ATOMIC_NUM) ids).
  { intros k s ids Hs q Hq Hids.
    destruct (Htyped _ _ Hs) as (q' & Hq' & Sq). rewrite Hq in Hq'. injection Hq' as <-.
    eapply argmax_plus_1_range; [exact Hids |].
    eapply same_shape_rows; eassumption. }
  destruct (stack_trajectory_inr _ _ _ _ _ Hstack)
    as (Ltypes & Lcoords & Llats & Hentries & res & p & ids & Hres & Hp & Hids & Hfinal).
  replace (Z.to_nat (Z.of_nat T + 1)) with (T + 1) in * by lia.
  exists traj, l_T, x_T, t_T.
  split; [exact Htraj |].
  split.
  { intros k. split.
    - intros Hk. split; [apply Hnonneg; exact Hk |].
      destruct (decide (k <= Z.of_nat T)%Z) as [Hle | Hgt]; [exact Hle |].
      exfalso. assert (Hk' : is_Some (upto (Z.of_nat T) traj !! k)).
      { rewrite upto_lookup. rewrite decide_True by lia. exact Hk. }
      rewrite Hup in Hk'. apply Hkeys0 in Hk' as Hk''.
      destruct Hk' as [s Hs]. unfold CSPProperty.initial_traj in Hs.
      apply lookup_singleton_Some in Hs as [<- _]. lia.
    - intros [Hk0 HkT]. destruct (decide (k = Z.of_nat T)) as [-> | Hne].
      + assert (Hk' : is_Some (upto (Z.of_nat T) traj !! Z.of_nat T)).
        { rewrite Hup. unfold CSPProperty.initial_traj.
          rewrite lookup_singleton_eq. eauto. }
        rewrite upto_lookup in Hk'. rewrite decide_True in Hk' by lia. exact Hk'.
      + apply Hlow. lia. }
  split.
  { rewrite Hsize. unfold CSPProperty.initial_traj. rewrite map_size_singleton. lia. }
  split; [exact Hup |]. split; [exact Hsteps |].
  split; [exact Ltypes |]. split; [exact Lcoords |]. split; [exact Llats |].
  split; [intros i Hi; apply Hentries; lia |].
  split.
  { exists res, p, ids. split; [exact Hres |]. split; [exact Hp |].
    split; [exact Hids |]. split; [exact Hfinal |].
    eapply Hrange; eassumption. }
  apply Forall_lookup. intros i idsi Hi.
  assert (Hlt : i < T + 1).
  { rewrite <- Ltypes. eapply lookup_lt_Some. exact Hi. }
  destruct (Hentries i Hlt) as (s & q & ids' & Hs & Hq & Hids' & Hi' & _).
  rewrite Hi in Hi'. injection Hi' as <-.
  eapply Hrange; eassumption.
Qed.

(** The scan of [argmax_from]: with the first maximum of the entries seen
    so far in hand, it ends at the first maximum of the whole row. *)
Lemma argmax_from_first_max (pre r : vec) (best : Qc) (best_i : nat) :
  pre !! best_i = Some best ->
  (forall k w, pre !! k = Some w -> (w <= best)%Qc) ->
  (forall k w, k < best_i -> pre !! k = Some w -> (w < best)%Qc) ->
  is_argmax (pre ++ r) (argmax_from best best_i (length pre) r).
Proof.
  revert pre best best_i. induction r as [|x r IH]; intros pre best best_i Hb Hmax Hfirst.
  - simpl. rewrite app_nil_r. exists best. auto.
  - simpl. destruct (Qcleb x best) eqn:Hx.
    + apply Qcleb_true in Hx.
      replace (pre ++ x :: r) with ((pre ++ [x]) ++ r) by (rewrite <- app_assoc; reflexivity).
      replace (S (length pre)) with (length (pre ++ [x])) by (rewrite length_app; simpl; lia).
      apply IH.
      * apply lookup_app_l_Some. exact Hb.
      * intros k w Hk. apply lookup_app_Some in Hk as [Hk | [_ Hk]]; [eauto |].
        apply list_lookup_singleton_Some in Hk as [_ <-]. exact Hx.
      * intros k w Hlt Hk. apply lookup_app_Some in Hk as [Hk | [Hge Hk]]; [eauto |].
        apply lookup_lt_Some in Hb. lia.
    + apply Qcleb_false in Hx.
      replace (pre ++ x :: r) with ((pre ++ [x]) ++ r) by (rewrite <- app_assoc; reflexivity).
      replace (S (length pre)) with (length (pre ++ [x])) by (rewrite length_app; simpl; lia).
      apply IH.
      * rewrite lookup_app_r by lia. rewrite Nat.sub_diag. reflexivity.
      * intros k w Hk. apply lookup_app_Some in Hk as [Hk | [_ Hk]].
        -- apply Qclt_le_weak. eapply Qcle_lt_trans; [eapply Hmax; exact Hk | exact Hx].
        -- apply list_lookup_singleton_Some in Hk as [_ <-]. apply Qcle_refl.
      * intros k w Hlt Hk. apply lookup_app_Some in Hk as [Hk | [Hge Hk]]; [| lia].
        eapply Qcle_lt_trans; [eapply Hmax; exact Hk | exact Hx].
Qed.

Lemma argmax_row_is_argmax (r : vec) (i : nat) :
  argmax_row r = inr i -> is_argmax r i.
Proof.
  destruct r as [|x r]; [discriminate |]. simpl. intros [= <-].
  apply (argmax_from_first_max [x] r x 0).
  - reflexivity.
  - intros k w Hk. apply list_lookup_singleton_Some in Hk as [_ <-]. apply Qcle_refl.
  - intros k w Hk. lia.
Qed.

Lemma argmax_plus_1_hard_ids (p : mat) (ids : list nat) :
  argmax_plus_1 p = inr ids -> hard_ids p ids.
Proof.
  unfold argmax_plus_1, hard_ids. revert ids.
  induction p as [|r p IH]; intros ids Hrun; simpl in Hrun; inv_run.
  - constructor.
  - constructor; [| apply IH; assumption].
    match goal with Hr : argmax_row _ = inr ?i |- _ =>
      apply argmax_row_is_argmax in Hr; replace (i + 1 - 1) with i by lia;
      split; [lia | exact Hr] end.
Qed.

(** C3: a call of [sample] with [diff_ratio] 1 (or above) over [T]
    timesteps that returns has built a trajectory of exactly [T + 1]
    snapshots, under the keys [T] down to [0].  The loop is append-only:
    when step [t] runs the trajectory holds the snapshots of the timesteps
    [t] and above, the key [t - 1] is free, and the step stores one
    snapshot there and changes nothing else.  The returned stack lists the
    [T + 1] snapshots from [T] down to [0].  The terminal snapshot and
    every frame of the stack carry, per atom, the arg-max of the soft type
    channel plus one: the id [i] of an atom is such that entry [i - 1] of
    its row of soft weights is maximal in the row, and the first such; it
    is a species id between [1] and [MAX_ATOMIC_NUM]. *)
Theorem sample_full_trajectory `{Primitives} (self : CSPProperty.t) (batch : Batch.t)
    (uncod : CSPProperty.t) (diff_ratio step_lr aug : Qc) (g : rng)
    (final : Snapshot.t) (stk : TrajStack.t) (g' : rng) :
  (1 <= diff_ratio)%Qc ->
  CSPProperty.sample self batch uncod diff_ratio step_lr aug g = inr ((final, stk), g') ->
  let T := BetaScheduler.timesteps (CSPProperty.beta_scheduler self) in
  exists traj l_T x_T t_T,
    CSPProperty.sample_trajectory self batch uncod diff_ratio step_lr aug g
    = inr ((Z.of_nat T, traj), g')
    /\ (forall k, is_Some (traj !! k) <-> (0 <= k <= Z.of_nat T)%Z)
    /\ size traj = T + 1
    /\ upto (Z.of_nat T) traj = CSPProperty.initial_traj batch (Z.of_nat T) l_T x_T t_T
    /\ (forall time, (1 <= time <= Z.of_nat T)%Z ->
          upto time traj !! (time - 1)%Z = None
          /\ exists g1 g2 snap,
               CSPProperty.sample_step self uncod batch step_lr aug l_T x_T t_T
                                       (upto time traj) time g1
               = inr (upto (time - 1) traj, g2)
               /\ upto (time - 1) traj = <[(time - 1)%Z := snap]> (upto time traj))
    /\ length (TrajStack.atom_types stk) = T + 1
    /\ length (TrajStack.all_frac_coords stk) = T + 1
    /\ length (TrajStack.all_lattices stk) = T + 1
    /\ (forall i, i <= T ->
          exists s p ids,
            traj !! (Z.of_nat T - Z.of_nat i)%Z = Some s
            /\ Snapshot.atom_types s = Soft p
            /\ argmax_plus_1 p = inr ids
            /\ hard_ids p ids
            /\ TrajStack.atom_types stk !! i = Some ids
            /\ TrajStack.all_frac_coords stk !! i = Some (Snapshot.frac_coords s)
            /\ TrajStack.all_lattices stk !! i = Some (Snapshot.lattices s))
    /\ (exists res p ids,
          traj !! 0%Z = Some res
          /\ Snapshot.atom_types res = Soft p
          /\ argmax_plus_1 p = inr ids
          /\ hard_ids p ids
          /\ final = Snapshot.mk (Snapshot.num_atoms res) (Hard ids)
                                 (Snapshot.frac_coords res) (Snapshot.lattices res)
          /\ Forall (fun id => 1 <= id <= MAX_ATOMIC_NUM) ids)
    /\ Forall (Forall (fun id => 1 <= id <= MAX_ATOMIC_NUM)) (TrajStack.atom_types stk).
Proof.
  intros Hratio Hrun T.
  destruct (sample_from_noise self batch uncod diff_ratio step_lr aug g final stk g'
              Hratio Hrun)
    as (traj & l_T & x_T & t_T & H1 & H2 & H3 & H4 & H5 & H6 & H7 & H8 & H9 & H10 & H11).
  exists traj, l_T, x_T, t_T. fold T in H1, H2, H3, H4, H5, H6, H7, H8, H9.
  repeat (split; [assumption |]). split; [| split; [| exact H11]].
  - intros i Hi. destruct (H9 i Hi) as (s & p & ids & Hs & Hp & Hids & Hrest).
    exists s, p, ids. split; [exact Hs |]. split; [exact Hp |]. split; [exact Hids |].
    split; [apply argmax_plus_1_hard_ids; exact Hids | exact Hrest].
  - destruct H10 as (res & p & ids & Hs & Hp & Hids & Hrest).
    exists res, p, ids. split; [exact Hs |]. split; [exact Hp |]. split; [exact Hids |].
    split; [apply argmax_plus_1_hard_ids; exact Hids | exact Hrest].
Qed.

Lemma sample_full_trajectory_witness :
  match CSPProperty.sample (H := Toy.prims) (Toy.model false) Toy.batch
          (Toy.model false) 1 (Q2Qc (1 # 100)) 1 Toy.g0 with
  | inr ((final, stk), _) =>
      length (TrajStack.all_frac_coords stk) = 4
      /\ exists p ids, Snapshot.atom_types final = Hard ids
                       /\ hard_ids p ids
                       /\ Forall (fun id => 1 <= id <= 3) ids
  | inl _ => False
  end.
Proof.
  destruct (CSPProperty.sample (H := Toy.prims) (Toy.model false) Toy.batch
              (Toy.model false) 1 (Q2Qc (1 # 100)) 1 Toy.g0)
    as [e|[[final stk] g']] eqn:Hrun.
  { vm_compute in Hrun. discriminate Hrun. }
  assert (Hratio : (1 <= 1)%Qc) by discriminate.
  pose proof (sample_full_trajectory (H := Toy.prims) _ _ _ _ _ _ _ _ _ _ Hratio Hrun)
    as Hthm.
  cbv zeta in Hthm.
  destruct Hthm
    as (traj & l_T & x_T & t_T & _ & _ & _ & _ & _ & _ & Hlen & _ & _
        & (res & p & ids & _ & _ & _ & Hhard & -> & Hids) & _).
  split; [exact Hlen |]. exists p, ids. split; [reflexivity |].
  split; [exact Hhard | exact Hids].
Defined.

(** ** The forward corruption *)

Lemma draw_list_Forall {S A : Type} (draw : A -> S -> A * S) (P : A -> Prop)
    (l : list A) (s : S) :
  (forall a s, P (draw a s).1) -> Forall P (draw_list draw l s).1.
Proof.
  intros Hd. revert s. induction l as [|a l IH]; intros s; [constructor |].
  rewrite draw_list_cons. simpl. constructor; [apply Hd | apply IH].
Qed.

Lemma uniform_sample_t_range `{Primitives} (self : BetaScheduler.t) (n : nat) g times g' :
  BetaScheduler.uniform_sample_t self n g = inr (times, g') ->
  0 < BetaScheduler.timesteps self ->
  Forall (fun t => 1 <= t <= Z.of_nat (BetaScheduler.timesteps self))%Z times.
Proof.
  unfold BetaScheduler.uniform_sample_t. intros Hrun HT.
  match type of Hrun with ret (draw_list ?d ?l ?s) = _ =>
    pose proof (draw_list_Forall d
                  (fun t => 1 <= t <= Z.of_nat (BetaScheduler.timesteps self))%Z l s) as HF;
    destruct (draw_list d l s) as [ts gg]
  end.
  injection Hrun as <- <-. apply HF.
  intros _ s. destruct (randbelow (BetaScheduler.timesteps self) s) as [k s']. simpl.
  pose proof (Nat.mod_upper_bound k (BetaScheduler.timesteps self)). lia.
Qed.

Lemma owners_fmap_gen (f g : nat -> nat) (ns : list nat) :
  concat (imap (fun b n => replicate n (f (g b))) ns)
  = f <$> concat (imap (fun b n => replicate n (g b)) ns).
Proof.
  revert g. induction ns as [|n ns IH]; intros g; [reflexivity |].
  rewrite !imap_cons. simpl concat. rewrite fmap_app, fmap_replicate. f_equal.
  exact (IH (g ∘ S)).
Qed.

Lemma owners_fmap (f : nat -> nat) (ns : list nat) :
  concat (imap (fun b n => replicate n (f b)) ns) = f <$> owners ns.
Proof. exact (owners_fmap_gen f id ns). Qed.

Lemma owners_cons (n : nat) (ns : list nat) :
  owners (n :: ns) = replicate n 0 ++ (S <$> owners ns).
Proof.
  unfold owners at 1. rewrite imap_cons. simpl concat. f_equal.
  apply (owners_fmap S).
Qed.

Lemma repeat_each_owner {A : Type} (l : list A) (ns : list nat) (r : list A) :
  repeat_each l ns = inr r ->
  length r = length (owners ns)
  /\ forall a b, owners ns !! a = Some b -> r !! a = l !! b.
Proof.
  revert ns r. induction l as [|x l IH]; intros [|n ns] r Hrun; try discriminate.
  - injection Hrun as <-. split; [reflexivity |]. intros a b Ha. discriminate.
  - simpl in Hrun. inv_run.
    match goal with Hr : repeat_each l ns = inr ?rs |- _ =>
      destruct (IH ns rs Hr) as [Hlen Hown] end.
    rewrite owners_cons. split.
    + rewrite !length_app, (length_replicate n x), (length_replicate n 0), length_fmap. lia.
    + intros a b Ha. destruct (decide (a < n)) as [Hlt | Hge].
      * rewrite lookup_app_l in Ha by (rewrite length_replicate; exact Hlt).
        apply lookup_replicate in Ha as [-> _].
        rewrite lookup_app_l by (rewrite length_replicate; exact Hlt).
        simpl. apply lookup_replicate_2. exact Hlt.
      * rewrite lookup_app_r in Ha by (rewrite length_replicate; lia).
        rewrite lookup_app_r by (rewrite length_replicate; lia).
        rewrite (length_replicate n 0) in Ha. rewrite (length_replicate n x).
        rewrite list_lookup_fmap in Ha.
        apply fmap_Some in Ha as (b' & Hb' & ->). simpl. apply Hown. exact Hb'.
Qed.

Lemma repeat_interleave_owner {A : Type} (l : list A) (ns : list nat) (r : list A) :
  repeat_interleave l ns = inr r ->
  length ns = length l ->
  length r = length (owners ns)
  /\ forall a b, owners ns !! a = Some b -> r !! a = l !! b.
Proof.
  intros Hrun Hlen. apply repeat_each_owner.
  destruct ns as [|n [|n' ns]]; try exact Hrun.
  destruct l as [|x [|x' l]]; try discriminate.
  simpl in Hrun. injection Hrun as <-. simpl. rewrite !app_nil_r. reflexivity.
Qed.

Lemma unsqueeze_scale_lookup {A : Type} `{Tensor A} (c : vec) (t r : list A) b cb tb :
  unsqueeze_scale c t = inr r ->
  c !! b = Some cb -> t !! b = Some tb -> r !! b = Some (tscale cb tb).
Proof.
  unfold unsqueeze_scale. intros Hrun Hc Ht.
  destruct (zip_with_checked_lookup _ _ _ _ _ _ _ Hrun Hc Ht) as (x & Hx & Hr).
  injection Hr as <-. exact Hx.
Qed.

Lemma unsqueeze_scale_shape {A : Type} `{TensorLaws A} (c : vec) (t r : list A) :
  unsqueeze_scale c t = inr r -> same_shape r t /\ length c = length t.
Proof.
  unfold unsqueeze_scale, same_shape, zeros_like. simpl.
  revert t r. induction c as [|x c IH]; intros [|y t] r Hrun; try discriminate.
  - injection Hrun as <-. auto.
  - apply zip_with_checked_cons in Hrun as (z & zs & Hz & Hzs & ->).
    injection Hz as <-. apply IH in Hzs as [IH1 IH2]. simpl. rewrite IH1, IH2.
    split; [| reflexivity]. f_equal. apply (same_shape_tmap (Qcmult x) y).
Qed.

Lemma entry2_unsqueeze_scale (c : vec) (t r : mat) a k ca u :
  unsqueeze_scale c t = inr r ->
  c !! a = Some ca -> entry2 t a k = Some u -> entry2 r a k = Some (ca * u)%Qc.
Proof.
  unfold entry2. intros Hrun Hc Hu.
  destruct (t !! a) as [ta|] eqn:Hta; [| discriminate]. simpl in Hu.
  rewrite (unsqueeze_scale_lookup _ _ _ _ _ _ Hrun Hc Hta). simpl.
  unfold tscale. simpl. change (map ?f ?l) with (f <$> l).
  rewrite list_lookup_fmap, Hu. reflexivity.
Qed.

Lemma entry3_unsqueeze_scale (c : vec) (t r : tensor3) b i j cb u :
  unsqueeze_scale c t = inr r ->
  c !! b = Some cb -> entry3 t b i j = Some u -> entry3 r b i j = Some (cb * u)%Qc.
Proof.
  unfold entry3. intros Hrun Hc Hu.
  destruct (t !! b) as [tb|] eqn:Htb; [| discriminate]. simpl in Hu.
  rewrite (unsqueeze_scale_lookup _ _ _ _ _ _ Hrun Hc Htb). simpl.
  apply entry2_tscale. exact Hu.
Qed.


(** C2 (as the code has it): when the module is not time-independent,
    [forward] returns the L1 distance between the prediction of the enabled
    head (the graph-level head if both are enabled) on the corrupted state
    and [batch.y]; the state is corrupted entry by entry as
    [forward_on_corrupted_state] says, each structure at its own sampled
    timestep. *)
Theorem forward_loss_on_corrupted_state `{Primitives} (self : CSPProperty.t)
    (batch : Batch.t) (g : rng) (loss : Qc) (g' : rng) :
  CSPProperty.time_independent self = false ->
  length (Batch.num_atoms batch) = Batch.num_graphs batch ->
  CSPProperty.forward self batch g = inr (loss, g') ->
  forward_on_corrupted_state self batch g loss g'.
Proof.
  intros Hti Hna Hrun. unfold CSPProperty.forward in Hrun. rewrite Hti in Hrun.
  apply bindM_inr in Hrun as (times & g1 & Htimes & Hrun).
  apply bindM_inr in Hrun as (time_emb & g1' & Hemb & Hrun).
  apply lift_inr in Hemb as [Hemb ->].
  apply bindM_inr in Hrun as (eps_l & g2 & Hepsl & Hrun).
  apply bindM_inr in Hrun as (eps_x & g3 & Hepsx & Hrun).
  apply bindM_inr in Hrun as (l_t & g3' & Hlt & Hrun).
  apply lift_inr in Hlt as [Hlt ->].
  apply bindM_inr in Hrun as (spa & g3' & Hspa & Hrun).
  apply lift_inr in Hspa as [Hspa ->].
  apply bindM_inr in Hrun as (x_t & g3' & Hxt & Hrun).
  apply lift_inr in Hxt as [Hxt ->].
  apply bindM_inr in Hrun as (onehot & g3' & Hoh & Hrun).
  apply lift_inr in Hoh as [Hoh ->].
  apply bindM_inr in Hrun as (eps_t & g4 & Hepst & Hrun).
  apply bindM_inr in Hrun as (c0r & g4' & Hc0r & Hrun).
  apply lift_inr in Hc0r as [Hc0r ->].
  apply bindM_inr in Hrun as (c1r & g4' & Hc1r & Hrun).
  apply lift_inr in Hc1r as [Hc1r ->].
  apply bindM_inr in Hrun as (a_t & g4' & Hat & Hrun).
  apply lift_inr in Hat as [Hat ->].
  apply bindM_inr in Hrun as ([[[[px pl] pt] pg] pn] & g4' & Hcall & Hrun).
  apply lift_inr in Hcall as [Hcall ->].
  destruct (uniform_sample_t_length (CSPProperty.beta_scheduler self)
              (Batch.num_graphs batch) g) as (times' & g1'' & Htimes' & Hlen).
  rewrite Htimes in Htimes'. injection Htimes' as <- <-.
  (* the three corrupted tensors *)
  apply bind_inr in Hlt as (la & Hla & Hlt). apply bind_inr in Hlt as (lb & Hlb & Hlt).
  apply bind_inr in Hxt as (xn & Hxn & Hxt). apply bind_inr in Hxt as (xs & Hxs & Hxt).
  injection Hxt as <-.
  apply bind_inr in Hat as (aa & Haa & Hat). apply bind_inr in Hat as (ab & Hab & Hat).
  assert (Hlen' : length (Batch.num_atoms batch) = length times) by congruence.
  destruct (repeat_interleave_owner _ _ _ Hspa) as [_ Ospa];
    [rewrite length_fmap; exact Hlen' |].
  destruct (repeat_interleave_owner _ _ _ Hc0r) as [_ Oc0];
    [rewrite !length_fmap; exact Hlen' |].
  destruct (repeat_interleave_owner _ _ _ Hc1r) as [_ Oc1];
    [rewrite !length_fmap; exact Hlen' |].
  unfold forward_on_corrupted_state. cbv zeta.
  exists times, g1, time_emb, eps_l, g2, eps_x, g3, onehot, eps_t, l_t, (wrap xs), a_t,
         px, pl, pt, pg, pn.
  split; [exact Htimes |]. split; [exact Hlen |].
  split; [intros HT; eapply uniform_sample_t_range; eassumption |].
  split; [exact Hemb |]. split; [exact Hepsl |]. split; [exact Hepsx |].
  split; [exact Hoh |].
  assert (Hg' : g' = g4 /\
                (Decoder.pred_graph_level (CSPProperty.decoder self) = true
                 \/ Decoder.pred_node_level (CSPProperty.decoder self) = true)
                /\ l1_loss (if Decoder.pred_graph_level (CSPProperty.decoder self)
                            then pg else pn) (Batch.y batch) = inr loss).
  { destruct (Decoder.pred_graph_level (CSPProperty.decoder self)).
    - apply lift_inr in Hrun as [Hl ->]. auto.
    - destruct (Decoder.pred_node_level (CSPProperty.decoder self)); [| discriminate].
      apply lift_inr in Hrun as [Hl ->]. auto. }
  destruct Hg' as (-> & Hlevel & Hloss).
  split; [exact Hepst |].
  split.
  { pose proof (tmap2_shape _ _ _ _ Hlt) as [_ S1].
    pose proof (unsqueeze_scale_shape _ _ _ Hla) as [S2 _].
    eapply same_shape_trans; eassumption. }
  split.
  { pose proof (tmap2_shape _ _ _ _ Hxs) as [_ S1].
    eapply same_shape_trans; [apply same_shape_tmap | exact S1]. }
  split.
  { pose proof (tmap2_shape _ _ _ _ Hat) as [_ S1].
    pose proof (unsqueeze_scale_shape _ _ _ Haa) as [S2 _].
    eapply same_shape_trans; eassumption. }
  split.
  { intros b i j t l0 e Ht Hl0 He.
    eapply entry3_tmap2; [exact Hlt | |].
    - eapply entry3_unsqueeze_scale; [exact Hla | | exact Hl0].
      rewrite !list_lookup_fmap, Ht. reflexivity.
    - eapply entry3_unsqueeze_scale; [exact Hlb | | exact He].
      rewrite !list_lookup_fmap, Ht. reflexivity. }
  split.
  { intros a k b t x0 e Hown Ht Hx0 He.
    rewrite entry2_wrap.
    erewrite entry2_tmap2; [reflexivity | exact Hxs | exact Hx0 |].
    eapply entry2_unsqueeze_scale; [exact Hxn | | exact He].
    rewrite (Ospa _ _ Hown), list_lookup_fmap, Ht. reflexivity. }
  split.
  { intros a k b t h e Hown Ht Hh He.
    eapply entry2_tmap2; [exact Hat | |].
    - eapply entry2_unsqueeze_scale; [exact Haa | | exact Hh].
      rewrite (Oc0 _ _ Hown), !list_lookup_fmap, Ht. reflexivity.
    - eapply entry2_unsqueeze_scale; [exact Hab | | exact He].
      rewrite (Oc1 _ _ Hown), !list_lookup_fmap, Ht. reflexivity. }
  split; [exact Hcall |]. split; [exact Hlevel | exact Hloss].
Qed.
Lemma forward_loss_on_corrupted_state_witness :
  match CSPProperty.forward (H := Toy.prims) (Toy.model false) Toy.batch Toy.g0 with
  | inr (loss, g') =>
      forward_on_corrupted_state (H := Toy.prims) (Toy.model false) Toy.batch Toy.g0
                                 loss g'
  | inl _ => False
  end.
Proof.
  destruct (CSPProperty.forward (H := Toy.prims) (Toy.model false) Toy.batch Toy.g0)
    as [e|[loss g']] eqn:Hrun.
  { vm_compute in Hrun. discriminate Hrun. }
  apply (forward_loss_on_corrupted_state (H := Toy.prims)).
  - reflexivity.
  - reflexivity.
  - exact Hrun.
Defined.

(** C2 as stated fails for a time-independent module: [forward] then feeds
    the clean state to the backbone, and the loss it returns is not the
    L1 distance on the corrupted state. *)
Lemma forward_loss_on_corrupted_state_counterexample :
  exists loss g',
    CSPProperty.forward (H := Toy.prims) (Toy.model true) Toy.batch Toy.g0
    = inr (loss, g')
    /\ ~ forward_on_corrupted_state (H := Toy.prims) (Toy.model true) Toy.batch Toy.g0
                                    loss g'.
Proof.
  destruct (CSPProperty.forward (H := Toy.prims) (Toy.model true) Toy.batch Toy.g0)
    as [e|[loss g']] eqn:Hrun.
  { vm_compute in Hrun. discriminate Hrun. }
  exists loss, g'. split; [reflexivity |].
  intros (times & g1 & time_emb & eps_l & g2 & eps_x & g3 & onehot & eps_t & l_t & x_t
          & a_t & px & pl & pt & pg & pn
          & Htimes & _ & _ & _ & Hepsl & Hepsx & _ & _ & _ & Sx & _ & _ & Hx & _
          & Hcall & _ & Hloss).
  vm_compute in Htimes. injection Htimes as <- <-.
  vm_compute in Hepsl. injection Hepsl as <- <-.
  vm_compute in Hepsx. injection Hepsx as <- <-.
  pose proof (Hx 0 0 0 _ _ _ eq_refl eq_refl eq_refl eq_refl) as H00.
  pose proof (Hx 1 0 1 _ _ _ eq_refl eq_refl eq_refl eq_refl) as H10.
  unfold same_shape, zeros_like in Sx. simpl in Sx.
  destruct x_t as [|[|a [|b [|c [|]]]] [|[|d [|e' [|f [|]]]] [|]]]; try discriminate Sx.
  cbn in H00, H10. injection H00 as ->. injection H10 as ->.
  simpl in Hcall. injection Hcall as <- <- <- <- <-.
  vm_compute in Hloss. vm_compute in Hrun.
  injection Hrun as Hr _. injection Hloss as Hl. rewrite <- Hr in Hl.
  apply (f_equal this) in Hl. discriminate Hl.
Qed.

Section Refusals.

Context `{Primitives}.

Import CSPProperty.

(** From noise: with [diff_ratio] at 1 or above and a module that is not
    time-independent the start of the samplers always succeeds, at the
    last timestep. *)
Lemma initial_state_full_total (self : t) (batch : Batch.t) (diff_ratio : Qc) g :
  time_independent self = false ->
  (1 <= diff_ratio)%Qc ->
  exists l_T x_T t_T g',
    initial_state self batch diff_ratio g
    = inr ((Z.of_nat (BetaScheduler.timesteps (beta_scheduler self)), l_T, x_T, t_T), g').
Proof.
  intros Hti Hratio. unfold initial_state. rewrite Hti.
  destruct (Qclt_le_dec diff_ratio 1) as [Hlt | _].
  { exfalso. apply Qclt_not_le in Hlt. contradiction. }
  unfold randn_like, bindM, lift, retM, ret.
  repeat match goal with
         | |- context [tdraw ?d ?a ?s] => destruct (tdraw d a s)
         end.
  eauto.
Qed.

Lemma time_embedding_total (emb : SinusoidalTimeEmbeddings.t) (times : list Z) :
  (SinusoidalTimeEmbeddings.dim emb / 2 <> 1)%nat ->
  exists e, SinusoidalTimeEmbeddings.forward emb times = inr e.
Proof.
  intros Hdim. pose proof (zeroed_time_embedding emb times) as Hz.
  cbv zeta in Hz.
  destruct (SinusoidalTimeEmbeddings.forward emb times) as [e|e]; [| eauto].
  exfalso. destruct Hz as [_ Hz]. apply Hdim. lia.
Qed.

(** A step of either sampler on a module with a latent dimension. *)
Lemma predictor_state_latent (self uncod : t) (batch : Batch.t) (step_lr : Qc)
    (l_T : tensor3) (x_T t_T : mat) (traj : gmap Z Snapshot.t) (time : Z) g :
  (SinusoidalTimeEmbeddings.dim (time_embedding self) / 2 <> 1)%nat ->
  (0 < latent_dim self)%Z ->
  predictor_state self uncod batch step_lr l_T x_T t_T traj time g
  = inl NotImplementedError.
Proof.
  intros Hdim Hlat. unfold predictor_state.
  destruct (time_embedding_total (time_embedding self)
              (replicate (Batch.num_graphs batch) time) Hdim) as [e He].
  rewrite bindM_lift, He. rewrite bindM_lift.
  rewrite decide_True by exact Hlat. reflexivity.
Qed.

End Refusals.

(** X1: A module with a latent dimension cannot denoise: as soon as the reverse
    loop is entered (at least one timestep, time embedding of a usable
    width) both samplers raise [NotImplementedError], at the first step. *)
Theorem samplers_refuse_latent_dim `{Primitives} (self : CSPProperty.t)
    (batch : Batch.t) (uncod : CSPProperty.t) (diff_ratio step_lr aug : Qc)
    (mask : option vec) (g : rng) :
  CSPProperty.time_independent self = false ->
  (1 <= diff_ratio)%Qc ->
  0 < BetaScheduler.timesteps (CSPProperty.beta_scheduler self) ->
  (SinusoidalTimeEmbeddings.dim (CSPProperty.time_embedding self) / 2 <> 1)%nat ->
  (0 < CSPProperty.latent_dim self)%Z ->
  CSPProperty.sample self batch uncod diff_ratio step_lr aug g = inl NotImplementedError
  /\ CSPProperty.masked_sample self batch uncod diff_ratio step_lr aug mask g
     = inl NotImplementedError.
Proof.
  intros Hti Hratio HT Hdim Hlat.
  destruct (initial_state_full_total self batch diff_ratio g Hti Hratio)
    as (l_T & x_T & t_T & g1 & Hinit).
  destruct (BetaScheduler.timesteps (CSPProperty.beta_scheduler self)) as [|n] eqn:HTn;
    [lia |].
  split.
  - unfold CSPProperty.sample, CSPProperty.sample_trajectory, bindM.
    rewrite Hinit. rewrite range_down_succ by lia. cbn [for_each].
    unfold CSPProperty.sample_step, bindM.
    rewrite predictor_state_latent by assumption. reflexivity.
  - unfold CSPProperty.masked_sample, CSPProperty.masked_sample_trajectory, bindM.
    rewrite Hinit. rewrite range_down_succ by lia. cbn [for_each].
    unfold CSPProperty.masked_sample_step, bindM.
    rewrite predictor_state_latent by assumption. reflexivity.
Qed.

Lemma samplers_refuse_latent_dim_witness :
  CSPProperty.sample (H := Toy.prims)
    (CSPProperty.mk Toy.decoder Toy.beta_scheduler Toy.sigma_scheduler 8
                    (SinusoidalTimeEmbeddings.mk 8) false 16)
    Toy.batch (Toy.model false) 1 (Q2Qc (1 # 100)) 1 Toy.g0
  = inl NotImplementedError.
Proof.
  apply (samplers_refuse_latent_dim (H := Toy.prims) _ _ _ _ _ _ None).
  - reflexivity.
  - discriminate.
  - simpl. lia.
  - simpl. discriminate.
  - reflexivity.
Defined.

(** ** The start of the samplers and the default mask *)

Section Start.

Context `{Primitives}.

Import CSPProperty.

Lemma initial_state_start (self : t) (batch : Batch.t) (diff_ratio : Qc) g
    time_start l_T x_T t_T g' :
  initial_state self batch diff_ratio g = inr ((time_start, l_T, x_T, t_T), g') ->
  time_start = start_time self diff_ratio.
Proof.
  unfold initial_state, start_time. intros Hrun.
  destruct (Qclt_le_dec diff_ratio 1); unfold randn_like in Hrun; inv_run;
    match goal with
    | Hx : (time_start, l_T, x_T, t_T) = _ |- _ => injection Hx as -> _ _ _
    end; reflexivity.
Qed.

Lemma range_down_cons (start : Z) :
  (1 <= start)%Z -> range_down start 0 = start :: range_down (start - 1) 0.
Proof.
  intros Hs. replace start with (Z.of_nat (S (Z.to_nat (start - 1)))) at 1 2 by lia.
  rewrite range_down_succ by lia. do 2 f_equal. lia.
Qed.

End Start.

(** X2: [masked_sample] cannot be used with its default [mask=None]: whenever
    the reverse loop is entered (the start timestep is at least 1) the call
    raises and returns no result. *)
Theorem masked_sample_needs_mask `{Primitives} (self : CSPProperty.t)
    (batch : Batch.t) (uncod : CSPProperty.t) (diff_ratio step_lr aug : Qc) (g : rng) :
  (1 <= start_time self diff_ratio)%Z ->
  forall r, CSPProperty.masked_sample self batch uncod diff_ratio step_lr aug None g
            <> inr r.
Proof.
  intros Hstart [[final stk] g'] Hrun.
  unfold CSPProperty.masked_sample in Hrun.
  apply bindM_inr in Hrun as ([ts traj] & g1 & Htraj & _).
  unfold CSPProperty.masked_sample_trajectory in Htraj.
  apply bindM_inr in Htraj as ([[[ts0 l_T] x_T] t_T] & g0 & Hinit & Hloop).
  apply bindM_inr in Hloop as (traj1 & g2 & Hloop & _).
  apply initial_state_start in Hinit. subst ts0.
  rewrite range_down_cons in Hloop by exact Hstart.
  apply for_each_cons in Hloop as (traj2 & g3 & Hstep & _).
  apply masked_sample_step_inr in Hstep as (v & snap & _ & Hup & _).
  apply masked_sample_update_inr in Hup as (m & ? & ? & ? & ? & ? & ? & ? & ? & ? & ?
                                            & ? & ? & ? & Hm & _).
  discriminate Hm.
Qed.

Lemma masked_sample_needs_mask_witness :
  (1 <= start_time (Toy.model false) 1)%Z
  /\ forall r, CSPProperty.masked_sample (H := Toy.prims) (Toy.model false) Toy.batch
                 (Toy.model false) 1 (Q2Qc (1 # 100)) 1 None Toy.g0 <> inr r.
Proof.
  assert (Hstart : (1 <= start_time (Toy.model false) 1)%Z)
    by (vm_compute; discriminate).
  split; [exact Hstart |].
  exact (masked_sample_needs_mask (H := Toy.prims) (Toy.model false) Toy.batch
           (Toy.model false) 1 (Q2Qc (1 # 100)) 1 Toy.g0 Hstart).
Defined.

(** ** The terminal snapshot and the stack *)

Lemma stack_trajectory_start (batch : Batch.t) (time_start : Z)
    (traj : gmap Z Snapshot.t) (r : Snapshot.t * TrajStack.t) :
  CSPProperty.stack_trajectory batch time_start traj = inr r -> (0 <= time_start)%Z.
Proof.
  unfold CSPProperty.stack_trajectory. intros Hrun.
  destruct (decide (0 <= time_start)%Z) as [Hs | Hs]; [exact Hs | exfalso].
  assert (Hkeys : range_down time_start (-1) = []).
  { unfold range_down. replace (Z.to_nat (time_start - -1)) with 0 by lia. reflexivity. }
  rewrite Hkeys in Hrun. simpl in Hrun. discriminate Hrun.
Qed.

Lemma stack_trajectory_last (batch : Batch.t) (time_start : Z)
    (traj : gmap Z Snapshot.t) (final : Snapshot.t) (stk : TrajStack.t) :
  CSPProperty.stack_trajectory batch time_start traj = inr (final, stk) ->
  exists ids,
    Snapshot.atom_types final = Hard ids
    /\ last (TrajStack.atom_types stk) = Some ids
    /\ last (TrajStack.all_frac_coords stk) = Some (Snapshot.frac_coords final)
    /\ last (TrajStack.all_lattices stk) = Some (Snapshot.lattices final)
    /\ TrajStack.num_atoms stk = Batch.num_atoms batch.
Proof.
  intros Hrun. pose proof (stack_trajectory_start _ _ _ _ Hrun) as Hs.
  assert (Hnum : TrajStack.num_atoms stk = Batch.num_atoms batch).
  { unfold CSPProperty.stack_trajectory in Hrun. inv_run. reflexivity. }
  destruct (stack_trajectory_inr _ _ _ _ _ Hrun)
    as (Lt & Lc & Ll & Hentries & res & p & ids & Hres & Hp & Hids & ->).
  destruct (Hentries (Z.to_nat time_start)) as (s & q & ids' & Hs' & Hq & Hids' & Et & Ec & El);
    [lia |].
  replace (time_start - Z.of_nat (Z.to_nat time_start))%Z with 0%Z in Hs' by lia.
  rewrite Hres in Hs'. injection Hs' as <-.
  rewrite Hp in Hq. injection Hq as <-.
  rewrite Hids in Hids'. injection Hids' as <-.
  exists ids. cbn [Snapshot.atom_types Snapshot.frac_coords Snapshot.lattices].
  rewrite !last_lookup, Lt, Lc, Ll.
  replace (Nat.pred (Z.to_nat (time_start + 1))) with (Z.to_nat time_start) by lia.
  auto.
Qed.

(** X3: What [sample] and [masked_sample] return fits together: the terminal
    snapshot is the last frame of the returned stack, with the same
    species ids, coordinates and lattice, and the stack carries the atom
    counts of the batch. *)
Theorem terminal_snapshot_is_last_frame `{Primitives} (self : CSPProperty.t)
    (batch : Batch.t) (uncod : CSPProperty.t) (diff_ratio step_lr aug : Qc)
    (mask : option vec) (g : rng) (final : Snapshot.t) (stk : TrajStack.t) (g' : rng) :
  CSPProperty.sample self batch uncod diff_ratio step_lr aug g = inr ((final, stk), g')
  \/ CSPProperty.masked_sample self batch uncod diff_ratio step_lr aug mask g
     = inr ((final, stk), g') ->
  exists ids,
    Snapshot.atom_types final = Hard ids
    /\ last (TrajStack.atom_types stk) = Some ids
    /\ last (TrajStack.all_frac_coords stk) = Some (Snapshot.frac_coords final)
    /\ last (TrajStack.all_lattices stk) = Some (Snapshot.lattices final)
    /\ TrajStack.num_atoms stk = Batch.num_atoms batch.
Proof.
  intros [Hrun | Hrun].
  - unfold CSPProperty.sample in Hrun.
    apply bindM_inr in Hrun as ([ts traj] & g1 & _ & Hstack).
    apply lift_inr in Hstack as [Hstack _].
    eapply stack_trajectory_last. exact Hstack.
  - unfold CSPProperty.masked_sample in Hrun.
    apply bindM_inr in Hrun as ([ts traj] & g1 & _ & Hstack).
    apply lift_inr in Hstack as [Hstack _].
    eapply stack_trajectory_last. exact Hstack.
Qed.

Lemma terminal_snapshot_is_last_frame_witness :
  match CSPProperty.masked_sample (H := Toy.prims) (Toy.model false) Toy.batch
          (Toy.model false) 1 (Q2Qc (1 # 100)) 1 (Some [1%Qc; 0%Qc]) Toy.g0 with
  | inr ((final, stk), _) =>
      exists ids, Snapshot.atom_types final = Hard ids
                  /\ last (TrajStack.atom_types stk) = Some ids
  | inl _ => False
  end.
Proof.
  destruct (CSPProperty.masked_sample (H := Toy.prims) (Toy.model false) Toy.batch
              (Toy.model false) 1 (Q2Qc (1 # 100)) 1 (Some [1%Qc; 0%Qc]) Toy.g0)
    as [e|[[final stk] g']] eqn:Hrun.
  { vm_compute in Hrun. discriminate Hrun. }
  destruct (terminal_snapshot_is_last_frame (H := Toy.prims) _ _ _ _ _ _ _ _ _ _ _
              (or_intror Hrun)) as (ids & Hids & Hlast & _).
  exists ids. split; assumption.
Defined.

(** ** Sampling from a partially noised batch *)

Section Partial.

Context `{Primitives}.

Import CSPProperty.

Lemma randn_like_shape {A : Type} `{TensorLaws A} (t r : A) g g' :
  randn_like t g = inr (r, g') -> same_shape r t.
Proof.
  intros Hrun.
  assert (Hd : tdraw randn t g = (r, g')) by (unfold randn_like, ret in Hrun; congruence).
  pose proof (tdraw_shape rng randn t g) as S. rewrite Hd in S. exact S.
Qed.

(** With [diff_ratio] below 1 the sampler starts from the batch, noised
    as at the start timestep. *)
Lemma initial_state_partial (self : t) (batch : Batch.t) (diff_ratio : Qc) g
    time_start l_T x_T t_T g' :
  (diff_ratio < 1)%Qc ->
  initial_state self batch diff_ratio g = inr ((time_start, l_T, x_T, t_T), g') ->
  let lattices :=
    lattice_params_to_matrix_torch (Batch.lengths batch) (Batch.angles batch) in
  let abar := BetaScheduler.alphas_cumprod (beta_scheduler self) time_start in
  let sigma := SigmaScheduler.sigmas (sigma_scheduler self) time_start in
  exists onehot rand_l rand_x rand_t x_s,
    one_hot ((fun i => i - 1)%Z <$> Batch.atom_types batch) MAX_ATOMIC_NUM = inr onehot
    /\ same_shape rand_l lattices
    /\ same_shape rand_x (Batch.frac_coords batch)
    /\ same_shape rand_t onehot
    /\ tadd (tscale (fsqrt abar) lattices) (tscale (fsqrt (1 - abar)) rand_l) = inr l_T
    /\ tadd (Batch.frac_coords batch) (tscale sigma rand_x) = inr x_s
    /\ x_T = wrap x_s
    /\ tadd (tscale (fsqrt abar) onehot) (tscale (fsqrt (1 - abar)) rand_t) = inr t_T.
Proof.
  intros Hratio Hrun. pose proof (initial_state_start _ _ _ _ _ _ _ _ _ Hrun) as Hts.
  unfold initial_state in Hrun.
  destruct (Qclt_le_dec diff_ratio 1) as [_ | Hge].
  2: { exfalso. apply Qclt_not_le in Hratio. contradiction. }
  unfold start_time in Hts.
  destruct (Qclt_le_dec diff_ratio 1) as [_ | Hge].
  2: { exfalso. apply Qclt_not_le in Hratio. contradiction. }
  rewrite <- Hts in Hrun. clear Hts.
  apply bindM_inr in Hrun as (u & g1 & _ & Hrun).
  apply bindM_inr in Hrun as (l0 & g2 & _ & Hrun).
  apply bindM_inr in Hrun as (x0 & g3 & _ & Hrun).
  apply bindM_inr in Hrun as (t0 & g4 & _ & Hrun).
  apply bindM_inr in Hrun as (onehot & g5 & Hoh & Hrun).
  apply lift_inr in Hoh as [Hoh ->].
  apply bindM_inr in Hrun as (rand_l & g6 & Hrl & Hrun).
  apply bindM_inr in Hrun as (rand_x & g7 & Hrx & Hrun).
  apply bindM_inr in Hrun as (rand_t & g8 & Hrt & Hrun).
  apply bindM_inr in Hrun as (l1 & g9 & Hl & Hrun).
  apply lift_inr in Hl as [Hl ->].
  apply bindM_inr in Hrun as (x1 & g9 & Hx & Hrun).
  apply lift_inr in Hx as [Hx ->].
  apply bindM_inr in Hrun as (t1 & g9 & Ht & Hrun).
  apply lift_inr in Ht as [Ht ->].
  apply retM_inr in Hrun as [[= -> -> ->] _].
  apply bind_inr in Hx as (x_s & Hxs & [= <-]).
  intros lattices abar sigma.
  exists onehot, rand_l, rand_x, rand_t, x_s.
  split; [exact Hoh |].
  split; [eapply randn_like_shape; exact Hrl |].
  split; [eapply randn_like_shape; exact Hrx |].
  split; [eapply randn_like_shape; exact Hrt |].
  auto.
Qed.

Variables (self uncod : t) (batch : Batch.t) (step_lr aug : Qc).

(** The trajectory of a run of [sample] that returns, whatever the
    start is. *)
Lemma sample_run (diff_ratio : Qc) g final stk g' :
  sample self batch uncod diff_ratio step_lr aug g = inr ((final, stk), g') ->
  let ts := start_time self diff_ratio in
  exists traj l_T x_T t_T g0,
    initial_state self batch diff_ratio g = inr ((ts, l_T, x_T, t_T), g0)
    /\ sample_trajectory self batch uncod diff_ratio step_lr aug g = inr ((ts, traj), g')
    /\ stack_trajectory batch ts traj = inr (final, stk)
    /\ (0 <= ts)%Z
    /\ (forall k, is_Some (traj !! k) <-> (0 <= k <= ts)%Z)
    /\ size traj = Z.to_nat ts + 1
    /\ upto ts traj = initial_traj batch ts l_T x_T t_T
    /\ (forall time, (1 <= time <= ts)%Z ->
          upto time traj !! (time - 1)%Z = None
          /\ exists g1 g2 snap,
               sample_step self uncod batch step_lr aug l_T x_T t_T
                           (upto time traj) time g1
               = inr (upto (time - 1) traj, g2)
               /\ upto (time - 1) traj = <[(time - 1)%Z := snap]> (upto time traj)).
Proof.
  intros Hrun ts. unfold sample in Hrun.
  apply bindM_inr in Hrun as ([ts' traj] & g1 & Htraj & Hstack).
  apply lift_inr in Hstack as [Hstack ->].
  pose proof Htraj as Hloop. unfold sample_trajectory in Hloop.
  apply bindM_inr in Hloop as ([[[ts0 l_T] x_T] t_T] & g0 & Hinit & Hloop).
  apply bindM_inr in Hloop as (traj1 & g2 & Hloop & Hret).
  apply retM_inr in Hret as [[= <- <-] <-].
  pose proof (initial_state_start _ _ _ _ _ _ _ _ _ Hinit) as ->. fold ts in Hinit, Hloop,
    Htraj, Hstack.
  pose proof (stack_trajectory_start _ _ _ _ Hstack) as Hts.
  assert (Hkeys0 : forall k, is_Some (initial_traj batch ts l_T x_T t_T !! k) ->
                             (Z.of_nat (Z.to_nat ts) <= k)%Z).
  { intros k [s Hs]. unfold initial_traj in Hs.
    apply lookup_singleton_Some in Hs as [<- _]. lia. }
  replace ts with (Z.of_nat (Z.to_nat ts)) in Hloop at 1 by lia.
  destruct (sample_loop _ _ _ _ _ _ _ _ _ _ _ _ _ Hloop Hkeys0)
    as (Hup & Hsize & Hlow & Hnonneg & Hsteps).
  replace (Z.of_nat (Z.to_nat ts)) with ts in * by lia.
  exists traj, l_T, x_T, t_T, g0.
  split; [exact Hinit |]. split; [exact Htraj |]. split; [exact Hstack |].
  split; [exact Hts |].
  split.
  { intros k. split.
    - intros Hk. split; [apply Hnonneg; exact Hk |].
      destruct (decide (k <= ts)%Z) as [Hle | Hgt]; [exact Hle |].
      exfalso. assert (Hk' : is_Some (upto ts traj !! k)).
      { rewrite upto_lookup. rewrite decide_True by lia. exact Hk. }
      rewrite Hup in Hk'. destruct Hk' as [s Hs]. unfold initial_traj in Hs.
      apply lookup_singleton_Some in Hs as [<- _]. lia.
    - intros [Hk0 HkT]. destruct (decide (k = ts)) as [-> | Hne].
      + assert (Hk' : is_Some (upto ts traj !! ts)).
        { rewrite Hup. unfold initial_traj. rewrite lookup_singleton_eq. eauto. }
        rewrite upto_lookup in Hk'. rewrite decide_True in Hk' by lia. exact Hk'.
      + apply Hlow. lia. }
  split.
  { rewrite Hsize. unfold initial_traj. rewrite map_size_singleton. lia. }
  split; [exact Hup | exact Hsteps].
Qed.

End Partial.

(** X4: A call of [sample] with [diff_ratio] below 1 that returns has started
    at the timestep [int(T * diff_ratio)], the integer part of the product
    rounded to a Python float, which is then not negative (a negative
    start leaves nothing to stack and the call raises), from the
    batch noised as at that timestep: lattice [sqrt(abar) * l_0 + sqrt(1 -
    abar) * eps], coordinates [(x_0 + sigma * eps) mod 1], types [sqrt(abar)
    * onehot + sqrt(1 - abar) * eps], with one [abar], [sigma] for all
    structures.  Its trajectory holds the snapshots of the timesteps from
    the start down to [0] and no other, each step having stored the one
    below, and the stack lists them in that order. *)
Theorem sample_partial_trajectory `{Primitives} (self : CSPProperty.t) (batch : Batch.t)
    (uncod : CSPProperty.t) (diff_ratio step_lr aug : Qc) (g : rng)
    (final : Snapshot.t) (stk : TrajStack.t) (g' : rng) :
  (diff_ratio < 1)%Qc ->
  CSPProperty.sample self batch uncod diff_ratio step_lr aug g = inr ((final, stk), g') ->
  let T := Z.of_nat (BetaScheduler.timesteps (CSPProperty.beta_scheduler self)) in
  let ts := int_trunc (float_mul (Z2Qc T) diff_ratio) in
  let lattices :=
    lattice_params_to_matrix_torch (Batch.lengths batch) (Batch.angles batch) in
  let abar := BetaScheduler.alphas_cumprod (CSPProperty.beta_scheduler self) ts in
  let sigma := SigmaScheduler.sigmas (CSPProperty.sigma_scheduler self) ts in
  (0 <= ts)%Z
  /\ exists traj l_T x_s t_T onehot rand_l rand_x rand_t,
       CSPProperty.sample_trajectory self batch uncod diff_ratio step_lr aug g
       = inr ((ts, traj), g')
       /\ (forall k, is_Some (traj !! k) <-> (0 <= k <= ts)%Z)
       /\ size traj = Z.to_nat ts + 1
       /\ traj !! ts = Some (Snapshot.mk (Batch.num_atoms batch) (Soft t_T)
                                         (wrap (wrap x_s)) l_T)
       /\ one_hot ((fun i => i - 1)%Z <$> Batch.atom_types batch) MAX_ATOMIC_NUM
          = inr onehot
       /\ same_shape rand_l lattices
       /\ same_shape rand_x (Batch.frac_coords batch)
       /\ same_shape rand_t onehot
       /\ tadd (tscale (fsqrt abar) lattices) (tscale (fsqrt (1 - abar)) rand_l) = inr l_T
       /\ tadd (Batch.frac_coords batch) (tscale sigma rand_x) = inr x_s
       /\ tadd (tscale (fsqrt abar) onehot) (tscale (fsqrt (1 - abar)) rand_t) = inr t_T
       /\ (forall time, (1 <= time <= ts)%Z ->
             upto time traj !! (time - 1)%Z = None
             /\ exists snap, upto (time - 1) traj = <[(time - 1)%Z := snap]> (upto time traj))
       /\ length (TrajStack.all_frac_coords stk) = Z.to_nat ts + 1
       /\ length (TrajStack.all_lattices stk) = Z.to_nat ts + 1
       /\ length (TrajStack.atom_types stk) = Z.to_nat ts + 1.
Proof.
  intros Hratio Hrun T ts lattices abar sigma.
  destruct (sample_run _ _ _ _ _ _ _ _ _ _ Hrun)
    as (traj & l_T & x_T & t_T & g0 & Hinit & Htraj & Hstack & Hts & Hkeys & Hsize
        & Hup & Hsteps).
  assert (Hstart : start_time self diff_ratio = ts).
  { unfold start_time. destruct (Qclt_le_dec diff_ratio 1) as [_ | Hge]; [reflexivity |].
    exfalso. apply Qclt_not_le in Hratio. contradiction. }
  rewrite Hstart in *.
  split; [exact Hts |].
  destruct (initial_state_partial _ _ _ _ _ _ _ _ _ Hratio Hinit)
    as (onehot & rand_l & rand_x & rand_t & x_s & Hoh & Sl & Sx & St & Hl & Hx & -> & Ht).
  destruct (stack_trajectory_inr _ _ _ _ _ Hstack) as (Lt & Lc & Ll & _).
  exists traj, l_T, x_s, t_T, onehot, rand_l, rand_x, rand_t.
  split; [exact Htraj |]. split; [exact Hkeys |]. split; [exact Hsize |].
  split.
  { assert (Hk : upto ts traj !! ts
                 = Some (Snapshot.mk (Batch.num_atoms batch) (Soft t_T)
                                     (wrap (wrap x_s)) l_T)).
    { rewrite Hup. unfold CSPProperty.initial_traj. apply lookup_singleton_eq. }
    rewrite upto_lookup in Hk. rewrite decide_True in Hk by lia. exact Hk. }
  split; [exact Hoh |]. split; [exact Sl |]. split; [exact Sx |]. split; [exact St |].
  split; [exact Hl |]. split; [exact Hx |]. split; [exact Ht |].
  split.
  { intros time Htime. destruct (Hsteps time Htime) as (Hfree & g1 & g2 & snap & _ & Hins).
    split; [exact Hfree |]. exists snap. exact Hins. }
  replace (Z.to_nat (ts + 1)) with (Z.to_nat ts + 1) in * by lia.
  auto.
Qed.

(** The rounding decides the start.  With 10 timesteps and the float 0.7
    the product is the float 7 and the start is timestep 7, where the exact
    product is a little less than 7; with 100 timesteps and 0.29 the float
    product is a little less than 29 and the start is timestep 28. *)
Lemma start_time_rounds :
  round_float 53 (Q2Qc (7 # 10)) = Q2Qc (3152519739159347 # 4503599627370496)
  /\ int_trunc (float_mul (Z2Qc 10) (Q2Qc (7 # 10))) = 7%Z
  /\ int_trunc (Z2Qc 10 * Q2Qc (3152519739159347 # 4503599627370496))%Qc = 6%Z
  /\ int_trunc (float_mul (Z2Qc 100) (Q2Qc (29 # 100))) = 28%Z.
Proof.
  split; [apply Qc_is_canon; vm_compute; reflexivity |].
  repeat split; vm_compute; reflexivity.
Qed.

Lemma sample_partial_trajectory_witness :
  match CSPProperty.sample (H := Toy.prims) (Toy.model false) Toy.batch
          (Toy.model false) Toy.half (Q2Qc (1 # 100)) 1 Toy.g0 with
  | inr ((_, stk), _) => length (TrajStack.all_frac_coords stk) = 2
  | inl _ => False
  end.
Proof.
  destruct (CSPProperty.sample (H := Toy.prims) (Toy.model false) Toy.batch
              (Toy.model false) Toy.half (Q2Qc (1 # 100)) 1 Toy.g0)
    as [e|[[final stk] g']] eqn:Hrun.
  { vm_compute in Hrun. discriminate Hrun. }
  assert (Hratio : (Toy.half < 1)%Qc) by reflexivity.
  pose proof (sample_partial_trajectory (H := Toy.prims) _ _ _ _ _ _ _ _ _ _ Hratio Hrun)
    as Hthm.
  cbv zeta in Hthm.
  destruct Hthm as (_ & traj & l_T & x_s & t_T & onehot & rand_l & rand_x & rand_t
                    & _ & _ & _ & _ & _ & _ & _ & _ & _ & _ & _ & _ & Hlen & _).
  exact Hlen.
Defined.

(** ** A mask of ones *)

Lemma unsqueeze_scale_ones {A : Type} `{TensorLaws A} (m : vec) (gr : list A) :
  Forall (fun x => x = 1%Qc) m ->
  length m = length gr ->
  unsqueeze_scale m gr = inr gr.
Proof.
  intros Hm. revert gr. induction Hm as [|x m -> Hm IH]; intros [|r gr] Hl;
    try discriminate; [reflexivity |].
  unfold unsqueeze_scale in *. simpl. rewrite IH by (simpl in Hl; lia). simpl.
  do 2 f_equal. unfold tscale. rewrite <- (tmap_id r) at 2.
  apply tmap_ext. intros y. ring.
Qed.

(** X5: With a mask of ones a step of [masked_sample] stores the coordinates
    and the types that the step of [sample] stores from the same state:
    the two samplers then differ in the lattice only. *)
Theorem ones_mask_matches_sample `{Primitives} (self uncod : CSPProperty.t)
    (batch : Batch.t) (step_lr aug : Qc) (m : vec) (l_T : tensor3) (x_T t_T : mat)
    (traj : gmap Z Snapshot.t) (time : Z) (g : rng)
    (traj1 traj2 : gmap Z Snapshot.t) (g1 g2 : rng) :
  Forall (fun x => x = 1%Qc) m ->
  CSPProperty.sample_step self uncod batch step_lr aug l_T x_T t_T traj time g
  = inr (traj1, g1) ->
  CSPProperty.masked_sample_step self uncod batch step_lr aug (Some m) l_T x_T t_T
                                 traj time g = inr (traj2, g2) ->
  g2 = g1
  /\ exists s1 s2,
       traj1 = <[(time - 1)%Z := s1]> traj
       /\ traj2 = <[(time - 1)%Z := s2]> traj
       /\ Snapshot.frac_coords s2 = Snapshot.frac_coords s1
       /\ Snapshot.atom_types s2 = Snapshot.atom_types s1
       /\ Snapshot.num_atoms s2 = Snapshot.num_atoms s1
       /\ (Snapshot.lattices s2 = Snapshot.lattices s1 -> traj2 = traj1).
Proof.
  intros Hm H1 H2.
  apply sample_step_inr in H1 as (v & s1 & Hv & Hs1 & ->).
  apply masked_sample_step_inr in H2 as (v' & s2 & Hv' & Hs2 & ->).
  rewrite Hv in Hv'. injection Hv' as <- <-.
  split; [reflexivity |]. exists s1, s2.
  split; [reflexivity |]. split; [reflexivity |].
  apply sample_update_inr in Hs1
    as (gx & gl & gt & pt & ax & bx & x1 & al & bl & l1 & at1 & bt1 & t1
        & Hgx & Hgl & Hgt & Hpt & Hax & Hbx & Hx1 & Hal & Hbl & Hl1 & Hat & Hbt & Ht1 & ->).
  apply masked_sample_update_inr in Hs2
    as (m' & gx' & gt' & mx & mt & pt' & ax' & bx' & x1' & al' & l1' & at1' & bt1' & t1'
        & [= <-] & Hgx' & Hgt' & Lx & Lt & Hmx & Hmt & Hpt' & Hax' & Hbx' & Hx1'
        & Hal' & Hl1' & Hat' & Hbt' & Ht1' & ->).
  rewrite Hgx in Hgx'. injection Hgx' as <-.
  rewrite Hgt in Hgt'. injection Hgt' as <-.
  rewrite Hpt in Hpt'. injection Hpt' as <-.
  rewrite unsqueeze_scale_ones in Hmx by assumption. injection Hmx as <-.
  rewrite unsqueeze_scale_ones in Hmt by (try assumption; congruence).
  injection Hmt as <-.
  rewrite Hax in Hax'. injection Hax' as <-.
  rewrite Hbx in Hbx'. injection Hbx' as <-.
  rewrite Hx1 in Hx1'. injection Hx1' as <-.
  rewrite Hat in Hat'. injection Hat' as <-.
  rewrite Hbt in Hbt'. injection Hbt' as <-.
  rewrite Ht1 in Ht1'. injection Ht1' as <-.
  cbn [Snapshot.frac_coords Snapshot.atom_types Snapshot.num_atoms Snapshot.lattices].
  split; [reflexivity |]. split; [reflexivity |]. split; [reflexivity |].
  intros ->. reflexivity.
Qed.

Lemma ones_mask_matches_sample_witness :
  match CSPProperty.sample_step (H := Toy.prims) (Toy.model false) (Toy.model false)
          Toy.batch (Q2Qc (1 # 100)) 1 Toy.l_3 Toy.x_3 Toy.t_3 Toy.traj_3 3 Toy.g0,
        CSPProperty.masked_sample_step (H := Toy.prims) (Toy.model false)
          (Toy.model false) Toy.batch (Q2Qc (1 # 100)) 1 (Some [1%Qc; 1%Qc])
          Toy.l_3 Toy.x_3 Toy.t_3 Toy.traj_3 3 Toy.g0 with
  | inr (traj1, _), inr (traj2, _) =>
      exists s1 s2, traj1 !! 2%Z = Some s1 /\ traj2 !! 2%Z = Some s2
                    /\ Snapshot.frac_coords s2 = Snapshot.frac_coords s1
                    /\ Snapshot.atom_types s2 = Snapshot.atom_types s1
  | _, _ => False
  end.
Proof.
  destruct (CSPProperty.sample_step (H := Toy.prims) (Toy.model false) (Toy.model false)
              Toy.batch (Q2Qc (1 # 100)) 1 Toy.l_3 Toy.x_3 Toy.t_3 Toy.traj_3 3 Toy.g0)
    as [e|[traj1 g1]] eqn:H1.
  { vm_compute in H1. discriminate H1. }
  destruct (CSPProperty.masked_sample_step (H := Toy.prims) (Toy.model false)
              (Toy.model false) Toy.batch (Q2Qc (1 # 100)) 1 (Some [1%Qc; 1%Qc])
              Toy.l_3 Toy.x_3 Toy.t_3 Toy.traj_3 3 Toy.g0)
    as [e|[traj2 g2]] eqn:H2.
  { vm_compute in H2. discriminate H2. }
  assert (Hm : Forall (fun x => x = 1%Qc) [1%Qc; 1%Qc]) by (repeat constructor).
  destruct (ones_mask_matches_sample (H := Toy.prims) _ _ _ _ _ _ _ _ _ _ _ _ _ _ _ _
              Hm H1 H2)
    as (_ & s1 & s2 & -> & -> & Hx & Ht & _).
  exists s1, s2. split; [apply lookup_insert_eq |]. split; [apply lookup_insert_eq |].
  split; assumption.
Defined.

(** ** Time independence, species ids and the loss *)

Lemma one_hot_inr (ids : list Z) (n : nat) (oh : mat) :
  one_hot ids n = inr oh -> Forall (fun i => 0 <= i < Z.of_nat n)%Z ids.
Proof.
  unfold one_hot. revert oh. induction ids as [|i ids IH]; intros oh Hrun; [constructor |].
  simpl in Hrun. case_decide as Hi; [| discriminate Hrun].
  inv_run. constructor; [exact Hi |]. eapply IH. eassumption.
Qed.

Lemma species_in_range (ids : list Z) (n : nat) (oh : mat) :
  one_hot ((fun i => i - 1)%Z <$> ids) n = inr oh ->
  Forall (fun i => 1 <= i <= Z.of_nat n)%Z ids.
Proof.
  intros Hrun. apply one_hot_inr in Hrun.
  rewrite Forall_fmap in Hrun. eapply Forall_impl; [exact Hrun |].
  simpl. intros i Hi. lia.
Qed.

(** X6: [forward] and [infer] only return for a batch whose species ids all
    lie between 1 and [MAX_ATOMIC_NUM]: an id outside (0 included) is never
    silently encoded. *)
Theorem species_ids_are_checked `{Primitives} (self : CSPProperty.t) (batch : Batch.t)
    (g : rng) :
  (exists r, CSPProperty.forward self batch g = inr r)
  \/ (exists r, CSPProperty.infer self batch g = inr r) ->
  Forall (fun i => 1 <= i <= Z.of_nat MAX_ATOMIC_NUM)%Z (Batch.atom_types batch).
Proof.
  intros [[[loss g'] Hrun] | [[r g'] Hrun]].
  - unfold CSPProperty.forward in Hrun.
    repeat (apply bindM_inr in Hrun as (? & ? & ? & Hrun)).
    repeat match goal with
           | Hx : lift (one_hot _ _) _ = inr _ |- _ =>
               apply lift_inr in Hx as [Hx _]; apply species_in_range in Hx; exact Hx
           end.
  - unfold CSPProperty.infer in Hrun.
    repeat (apply bindM_inr in Hrun as (? & ? & ? & Hrun)).
    repeat match goal with
           | Hx : lift (one_hot _ _) _ = inr _ |- _ =>
               apply lift_inr in Hx as [Hx _]; apply species_in_range in Hx; exact Hx
           end.
Qed.

Lemma species_ids_are_checked_witness :
  Forall (fun i => 1 <= i <= 3)%Z (Batch.atom_types Toy.batch).
Proof.
  apply (species_ids_are_checked (H := Toy.prims) (Toy.model false) Toy.batch Toy.g0).
  right.
  destruct (CSPProperty.infer (H := Toy.prims) (Toy.model false) Toy.batch Toy.g0)
    as [e|r] eqn:Hrun.
  - vm_compute in Hrun. discriminate Hrun.
  - exists r. reflexivity.
Defined.

(** X7: For a time-independent module the training loss is the L1 distance
    between the prediction and the target that [infer] returns for the
    same batch: training and inference see the same clean input. *)
Theorem time_independent_loss_is_infer_loss `{Primitives} (self : CSPProperty.t)
    (batch : Batch.t) (g : rng) (loss : Qc) (g' : rng) :
  CSPProperty.time_independent self = true ->
  CSPProperty.forward self batch g = inr (loss, g') ->
  exists pred target g'',
    CSPProperty.infer self batch g = inr ((pred, target), g'')
    /\ l1_loss pred target = inr loss.
Proof.
  intros Hti Hrun. unfold CSPProperty.forward in Hrun. rewrite Hti in Hrun.
  apply bindM_inr in Hrun as (times & g1 & Htimes & Hrun).
  apply bindM_inr in Hrun as (time_emb & ? & Hemb & Hrun).
  apply lift_inr in Hemb as [Hemb ->].
  apply bindM_inr in Hrun as (eps_l & g2 & _ & Hrun).
  apply bindM_inr in Hrun as (eps_x & g3 & _ & Hrun).
  apply bindM_inr in Hrun as (l_t & ? & _ & Hrun).
  apply bindM_inr in Hrun as (spa & ? & _ & Hrun).
  apply bindM_inr in Hrun as (x_t & ? & _ & Hrun).
  apply bindM_inr in Hrun as (onehot & ? & Hoh & Hrun).
  apply lift_inr in Hoh as [Hoh _].
  apply bindM_inr in Hrun as (eps_t & g4 & _ & Hrun).
  apply bindM_inr in Hrun as (c0r & ? & _ & Hrun).
  apply bindM_inr in Hrun as (c1r & ? & _ & Hrun).
  apply bindM_inr in Hrun as (a_t & ? & _ & Hrun).
  apply bindM_inr in Hrun as ([[[[px pl] pt] pg] pn] & ? & Hcall & Hrun).
  apply lift_inr in Hcall as [Hcall _].
  unfold CSPProperty.infer. unfold bindM at 1. rewrite Htimes.
  rewrite bindM_lift, Hemb. rewrite bindM_lift, Hoh. rewrite bindM_lift, Hcall.
  destruct (Decoder.pred_graph_level (CSPProperty.decoder self)).
  - apply lift_inr in Hrun as [Hl _]. do 3 eexists. split; [reflexivity | exact Hl].
  - destruct (Decoder.pred_node_level (CSPProperty.decoder self)); [| discriminate Hrun].
    apply lift_inr in Hrun as [Hl _]. do 3 eexists. split; [reflexivity | exact Hl].
Qed.

Lemma time_independent_loss_is_infer_loss_witness :
  match CSPProperty.forward (H := Toy.prims) (Toy.model true) Toy.batch Toy.g0 with
  | inr (loss, _) =>
      exists pred target g'',
        CSPProperty.infer (H := Toy.prims) (Toy.model true) Toy.batch Toy.g0
        = inr ((pred, target), g'')
        /\ l1_loss pred target = inr loss
  | inl _ => False
  end.
Proof.
  destruct (CSPProperty.forward (H := Toy.prims) (Toy.model true) Toy.batch Toy.g0)
    as [e|[loss g']] eqn:Hrun.
  { vm_compute in Hrun. discriminate Hrun. }
  apply (time_independent_loss_is_infer_loss (H := Toy.prims) (Toy.model true) Toy.batch
           Toy.g0 loss g'); [reflexivity | exact Hrun].
Defined.

(** ** Encoding and decoding the species *)

Lemma argmax_from_found (r : vec) (best_i i : nat) :
  Forall (fun x => x = 0%Qc \/ x = 1%Qc) r ->
  argmax_from 1 best_i i r = best_i.
Proof.
  intros Hr. revert i. induction Hr as [|x r Hx Hr IH]; intros i; [reflexivity |].
  simpl. destruct Hx as [-> | ->]; simpl; apply IH.
Qed.

Lemma indicator_row_01 (p i len : nat) :
  Forall (fun x => x = 0%Qc \/ x = 1%Qc)
         ((fun k => if decide (k = p) then 1%Qc else 0%Qc) <$> seq i len).
Proof.
  apply Forall_fmap, Forall_forall. intros k _. simpl. case_decide; auto.
Qed.

Lemma argmax_from_indicator (p best_i i len : nat) :
  i <= p < i + len ->
  argmax_from 0 best_i i ((fun k => if decide (k = p) then 1%Qc else 0%Qc) <$> seq i len)
  = p.
Proof.
  revert i. induction len as [|len IH]; intros i Hp; [lia |].
  simpl. case_decide as Hip.
  - subst p. simpl. apply argmax_from_found. apply indicator_row_01.
  - simpl. apply IH. lia.
Qed.

Lemma argmax_row_indicator (p n : nat) :
  p < n ->
  argmax_row ((fun k => if decide (k = p) then 1%Qc else 0%Qc) <$> seq 0 n) = inr p.
Proof.
  intros Hp. destruct n as [|n]; [lia |]. simpl. f_equal.
  case_decide as H0.
  - subst p. apply argmax_from_found. apply indicator_row_01.
  - apply argmax_from_indicator. lia.
Qed.

(** X8: The one-hot encoding of [forward], [infer] and [sample] and the
    terminal conversion of the samplers are inverse to each other: species
    ids between 1 and the number of classes are encoded ([F.one_hot(ids -
    1)]), and the arg-max plus one of the encoding gives the ids back. *)
Theorem one_hot_argmax_round_trip (ids : list Z) (n : nat) :
  Forall (fun i => 1 <= i <= Z.of_nat n)%Z ids ->
  exists onehot,
    one_hot ((fun i => i - 1)%Z <$> ids) n = inr onehot
    /\ argmax_plus_1 onehot = inr (Z.to_nat <$> ids).
Proof.
  intros Hids. unfold one_hot, argmax_plus_1.
  induction Hids as [|i ids Hi Hids (onehot & Hoh & Harg)]; [exists []; split; reflexivity |].
  rewrite fmap_cons. simpl map_result. rewrite decide_True by lia.
  simpl bind at 1. rewrite Hoh. simpl.
  eexists. split; [reflexivity |].
  simpl. rewrite argmax_row_indicator by lia. simpl. rewrite Harg. simpl.
  do 2 f_equal. lia.
Qed.

Lemma one_hot_argmax_round_trip_witness :
  exists onehot,
    one_hot ((fun i => i - 1)%Z <$> [1; 3; 2]%Z) 3 = inr onehot
    /\ argmax_plus_1 onehot = inr [1; 3; 2].
Proof.
  apply (one_hot_argmax_round_trip [1; 3; 2]%Z 3).
  repeat constructor; lia.
Defined.

(** ** The loss is not negative *)

Lemma Qcabs_nonneg (x : Qc) : (0 <= Qcabs x)%Qc.
Proof.
  unfold Qcabs, Qcleb. destruct (Qle_bool _ _) eqn:Hx.
  - apply Qle_bool_iff in Hx. exact Hx.
  - assert (Hlt : (x < 0)%Qc).
    { apply Qcnot_le_lt. intros Hle. apply Qle_bool_iff in Hle. congruence. }
    apply Qclt_le_weak in Hlt. apply Qcopp_le_compat in Hlt. exact Hlt.
Qed.

Lemma qsum_nonneg (l : vec) : Forall (fun x => 0 <= x)%Qc l -> (0 <= qsum l)%Qc.
Proof.
  induction 1 as [|x l Hx Hl IH]; simpl; [apply Qcle_refl |].
  replace 0%Qc with (0 + 0)%Qc by ring. apply Qcplus_le_compat; assumption.
Qed.

Lemma Qcdiv_nonneg (x : Qc) (n : nat) : (0 <= x)%Qc -> (0 <= x / Z2Qc (Z.of_nat n))%Qc.
Proof.
  intros Hx. unfold Qcdiv. unfold Qcle in *. simpl in *.
  rewrite !Qred_correct. apply Qmult_le_0_compat; [exact Hx |].
  apply Qinv_le_0_compat.
  change 0%Q with (inject_Z 0). rewrite <- Zle_Qle. lia.
Qed.

Lemma l1_loss_nonneg (input target : option mat) (loss : Qc) :
  l1_loss input target = inr loss -> (0 <= loss)%Qc.
Proof.
  unfold l1_loss. intros Hrun. inv_run.
  apply Qcdiv_nonneg. apply qsum_nonneg.
  apply Forall_fmap, Forall_forall. intros y _. apply Qcabs_nonneg.
Qed.

(** X9: The training loss [forward] returns is never negative.  (The target
    is taken with at least one entry: the mean over no entry at all is
    torch's [nan], which the rationals do not have.) *)
Theorem forward_loss_nonnegative `{Primitives} (self : CSPProperty.t) (batch : Batch.t)
    (g : rng) (loss : Qc) (g' : rng) :
  (forall y, Batch.y batch = Some y -> concat y <> []) ->
  CSPProperty.forward self batch g = inr (loss, g') -> (0 <= loss)%Qc.
Proof.
  unfold CSPProperty.forward. intros _ Hrun.
  repeat (apply bindM_inr in Hrun as (? & ? & _ & Hrun)).
  destruct (CSPProperty.time_independent self);
    apply bindM_inr in Hrun as ([[[[px pl] pt] pg] pn] & ? & _ & Hrun);
    (destruct (Decoder.pred_graph_level _);
     [| destruct (Decoder.pred_node_level _); [| discriminate Hrun]]);
    apply lift_inr in Hrun as [Hl _]; eapply l1_loss_nonneg; exact Hl.
Qed.

Lemma forward_loss_nonnegative_witness :
  match CSPProperty.forward (H := Toy.prims) (Toy.model false) Toy.batch Toy.g0 with
  | inr (loss, _) => (0 <= loss)%Qc
  | inl _ => False
  end.
Proof.
  destruct (CSPProperty.forward (H := Toy.prims) (Toy.model false) Toy.batch Toy.g0)
    as [e|[loss g']] eqn:Hrun.
  { vm_compute in Hrun. discriminate Hrun. }
  apply (forward_loss_nonnegative (H := Toy.prims) (Toy.model false) Toy.batch Toy.g0
           loss g'); [| exact Hrun].
  intros y [= <-]. discriminate.
Defined.

(** * Further properties of the backbone *)

(** ** Edge styles *)

(** X10: An edge style other than ['fc'] and ['knn'] is not refused where it is
    given: the edge builder falls through and returns [None], and every
    path of the backbone raises [TypeError] when it unpacks the edges,
    before any other argument is looked at. *)
Theorem unknown_edge_style_raises `{Primitives} (self : CSPNet.t) (time_emb : mat)
    (atom_types : atom_input) (frac_coords : mat) (lattices : tensor3)
    (num_atoms node2graph : list nat) (y : option mat)
    (unconditional_flag conditional_flag : bool) (g : rng) :
  CSPNet.edge_style self <> "fc" ->
  CSPNet.edge_style self <> "knn" ->
  CSPNet.gen_edges self num_atoms frac_coords lattices node2graph = inr None
  /\ CSPNet.unconditional self time_emb atom_types frac_coords lattices num_atoms
                          node2graph y = inl TypeError
  /\ CSPNet.conditional self time_emb atom_types frac_coords lattices num_atoms
                        node2graph y = inl TypeError
  /\ CSPNet.forward self time_emb atom_types frac_coords lattices num_atoms node2graph y
                    unconditional_flag conditional_flag g = inl TypeError.
Proof.
  intros Hfc Hknn.
  assert (Hgen : CSPNet.gen_edges self num_atoms frac_coords lattices node2graph
                 = inr None).
  { unfold CSPNet.gen_edges. rewrite !decide_False by assumption. reflexivity. }
  assert (Hu : CSPNet.unconditional self time_emb atom_types frac_coords lattices
                 num_atoms node2graph y = inl TypeError).
  { unfold CSPNet.unconditional. rewrite Hgen. reflexivity. }
  assert (Hc : CSPNet.conditional self time_emb atom_types frac_coords lattices
                 num_atoms node2graph y = inl TypeError).
  { unfold CSPNet.conditional. rewrite Hgen. reflexivity. }
  split; [exact Hgen |]. split; [exact Hu |]. split; [exact Hc |].
  unfold CSPNet.forward. destruct unconditional_flag; [rewrite Hu; reflexivity |].
  destruct conditional_flag; [rewrite Hc; reflexivity |].
  rewrite Hgen. reflexivity.
Qed.

Lemma unknown_edge_style_raises_witness :
  CSPNet.init (H := Toy.prims) Toy.weights Demo.radius_args = inr Demo.radius_net
  /\ CSPNet.forward (H := Toy.prims) Demo.radius_net [[1%Qc]; [Toy.half]]
       (AtomIds [1%Z; 3%Z]) Toy.x_3 Toy.l_3 [1; 1] [0; 1] None false false Toy.g0
     = inl TypeError.
Proof.
  split; [vm_compute; reflexivity |].
  apply (unknown_edge_style_raises (H := Toy.prims)); vm_compute; discriminate.
Defined.

(** ** Classifier-free guidance *)

(** The two sides run the same computation next: one case distinction on
    its outcome. *)
Ltac same_step :=
  first
    [ rewrite bindM_retM
    | rewrite bindM_lift, lift_bind;
      match goal with
      | |- match ?r with _ => _ end = match ?r with _ => _ end =>
          destruct r as [?|?]; [reflexivity |]
      end;
      try match goal with
          | |- context [let '(_, _) := ?p in _] => is_var p; destruct p
          end ].

(** X11: In classifier-free-guidance mode the default path of [CSPNet.forward]
    draws one uniform number [u] once the atom embedding is computed: with
    [u >= cfg_prob] it goes on as [CSPNet.conditional] does, with [u <
    cfg_prob] as [CSPNet.unconditional] does: the same outputs, or the same
    exception, and nothing else is drawn. *)
Theorem forward_cfg_dispatch `{Primitives} (self : CSPNet.t) (time_emb : mat)
    (atom_types : atom_input) (frac_coords : mat) (lattices : tensor3)
    (num_atoms node2graph : list nat) (y : option mat) (g : rng) (u : Qc) (g1 : rng) :
  CSPNet.cfg self = true ->
  rand g = (u, g1) ->
  CSPNet.forward self time_emb atom_types frac_coords lattices num_atoms node2graph y
                 false false g
  = lift (if Qcleb (CSPNet.cfg_prob self) u
          then CSPNet.conditional self time_emb atom_types frac_coords lattices
                                  num_atoms node2graph y
          else CSPNet.unconditional self time_emb atom_types frac_coords lattices
                                    num_atoms node2graph y) g1.
Proof.
  intros Hcfg Hrand.
  destruct (Qcleb (CSPNet.cfg_prob self) u) eqn:Hq;
    unfold CSPNet.forward, CSPNet.conditional, CSPNet.unconditional; rewrite Hcfg;
    do 4 same_step;
    unfold bindM at 1; unfold bindM at 1; unfold ret at 1; rewrite Hrand, Hq.
  - rewrite !lift_bind.
    destruct y as [yv|]; [| reflexivity]. cbn [not_none bind ret].
    destruct (CSPNet.y_projection self) as [P|]; [| reflexivity]. cbn [not_none bind ret].
    destruct (call_linear P yv) as [e|y_proj]; [reflexivity |]. cbn [bind].
    destruct (tadd_rows _ y_proj) as [e|nf]; [reflexivity |]. cbn [bind lift ret].
    repeat same_step. reflexivity.
  - cbn [retM ret]. repeat same_step. reflexivity.
Qed.

Lemma forward_cfg_dispatch_witness :
  CSPNet.init (H := Toy.prims) Toy.weights (Demo.cfg_args 0) = inr (Demo.cfg_net 0)
  /\ CSPNet.forward (H := Toy.prims) (Demo.cfg_net 0) [[1%Qc]; [Toy.half]]
       (AtomIds [1%Z; 3%Z]) Toy.x_3 Toy.l_3 [1; 1] [0; 1] (Some [[1%Qc]; [0%Qc]])
       false false Toy.g0
     = lift (H := Toy.prims)
         (CSPNet.conditional (H := Toy.prims) (Demo.cfg_net 0) [[1%Qc]; [Toy.half]]
            (AtomIds [1%Z; 3%Z]) Toy.x_3 Toy.l_3 [1; 1] [0; 1] (Some [[1%Qc]; [0%Qc]]))
         (1%nat : @rng Toy.prims).
Proof.
  split; [vm_compute; reflexivity |].
  apply (forward_cfg_dispatch (H := Toy.prims) (Demo.cfg_net 0) _ _ _ _ _ _ _ Toy.g0
           Toy.half 1%nat); reflexivity.
Defined.

(** ** What the constructor of the backbone builds *)

Section Construction.

Context `{Primitives}.

(** The constructor of a layer fails on a distance embedding that is still
    a string, then on an activation that is still a string, and on
    nothing else. *)
Lemma layer_init_cases (w : initialiser) name hidden act dis use_ln use_ip :
  match CSPLayer.init w name hidden act dis use_ln use_ip with
  | inl e =>
      (e = AttributeError /\ exists s, dis = Some (DisStr s))
      \/ (e = TypeError /\ (forall s, dis <> Some (DisStr s)) /\ exists s, act = ActStr s)
  | inr layer =>
      (forall s, dis <> Some (DisStr s)) /\ act = SiLU
      /\ CSPLayer.hidden_dim layer = hidden
      /\ CSPLayer.ln layer = use_ln
      /\ CSPLayer.ip layer = use_ip
      /\ (is_Some (CSPLayer.layer_norm layer) <-> use_ln = true)
      /\ (is_Some (CSPLayer.dis_emb layer) <-> exists e, dis = Some (DisSin e))
      /\ CSPLayer.dis_dim layer
         = match CSPLayer.dis_emb layer with
           | Some e => SinusoidsEmbedding.dim e
           | None => 3
           end
  end.
Proof.
  unfold CSPLayer.init.
  destruct dis as [[e|s]|]; simpl; [| left; eauto |];
    (destruct act as [|s]; simpl;
     [| right; split; [reflexivity |]; split; [discriminate | eauto]]);
    (split; [discriminate |]); (split; [reflexivity |]);
    repeat (split; [reflexivity |]).
  - split; [destruct use_ln; split; intros Hx; try reflexivity; try discriminate;
            try (destruct Hx; discriminate); eauto |].
    split; [| reflexivity]. split; eauto.
  - split; [destruct use_ln; split; intros Hx; try reflexivity; try discriminate;
            try (destruct Hx; discriminate); eauto |].
    split; [| reflexivity]. split; [intros [x Hx]; discriminate | intros [x Hx]; discriminate].
Qed.

Lemma layer_name_inj (i j : nat) : layer_name i = layer_name j -> i = j.
Proof.
  unfold layer_name. intros Hij. apply String.app_inj in Hij.
  apply (inj pretty) in Hij. exact Hij.
Qed.

(** The registration loop: it fails as the first layer does, and
    otherwise registers every layer under its name, leaving the other
    names alone. *)
Lemma add_layers_cases (w : initialiser) hidden act dis use_ln use_ip indices modules :
  match CSPNet.add_layers w hidden act dis use_ln use_ip indices modules with
  | inl e =>
      indices <> []
      /\ ((e = AttributeError /\ exists s, dis = Some (DisStr s))
          \/ (e = TypeError /\ (forall s, dis <> Some (DisStr s))
              /\ exists s, act = ActStr s))
  | inr m =>
      (indices = [] \/ ((forall s, dis <> Some (DisStr s)) /\ act = SiLU))
      /\ (forall i, i ∈ indices ->
            exists layer,
              m !! layer_name i = Some layer
              /\ CSPLayer.init w (layer_name i) hidden act dis use_ln use_ip = inr layer)
      /\ (forall k, (forall i, i ∈ indices -> k <> layer_name i) -> m !! k = modules !! k)
  end.
Proof.
  revert modules. induction indices as [|i indices IH]; intros modules.
  - simpl. split; [auto |]. split; [| reflexivity]. intros i Hi. inversion Hi.
  - simpl. fold (layer_name i).
    pose proof (layer_init_cases w (layer_name i) hidden act dis use_ln use_ip) as Hl.
    destruct (CSPLayer.init w (layer_name i) hidden act dis use_ln use_ip)
      as [e|layer] eqn:Hinit; simpl.
    { split; [discriminate | exact Hl]. }
    destruct Hl as (Hdis & Hact & _).
    specialize (IH (<[layer_name i := layer]> modules)).
    destruct (CSPNet.add_layers w hidden act dis use_ln use_ip indices
                (<[layer_name i := layer]> modules)) as [e|m].
    { destruct IH as [_ IH]. split; [discriminate | exact IH]. }
    destruct IH as (_ & Hreg & Hother).
    split; [right; auto |]. split.
    + intros j Hj. destruct (decide (j ∈ indices)) as [Hin | Hnin]; [apply Hreg; exact Hin |].
      apply elem_of_cons in Hj as [-> | Hj]; [| contradiction].
      exists layer. split; [| exact Hinit].
      rewrite Hother; [apply lookup_insert_eq |].
      intros k Hk Heq. apply layer_name_inj in Heq. subst k. contradiction.
    + intros k Hk. rewrite Hother.
      * apply lookup_insert_ne. intros Heq. eapply (Hk i); [left | symmetry; exact Heq].
      * intros j Hj. apply Hk. right. exact Hj.
Qed.

End Construction.

Section Outcome.

Context `{Primitives}.

Variables (w : initialiser) (a : CSPNet.Args.t).

Let dis_known : Prop :=
  CSPNet.Args.dis_emb a = "sin" \/ CSPNet.Args.dis_emb a = "none".

Let act : activation :=
  if decide (CSPNet.Args.act_fn a = "silu") then SiLU else ActStr (CSPNet.Args.act_fn a).

Let dis : option dis_embedding :=
  if decide (CSPNet.Args.dis_emb a = "sin")
  then Some (DisSin (SinusoidsEmbedding.init (CSPNet.Args.num_freqs a) 3))
  else if decide (CSPNet.Args.dis_emb a = "none") then None
       else Some (DisStr (CSPNet.Args.dis_emb a)).

Lemma dis_resolved : (forall s, dis <> Some (DisStr s)) <-> dis_known.
Proof.
  unfold dis, dis_known. repeat case_decide; split; intros Hx; try tauto;
    try (intros s; discriminate).
  exfalso. eapply Hx. reflexivity.
Qed.

Lemma act_resolved : act = SiLU <-> CSPNet.Args.act_fn a = "silu".
Proof.
  unfold act. case_decide; split; intros Hx; try tauto; try reflexivity; discriminate.
Qed.

Lemma seq_nonempty (n : nat) : seq 0 n <> [] <-> 0 < n.
Proof.
  destruct n; simpl; split; intros Hx; [exfalso; apply Hx; reflexivity | lia | lia |].
  discriminate.
Qed.

End Outcome.

(** X12: The outcome of [CSPNet.__init__], case by case.  With at least one
    layer, a [dis_emb] that is neither ['sin'] nor ['none'] raises
    [AttributeError] and then an [act_fn] other than ['silu'] raises
    [TypeError], both from the constructor of the first layer.  Then a
    prediction level without [pred_dim] raises [ValueError], and
    classifier-free guidance without [pred_dim] raises [TypeError].  In
    every other case the constructor returns: in particular it checks
    neither the edge style nor that a prediction level is requested. *)
Theorem init_outcome `{Primitives} (w : initialiser) (a : CSPNet.Args.t) :
  let dis_known :=
    CSPNet.Args.dis_emb a = "sin" \/ CSPNet.Args.dis_emb a = "none" in
  let layers_ok :=
    CSPNet.Args.num_layers a = 0 \/ (dis_known /\ CSPNet.Args.act_fn a = "silu") in
  let level := CSPNet.Args.pred_graph_level a || CSPNet.Args.pred_node_level a in
  match CSPNet.init w a with
  | inl e =>
      (e = AttributeError /\ 0 < CSPNet.Args.num_layers a /\ ~ dis_known)
      \/ (e = TypeError /\ 0 < CSPNet.Args.num_layers a /\ dis_known
          /\ CSPNet.Args.act_fn a <> "silu")
      \/ (e = ValueError /\ layers_ok /\ level = true /\ CSPNet.Args.pred_dim a = None)
      \/ (e = TypeError /\ layers_ok /\ level = false /\ CSPNet.Args.cfg a = true
          /\ CSPNet.Args.pred_dim a = None)
  | inr net =>
      layers_ok
      /\ (level = true \/ CSPNet.Args.cfg a = true -> is_Some (CSPNet.Args.pred_dim a))
      /\ CSPNet.edge_style net = CSPNet.Args.edge_style a
      /\ CSPNet.pred_graph_level net = CSPNet.Args.pred_graph_level a
      /\ CSPNet.pred_node_level net = CSPNet.Args.pred_node_level a
      /\ CSPNet.cfg net = CSPNet.Args.cfg a
  end.
Proof.
  intros dis_known layers_ok level. unfold CSPNet.init.
  pose proof (add_layers_cases w (CSPNet.Args.hidden_dim a)
                (if decide (CSPNet.Args.act_fn a = "silu") then SiLU
                 else ActStr (CSPNet.Args.act_fn a))
                (if decide (CSPNet.Args.dis_emb a = "sin")
                 then Some (DisSin (SinusoidsEmbedding.init (CSPNet.Args.num_freqs a) 3))
                 else if decide (CSPNet.Args.dis_emb a = "none") then None
                      else Some (DisStr (CSPNet.Args.dis_emb a)))
                (CSPNet.Args.ln a) (CSPNet.Args.ip a)
                (seq 0 (CSPNet.Args.num_layers a)) ∅) as Hlayers.
  destruct (CSPNet.add_layers _ _ _ _ _ _ _ _) as [e|m]; cbn [bind].
  - destruct Hlayers as [Hne [[-> [s Hs]] | [-> [Hd [s Hs]]]]].
    + left. split; [reflexivity |]. split; [apply seq_nonempty; exact Hne |].
      intros Hk. pose proof (proj2 (dis_resolved a) Hk) as Hk'. eapply Hk'. exact Hs.
    + right. left. split; [reflexivity |]. split; [apply seq_nonempty; exact Hne |].
      split; [apply (proj1 (dis_resolved a)); exact Hd |].
      intros Hk. apply (proj2 (act_resolved a)) in Hk. rewrite Hk in Hs. discriminate Hs.
  - destruct Hlayers as [Hok _].
    assert (Hlok : layers_ok).
    { destruct Hok as [Hnil | [Hd Ha]].
      - left. destruct (CSPNet.Args.num_layers a); [reflexivity | discriminate Hnil].
      - right. split; [apply (proj1 (dis_resolved a)); exact Hd
                       | apply (proj1 (act_resolved a)); exact Ha]. }
    fold level.
    destruct (CSPNet.Args.pred_dim a) as [d|] eqn:Hdim;
      destruct level eqn:Hlevel; cbn [andb bool_decide decide_rel bind ret].
    + rewrite bool_decide_eq_false_2 by discriminate. cbn [bind ret not_none].
      destruct (CSPNet.Args.pred_graph_level a), (CSPNet.Args.pred_node_level a),
        (CSPNet.Args.cfg a); cbn [bind ret not_none];
        (split; [exact Hlok |]); (split; [eauto |]); auto.
    + cbn [bind ret not_none].
      destruct (CSPNet.Args.pred_graph_level a), (CSPNet.Args.pred_node_level a),
        (CSPNet.Args.cfg a); cbn [bind ret not_none];
        (split; [exact Hlok |]); (split; [eauto |]); auto.
    + rewrite bool_decide_eq_true_2 by reflexivity. cbn [bind raise].
      right. right. left. auto.
    + cbn [bind ret not_none].
      unfold level in Hlevel. apply orb_false_iff in Hlevel as [Hg Hn].
      rewrite Hg, Hn. cbn [bind ret not_none].
      destruct (CSPNet.Args.cfg a) eqn:Hcfg; cbn [bind ret not_none raise].
      * right. right. right. split; [reflexivity |]. split; [exact Hlok |].
        split; [reflexivity |]. auto.
      * split; [exact Hlok |]. split; [intros [Hx | Hx]; discriminate Hx |]. auto.
Qed.

Lemma init_inr `{Primitives} (w : initialiser) (a : CSPNet.Args.t) (net : CSPNet.t) :
  CSPNet.init w a = inr net ->
  exists m graph_head node_head y_proj,
    CSPNet.add_layers w (CSPNet.Args.hidden_dim a)
      (if decide (CSPNet.Args.act_fn a = "silu") then SiLU
       else ActStr (CSPNet.Args.act_fn a))
      (if decide (CSPNet.Args.dis_emb a = "sin")
       then Some (DisSin (SinusoidsEmbedding.init (CSPNet.Args.num_freqs a) 3))
       else if decide (CSPNet.Args.dis_emb a = "none") then None
            else Some (DisStr (CSPNet.Args.dis_emb a)))
      (CSPNet.Args.ln a) (CSPNet.Args.ip a) (seq 0 (CSPNet.Args.num_layers a)) ∅ = inr m
    /\ (is_Some graph_head <-> CSPNet.Args.pred_graph_level a = true)
    /\ (is_Some node_head <-> CSPNet.Args.pred_node_level a = true)
    /\ (is_Some y_proj <-> CSPNet.Args.cfg a = true)
    /\ (forall L, graph_head = Some L ->
          exists d, CSPNet.Args.pred_dim a = Some d
                    /\ L = nn_Linear w "graph_out" (CSPNet.Args.hidden_dim a) d true)
    /\ (forall L, node_head = Some L ->
          exists d, CSPNet.Args.pred_dim a = Some d
                    /\ L = nn_Linear w "node_out" (CSPNet.Args.hidden_dim a) d false)
    /\ (forall L, y_proj = Some L ->
          exists d, CSPNet.Args.pred_dim a = Some d
                    /\ L = nn_Linear w "y_projection" d (CSPNet.Args.hidden_dim a) true)
    /\ net = CSPNet.mk (CSPNet.Args.hidden_dim a) (CSPNet.Args.latent_dim a)
               (CSPNet.Args.num_layers a) (CSPNet.Args.max_atoms a)
               (if decide (CSPNet.Args.act_fn a = "silu") then SiLU
                else ActStr (CSPNet.Args.act_fn a))
               (if decide (CSPNet.Args.dis_emb a = "sin")
                then Some (DisSin (SinusoidsEmbedding.init (CSPNet.Args.num_freqs a) 3))
                else if decide (CSPNet.Args.dis_emb a = "none") then None
                     else Some (DisStr (CSPNet.Args.dis_emb a)))
               (CSPNet.Args.num_freqs a) (CSPNet.Args.edge_style a)
               (CSPNet.Args.cutoff a) (CSPNet.Args.max_neighbors a) (CSPNet.Args.ln a)
               (CSPNet.Args.ip a) (CSPNet.Args.smooth a) (CSPNet.Args.pred_type a)
               (CSPNet.Args.pred_graph_level a) (CSPNet.Args.pred_node_level a)
               (CSPNet.Args.pred_dim a) (CSPNet.Args.cfg a) (CSPNet.Args.cfg_prob a)
               (if CSPNet.Args.smooth a
                then inl (nn_Linear w "node_embedding" (CSPNet.Args.max_atoms a)
                                    (CSPNet.Args.hidden_dim a) true)
                else inr (nn_Embedding w "node_embedding" (CSPNet.Args.max_atoms a)
                                       (CSPNet.Args.hidden_dim a)))
               (nn_Linear w "atom_latent_emb"
                          (CSPNet.Args.hidden_dim a + CSPNet.Args.latent_dim a)
                          (CSPNet.Args.hidden_dim a) true)
               m
               (nn_Linear w "coord_out" (CSPNet.Args.hidden_dim a) 3 false)
               (nn_Linear w "lattice_out" (CSPNet.Args.hidden_dim a) 9 false)
               (if CSPNet.Args.ln a
                then Some (nn_LayerNorm w "final_layer_norm" (CSPNet.Args.hidden_dim a))
                else None)
               (if CSPNet.Args.pred_type a
                then Some (nn_Linear w "type_out" (CSPNet.Args.hidden_dim a)
                                     MAX_ATOMIC_NUM true)
                else None)
               graph_head node_head y_proj.
Proof.
  unfold CSPNet.init. intros Hrun.
  apply bind_inr in Hrun as (m & Hm & Hrun).
  apply bind_inr in Hrun as ([] & _ & Hrun).
  apply bind_inr in Hrun as (gh & Hgh & Hrun).
  apply bind_inr in Hrun as (nh & Hnh & Hrun).
  apply bind_inr in Hrun as (yp & Hyp & Hrun).
  injection Hrun as <-.
  exists m, gh, nh, yp. split; [exact Hm |].
  split.
  { destruct (CSPNet.Args.pred_graph_level a); inv_run;
      split; intros Hx; try reflexivity; try discriminate; eauto.
    destruct Hx; discriminate. }
  split.
  { destruct (CSPNet.Args.pred_node_level a); inv_run;
      split; intros Hx; try reflexivity; try discriminate; eauto.
    destruct Hx; discriminate. }
  split.
  { destruct (CSPNet.Args.cfg a); inv_run;
      split; intros Hx; try reflexivity; try discriminate; eauto.
    destruct Hx; discriminate. }
  split.
  { intros L HL. destruct (CSPNet.Args.pred_graph_level a); inv_run; [| discriminate].
    injection HL as <-. eauto. }
  split.
  { intros L HL. destruct (CSPNet.Args.pred_node_level a); inv_run; [| discriminate].
    injection HL as <-. eauto. }
  split; [| reflexivity].
  intros L HL. destruct (CSPNet.Args.cfg a); inv_run; [| discriminate].
  injection HL as <-. eauto.
Qed.

(** X13: A backbone that the constructor has returned holds every attribute
    its forward paths read: a head exactly for each output that is switched
    on, the property projection exactly in classifier-free-guidance mode,
    the final layer norm exactly with [ln], an embedding table of
    [max_atoms] rows unless [smooth], and, under the name of every index
    below [num_layers], a layer of the same width that has its layer norm
    exactly with [ln]. *)
Theorem init_builds_what_forward_reads `{Primitives} (w : initialiser)
    (a : CSPNet.Args.t) (net : CSPNet.t) :
  CSPNet.init w a = inr net ->
  (is_Some (CSPNet.graph_out net) <-> CSPNet.pred_graph_level net = true)
  /\ (is_Some (CSPNet.node_out net) <-> CSPNet.pred_node_level net = true)
  /\ (is_Some (CSPNet.type_out net) <-> CSPNet.pred_type net = true)
  /\ (is_Some (CSPNet.y_projection net) <-> CSPNet.cfg net = true)
  /\ (is_Some (CSPNet.final_layer_norm net) <-> CSPNet.ln net = true)
  /\ (if CSPNet.smooth net
      then exists L, CSPNet.node_embedding net = inl L
                     /\ in_features L = CSPNet.max_atoms net
      else exists E, CSPNet.node_embedding net = inr E
                     /\ num_embeddings E = CSPNet.max_atoms net
                     /\ length (table E) = CSPNet.max_atoms net)
  /\ forall i, i < CSPNet.num_layers net ->
       exists layer,
         CSPNet._modules net !! layer_name i = Some layer
         /\ CSPLayer.hidden_dim layer = CSPNet.hidden_dim net
         /\ CSPLayer.ln layer = CSPNet.ln net
         /\ CSPLayer.ip layer = CSPNet.ip net
         /\ (is_Some (CSPLayer.layer_norm layer) <-> CSPNet.ln net = true).
Proof.
  intros Hrun.
  apply init_inr in Hrun as (m & gh & nh & yp & Hm & Hgh & Hnh & Hyp & _ & _ & _ & ->).
  cbn [CSPNet.graph_out CSPNet.node_out CSPNet.type_out CSPNet.y_projection
       CSPNet.final_layer_norm CSPNet.pred_graph_level CSPNet.pred_node_level
       CSPNet.pred_type CSPNet.cfg CSPNet.ln CSPNet.smooth CSPNet.node_embedding
       CSPNet.max_atoms CSPNet.num_layers CSPNet._modules CSPNet.hidden_dim CSPNet.ip].
  split; [exact Hgh |]. split; [exact Hnh |].
  split.
  { destruct (CSPNet.Args.pred_type a); split; intros Hx; try reflexivity;
      try discriminate; eauto. destruct Hx; discriminate. }
  split; [exact Hyp |].
  split.
  { destruct (CSPNet.Args.ln a); split; intros Hx; try reflexivity;
      try discriminate; eauto. destruct Hx; discriminate. }
  split.
  { destruct (CSPNet.Args.smooth a); eexists; split; try reflexivity.
    split; [reflexivity |]. cbn [table nn_Embedding]. unfold tabulate.
    rewrite length_fmap, length_seq. reflexivity. }
  intros i Hi.
  pose proof (add_layers_cases w (CSPNet.Args.hidden_dim a)
                (if decide (CSPNet.Args.act_fn a = "silu") then SiLU
                 else ActStr (CSPNet.Args.act_fn a))
                (if decide (CSPNet.Args.dis_emb a = "sin")
                 then Some (DisSin (SinusoidsEmbedding.init (CSPNet.Args.num_freqs a) 3))
                 else if decide (CSPNet.Args.dis_emb a = "none") then None
                      else Some (DisStr (CSPNet.Args.dis_emb a)))
                (CSPNet.Args.ln a) (CSPNet.Args.ip a)
                (seq 0 (CSPNet.Args.num_layers a)) ∅) as Hlayers.
  rewrite Hm in Hlayers. destruct Hlayers as (_ & Hreg & _).
  destruct (Hreg i) as (layer & Hlayer & Hinit); [apply elem_of_seq; lia |].
  exists layer. split; [exact Hlayer |].
  match type of Hinit with
  | CSPLayer.init ?w ?n ?h ?ac ?d ?l ?p = _ =>
      pose proof (layer_init_cases w n h ac d l p) as Hc
  end.
  rewrite Hinit in Hc. destruct Hc as (_ & _ & Hh & Hln & Hip & Hnorm & _).
  rewrite Hln. auto.
Qed.

Lemma init_builds_what_forward_reads_witness :
  is_Some (CSPNet.graph_out Toy.net)
  /\ exists layer, CSPNet._modules Toy.net !! layer_name 0 = Some layer.
Proof.
  assert (Hinit : CSPNet.init (H := Toy.prims) Toy.weights Toy.args = inr Toy.net)
    by (vm_compute; reflexivity).
  destruct (init_builds_what_forward_reads (H := Toy.prims) _ _ _ Hinit)
    as (Hg & _ & _ & _ & _ & _ & Hlayers).
  split; [apply Hg; reflexivity |].
  destruct (Hlayers 0) as (layer & Hl & _); [vm_compute; lia |].
  exists layer. exact Hl.
Defined.

(** ** Calls the constructed backbone cannot serve *)

Lemma conditional_inr `{Primitives} (self : CSPNet.t) (time_emb : mat)
    (atom_types : atom_input) (frac_coords : mat) (lattices : tensor3)
    (num_atoms node2graph : list nat) (y : option mat) (out : outputs) :
  CSPNet.conditional self time_emb atom_types frac_coords lattices num_atoms node2graph y
  = inr out ->
  is_Some y /\ is_Some (CSPNet.y_projection self).
Proof.
  unfold CSPNet.conditional. intros Hrun.
  apply bind_inr in Hrun as ([edges frac_diff] & _ & Hrun).
  apply bind_inr in Hrun as (edge2graph & _ & Hrun).
  apply bind_inr in Hrun as (nf & _ & Hrun).
  apply bind_inr in Hrun as (t_per_atom & _ & Hrun).
  apply bind_inr in Hrun as (yv & Hy & Hrun).
  apply bind_inr in Hrun as (P & HP & _).
  apply not_none_inr in Hy, HP. rewrite Hy, HP. eauto.
Qed.

(** X14: The conditional path needs the property and its projection: on a
    backbone constructed without classifier-free guidance [conditional],
    and [forward] called with [conditional=True], never return, whatever
    the input; nor do they on any backbone when [y] is left at [None]. *)
Theorem conditional_needs_cfg `{Primitives} (w : initialiser) (a : CSPNet.Args.t)
    (net : CSPNet.t) (time_emb : mat) (atom_types : atom_input) (frac_coords : mat)
    (lattices : tensor3) (num_atoms node2graph : list nat) (y : option mat) (g : rng) :
  CSPNet.init w a = inr net ->
  CSPNet.Args.cfg a = false \/ y = None ->
  (forall out, CSPNet.conditional net time_emb atom_types frac_coords lattices num_atoms
                                  node2graph y <> inr out)
  /\ (forall r, CSPNet.forward net time_emb atom_types frac_coords lattices num_atoms
                               node2graph y false true g <> inr r).
Proof.
  intros Hinit Hcase.
  assert (Hnever : forall out, CSPNet.conditional net time_emb atom_types frac_coords
                                 lattices num_atoms node2graph y <> inr out).
  { intros out Hrun. apply conditional_inr in Hrun as [Hy HP].
    destruct Hcase as [Hcfg | ->]; [| destruct Hy; discriminate].
    apply init_inr in Hinit as (m & gh & nh & yp & _ & _ & _ & Hyp & _ & _ & _ & ->).
    cbn [CSPNet.y_projection] in HP. apply Hyp in HP. congruence. }
  split; [exact Hnever |].
  intros [out g'] Hrun. unfold CSPNet.forward in Hrun.
  apply lift_inr in Hrun as [Hrun _]. eapply Hnever. exact Hrun.
Qed.

Lemma conditional_needs_cfg_witness :
  CSPNet.init (H := Toy.prims) Toy.weights Toy.args = inr Toy.net
  /\ forall out,
       CSPNet.conditional (H := Toy.prims) Toy.net [[1%Qc]; [Toy.half]]
         (AtomIds [1%Z; 3%Z]) Toy.x_3 Toy.l_3 [1; 1] [0; 1] (Some [[1%Qc]; [0%Qc]])
       <> inr out.
Proof.
  assert (Hinit : CSPNet.init (H := Toy.prims) Toy.weights Toy.args = inr Toy.net)
    by (vm_compute; reflexivity).
  split; [exact Hinit |].
  apply (conditional_needs_cfg (H := Toy.prims) Toy.weights Toy.args Toy.net
           [[1%Qc]; [Toy.half]] (AtomIds [1%Z; 3%Z]) Toy.x_3 Toy.l_3 [1; 1] [0; 1]
           (Some [[1%Qc]; [0%Qc]]) Toy.g0 Hinit).
  left. reflexivity.
Defined.

(** ** Species ids at the embedding table *)

Lemma call_embedding_inr (E : Embedding) (ids : list Z) (m : mat) :
  call_embedding E ids = inr m ->
  Forall (fun i => 0 <= i < Z.of_nat (num_embeddings E))%Z ids /\ length m = length ids.
Proof.
  unfold call_embedding. revert m.
  induction ids as [|i ids IH]; intros m Hrun; simpl in Hrun.
  - injection Hrun as <-. split; [constructor | reflexivity].
  - case_decide as Hi; [| discriminate Hrun]. inv_run.
    match goal with Hr : map_result _ ids = inr _ |- _ => apply IH in Hr as [Hr Hl] end.
    split; [constructor; assumption | simpl; rewrite Hl; reflexivity].
Qed.

(** X15: A backbone constructed with the embedding table (not [smooth]) looks
    species ids up 1-indexed: its paths only return when every id lies
    between 1 and [max_atoms]; the id 0 and ids above [max_atoms] are never
    looked up silently. *)
Theorem species_ids_index_the_table `{Primitives} (w : initialiser) (a : CSPNet.Args.t)
    (net : CSPNet.t) (time_emb : mat) (ids : list Z) (frac_coords : mat)
    (lattices : tensor3) (num_atoms node2graph : list nat) (y : option mat)
    (out : outputs) :
  CSPNet.init w a = inr net ->
  CSPNet.Args.smooth a = false ->
  CSPNet.unconditional net time_emb (AtomIds ids) frac_coords lattices num_atoms
                       node2graph y = inr out
  \/ CSPNet.conditional net time_emb (AtomIds ids) frac_coords lattices num_atoms
                        node2graph y = inr out ->
  Forall (fun i => 1 <= i <= Z.of_nat (CSPNet.Args.max_atoms a))%Z ids.
Proof.
  intros Hinit Hsmooth Hrun.
  apply init_inr in Hinit as (m & gh & nh & yp & _ & _ & _ & _ & _ & _ & _ & ->).
  assert (Hemb : exists nf,
             call_embedding (nn_Embedding w "node_embedding" (CSPNet.Args.max_atoms a)
                                          (CSPNet.Args.hidden_dim a))
                            ((fun i => i - 1)%Z <$> ids) = inr nf).
  { destruct Hrun as [Hrun | Hrun];
      [unfold CSPNet.unconditional in Hrun | unfold CSPNet.conditional in Hrun];
      cbn [CSPNet.smooth CSPNet.node_embedding] in Hrun; rewrite Hsmooth in Hrun;
      apply bind_inr in Hrun as ([edges frac_diff] & _ & Hrun);
      apply bind_inr in Hrun as (edge2graph & _ & Hrun);
      apply bind_inr in Hrun as (nf & Hnf & _);
      exists nf; exact Hnf. }
  destruct Hemb as [nf Hnf]. apply call_embedding_inr in Hnf as [Hids _].
  rewrite Forall_fmap in Hids. eapply Forall_impl; [exact Hids |].
  cbn. intros i Hi. lia.
Qed.

Lemma species_ids_index_the_table_witness :
  Forall (fun i => 1 <= i <= 3)%Z [1%Z; 3%Z].
Proof.
  destruct (CSPNet.unconditional (H := Toy.prims) Toy.net [[1%Qc]; [Toy.half]]
              (AtomIds [1%Z; 3%Z]) Toy.x_3 Toy.l_3 [1; 1] [0; 1] None)
    as [e|out] eqn:Hrun.
  { vm_compute in Hrun. discriminate Hrun. }
  apply (species_ids_index_the_table (H := Toy.prims) Toy.weights Toy.args Toy.net
           [[1%Qc]; [Toy.half]] [1%Z; 3%Z] Toy.x_3 Toy.l_3 [1; 1] [0; 1] None out).
  - vm_compute. reflexivity.
  - reflexivity.
  - left. exact Hrun.
Defined.

(** ** The shapes of the outputs *)

Lemma linear_row_length (L : Linear) (r : vec) :
  length (linear_row L r)
  = match bias L with
    | Some b => Nat.min (length (weight L)) (length b)
    | None => length (weight L)
    end.
Proof.
  unfold linear_row. destruct (bias L) as [b|].
  - rewrite length_zip_with, length_fmap. reflexivity.
  - apply length_fmap.
Qed.

Lemma nn_Linear_row_length (w : initialiser) name i o (b : bool) (r : vec) :
  length (linear_row (nn_Linear w name i o b) r) = o.
Proof.
  rewrite linear_row_length. unfold nn_Linear, tabulate. cbn [weight bias].
  destruct b; rewrite ?length_fmap, ?length_seq; lia.
Qed.

Lemma call_linear_inr (L : Linear) (x y : mat) :
  call_linear L x = inr y -> y = linear_row L <$> x.
Proof.
  unfold call_linear. destruct (forallb _ x); [| discriminate]. intros [= <-]. reflexivity.
Qed.

Lemma call_built_linear (w : initialiser) name i o (b : bool) (x y : mat) :
  call_linear (nn_Linear w name i o b) x = inr y ->
  length y = length x /\ Forall (fun r : vec => length r = o) y.
Proof.
  intros Hrun. apply call_linear_inr in Hrun as ->.
  split; [apply length_fmap |].
  apply Forall_fmap, Forall_forall. intros r _. apply nn_Linear_row_length.
Qed.

Lemma head_shape (w : initialiser) name i (b : bool) (dim : option nat) (flag : bool)
    (x : mat) (head : option Linear) (out : option mat) :
  (is_Some head <-> flag = true) ->
  (forall L, head = Some L -> exists o, dim = Some o /\ L = nn_Linear w name i o b) ->
  (if flag
   then L <- not_none AttributeError head ;; o <- call_linear L x ;; ret (Some o)
   else ret None) = inr out ->
  (is_Some out <-> flag = true)
  /\ forall y, out = Some y ->
       exists o, dim = Some o /\ length y = length x
                 /\ Forall (fun r : vec => length r = o) y.
Proof.
  intros Hflag Hhead Hrun. destruct flag.
  - apply bind_inr in Hrun as (L & HL & Hrun). apply not_none_inr in HL.
    apply Hhead in HL as (o & Ho & ->).
    apply bind_inr in Hrun as (y0 & Hy0 & Hrun). injection Hrun as <-.
    split; [split; eauto |]. intros y [= <-]. exists o.
    split; [exact Ho |]. eapply call_built_linear. exact Hy0.
  - injection Hrun as <-.
    split; [split; [intros [? ?] |]; discriminate |]. intros y Hy. discriminate.
Qed.

Lemma call_layer_norm_shape `{Primitives} (N : LayerNorm) (x y : mat) :
  call_layer_norm N x = inr y -> length y = length x.
Proof.
  unfold call_layer_norm. destruct (forallb _ x); [| discriminate]. intros [= <-].
  apply length_fmap.
Qed.

Lemma layer_forward_shape `{Primitives} (layer : CSPLayer.t) (h : mat) frac_coords
    lattices edges edge2graph frac_diff (h' : mat) :
  CSPLayer.forward layer h frac_coords lattices edges edge2graph frac_diff = inr h' ->
  same_shape h' h.
Proof.
  unfold CSPLayer.forward. intros Hrun.
  apply bind_inr in Hrun as (nf & _ & Hrun).
  apply bind_inr in Hrun as (ef & _ & Hrun).
  apply bind_inr in Hrun as (no & _ & Hrun).
  apply tmap2_shape in Hrun as [_ Hs]. exact Hs.
Qed.

Lemma layers_shape `{Primitives} (modules : gmap string CSPLayer.t) frac_coords lattices
    edges edge2graph frac_diff (indices : list nat) (start : result mat) (h h' : mat) :
  foldl (fun acc i =>
           x <- acc ;;
           layer <- not_none KeyError (modules !! ("csp_layer_" +:+ pretty i)) ;;
           CSPLayer.forward layer x frac_coords lattices edges edge2graph frac_diff)
        start indices = inr h' ->
  (forall h0, start = inr h0 -> same_shape h0 h) ->
  same_shape h' h.
Proof.
  revert start. induction indices as [|i indices IH]; intros start Hrun Hstart.
  - simpl in Hrun. apply Hstart. exact Hrun.
  - simpl in Hrun. eapply IH; [exact Hrun |].
    intros h0 Hh0. apply bind_inr in Hh0 as (x & Hx & Hh0).
    apply bind_inr in Hh0 as (layer & _ & Hh0).
    apply layer_forward_shape in Hh0.
    eapply same_shape_trans; [exact Hh0 | apply Hstart; exact Hx].
Qed.

Lemma scatter_add_length {A : Type} `{Tensor A} (out : list A) index src out' :
  scatter_add out index src = inr out' ->
  length out' = length out /\ length index = length src.
Proof.
  revert out src. induction index as [|i index IH]; intros out [|x src] Hrun;
    try discriminate.
  - injection Hrun as <-. auto.
  - simpl in Hrun. apply bind_inr in Hrun as (acc & _ & Hrun).
    apply bind_inr in Hrun as (acc' & _ & Hrun).
    apply IH in Hrun as [Hl Hi]. rewrite length_insert in Hl. simpl. auto.
Qed.

Lemma scatter_mean_length (w : nat) (src : mat) (index : list nat) (agg : mat) :
  scatter_mean w src index None = inr agg ->
  length agg = index_rows index /\ length index = length src.
Proof.
  unfold scatter_mean. intros Hrun.
  apply bind_inr in Hrun as (count & Hcount & Hrun).
  apply bind_inr in Hrun as (out & Hout & Hrun).
  injection Hrun as <-.
  apply scatter_add_length in Hcount as [Hc _].
  apply scatter_add_length in Hout as [Ho Hi].
  rewrite length_replicate in Hc. rewrite length_replicate in Ho.
  rewrite length_zip_with, length_fmap, Hc, Ho. unfold index_rows.
  split; [destruct index; lia | exact Hi].
Qed.

Lemma chunks_fuel_inr {A : Type} (fuel k : nat) (l : list A) rs :
  chunks_fuel fuel k l = inr rs ->
  Forall (fun r => length r = k) rs /\ concat rs = l.
Proof.
  revert l rs. induction fuel as [|fuel IH]; intros [|a l] rs Hrun; simpl in Hrun;
    try discriminate; try (injection Hrun as <-; split; [constructor | reflexivity]).
  case_decide as Hge; [discriminate |].
  apply bind_inr in Hrun as (rs' & Hrs' & Hrun). injection Hrun as <-.
  apply IH in Hrs' as [Hall Hcat]. split.
  - constructor; [| exact Hall]. rewrite length_take. simpl length. lia.
  - simpl concat. rewrite Hcat. apply take_drop.
Qed.

Lemma chunks_inr {A : Type} (k : nat) (l : list A) rs :
  chunks k l = inr rs ->
  0 < k /\ Forall (fun r => length r = k) rs /\ concat rs = l.
Proof.
  unfold chunks. case_decide as Hk; [discriminate |]. intros Hrun.
  apply chunks_fuel_inr in Hrun. split; [lia | exact Hrun].
Qed.

Lemma length_concat_uniform {A : Type} (k : nat) (ls : list (list A)) :
  Forall (fun r => length r = k) ls -> length (concat ls) = length ls * k.
Proof.
  induction 1 as [|r ls Hr _ IH]; [reflexivity |].
  simpl. rewrite length_app, IH, Hr. lia.
Qed.

Lemma view_33_inr (x : mat) (t : tensor3) :
  view_33 x = inr t ->
  Forall (fun m : mat => length m = 3 /\ Forall (fun r : vec => length r = 3) m) t
  /\ (Forall (fun r : vec => length r = 9) x -> length t = length x).
Proof.
  unfold view_33. intros Hrun.
  apply bind_inr in Hrun as (rows & Hrows & Hrun).
  apply chunks_inr in Hrows as (_ & Hrows3 & Hrowscat).
  apply chunks_inr in Hrun as (_ & Ht3 & Htcat).
  assert (Hall : Forall (Forall (fun r : vec => length r = 3)) t).
  { rewrite <- Htcat in Hrows3. apply Forall_concat in Hrows3. exact Hrows3. }
  split.
  - apply Forall_forall. intros m Hm. split.
    + rewrite Forall_forall in Ht3. apply Ht3. exact Hm.
    + rewrite Forall_forall in Hall. apply Hall. exact Hm.
  - intros Hx.
    pose proof (length_concat_uniform 9 x Hx) as L1.
    pose proof (length_concat_uniform 3 rows Hrows3) as L2.
    pose proof (length_concat_uniform 3 t Ht3) as L3.
    rewrite Hrowscat in L2. rewrite Htcat in L3. lia.
Qed.

Lemma matmul_rows (a b c : mat) :
  matmul a b = inr c -> length c = length a.
Proof.
  unfold matmul. destruct (forallb _ a); [| discriminate]. intros [= <-].
  apply length_fmap.
Qed.

Lemma call_node_embedding_rows (e : Linear + Embedding) (a : atom_input) (m : mat) :
  call_node_embedding e a = inr m -> length m = num_rows a.
Proof.
  destruct e as [L|E], a as [ids|p]; simpl; try discriminate.
  - intros Hrun. apply call_linear_inr in Hrun as ->. apply length_fmap.
  - intros Hrun. apply call_embedding_inr in Hrun as [_ Hl]. exact Hl.
Qed.

Lemma num_rows_minus_one (a : atom_input) : num_rows (minus_one a) = num_rows a.
Proof. destruct a; simpl; [apply length_fmap | apply length_map]. Qed.

(** X16: On a batch with one structure index per atom and, with [ip], one
    input lattice per structure (the structures being counted up to the
    largest entry of [node2graph]), the outputs of a constructed backbone,
    when it returns, have the shapes its callers rely on: one row of width
    3 per atom for the coordinates, one matrix of three rows per structure
    for the lattice, and each optional head is there exactly when it is
    switched on, with one row of its width per atom (types, node level) or
    per structure (graph level).  (Where the counts differ torch
    broadcasts an index or a batch dimension of size 1, which the
    embedding does not follow.) *)
Theorem backbone_output_shapes `{Primitives} (w : initialiser) (a : CSPNet.Args.t)
    (net : CSPNet.t) (time_emb : mat) (atom_types : atom_input) (frac_coords : mat)
    (lattices : tensor3) (num_atoms node2graph : list nat) (y : option mat)
    (coord : mat) (lattice : tensor3) (type graph node : option mat) :
  CSPNet.init w a = inr net ->
  CSPNet.unconditional net time_emb atom_types frac_coords lattices num_atoms
                       node2graph y = inr (coord, lattice, type, graph, node) ->
  length node2graph = num_rows atom_types ->
  (CSPNet.Args.ip a = true -> length lattices = index_rows node2graph) ->
  let atoms := num_rows atom_types in
  let graphs := index_rows node2graph in
  length coord = atoms
  /\ Forall (fun r : vec => length r = 3) coord
  /\ (is_Some type <-> CSPNet.Args.pred_type a = true)
  /\ (forall t, type = Some t ->
        length t = atoms /\ Forall (fun r : vec => length r = MAX_ATOMIC_NUM) t)
  /\ (is_Some node <-> CSPNet.Args.pred_node_level a = true)
  /\ (forall nd, node = Some nd ->
        exists d, CSPNet.Args.pred_dim a = Some d /\ length nd = atoms
                  /\ Forall (fun r : vec => length r = d) nd)
  /\ (is_Some graph <-> CSPNet.Args.pred_graph_level a = true)
  /\ (forall gr, graph = Some gr ->
        exists d, CSPNet.Args.pred_dim a = Some d /\ length gr = graphs
                  /\ Forall (fun r : vec => length r = d) gr)
  /\ length lattice = graphs
  /\ Forall (fun m : mat => length m = 3) lattice
  /\ (CSPNet.Args.ip a = false ->
      Forall (Forall (fun r : vec => length r = 3)) lattice).
Proof.
  intros Hinit Hrun Hindex Hlattices atoms graphs.
  apply init_inr in Hinit as (m & gh & nh & yp & _ & Hgh & Hnh & _ & Dgh & Dnh & _ & ->).
  unfold CSPNet.unconditional in Hrun.
  cbn [CSPNet.smooth CSPNet.node_embedding CSPNet.atom_latent_emb CSPNet.num_layers
       CSPNet._modules CSPNet.ln CSPNet.final_layer_norm CSPNet.coord_out
       CSPNet.pred_node_level CSPNet.node_out CSPNet.hidden_dim CSPNet.pred_graph_level
       CSPNet.graph_out CSPNet.lattice_out CSPNet.ip CSPNet.pred_type CSPNet.type_out]
    in Hrun.
  apply bind_inr in Hrun as ([edges frac_diff] & _ & Hrun).
  apply bind_inr in Hrun as (edge2graph & _ & Hrun).
  apply bind_inr in Hrun as (nf0 & Hnf0 & Hrun).
  apply bind_inr in Hrun as (t_per_atom & _ & Hrun).
  apply bind_inr in Hrun as (nf1 & Hnf1 & Hrun).
  apply bind_inr in Hrun as (nf2 & Hnf2 & Hrun).
  apply bind_inr in Hrun as (nf3 & Hnf3 & Hrun).
  apply bind_inr in Hrun as (nf4 & Hnf4 & Hrun).
  apply bind_inr in Hrun as (coord' & Hcoord & Hrun).
  apply bind_inr in Hrun as (node' & Hnode & Hrun).
  apply bind_inr in Hrun as (gf & Hgf & Hrun).
  apply bind_inr in Hrun as (graph' & Hgraph & Hrun).
  apply bind_inr in Hrun as (lat0 & Hlat0 & Hrun).
  apply bind_inr in Hrun as (lat1 & Hlat1 & Hrun).
  apply bind_inr in Hrun as (lat2 & Hlat2 & Hrun).
  apply bind_inr in Hrun as (type' & Htype & Hrun).
  injection Hrun as <- <- <- <- <-.
  assert (L0 : length nf0 = atoms).
  { destruct (CSPNet.Args.smooth a);
      apply call_node_embedding_rows in Hnf0; rewrite ?num_rows_minus_one in Hnf0;
      exact Hnf0. }
  assert (L1 : length nf1 = atoms).
  { apply zip_with_checked_length in Hnf1 as [_ Hl]. congruence. }
  assert (L2 : length nf2 = atoms).
  { apply call_built_linear in Hnf2 as [Hl _]. congruence. }
  assert (L3 : length nf3 = atoms).
  { rewrite <- L2. apply same_shape_length.
    eapply layers_shape; [exact Hnf3 |]. intros h0 [= <-]. apply same_shape_refl. }
  assert (L4 : length nf4 = atoms).
  { destruct (CSPNet.Args.ln a).
    - apply bind_inr in Hnf4 as (N & _ & Hnf4). apply call_layer_norm_shape in Hnf4.
      congruence.
    - injection Hnf4 as <-. exact L3. }
  apply call_built_linear in Hcoord as [Lc Wc].
  apply scatter_mean_length in Hgf as [Lg Li]. fold graphs in Lg.
  apply call_built_linear in Hlat0 as [Ll0 Wl0].
  apply view_33_inr in Hlat1 as [S1 Ll1]. specialize (Ll1 Wl0).
  eapply head_shape in Hnode as [Fnode Snode]; [| exact Hnh | exact Dnh].
  eapply head_shape in Hgraph as [Fgraph Sgraph]; [| exact Hgh | exact Dgh].
  eapply (head_shape w "type_out" (CSPNet.Args.hidden_dim a) true (Some MAX_ATOMIC_NUM))
    in Htype as [Ftype Stype].
  2: { destruct (CSPNet.Args.pred_type a); split; intros Hx; try reflexivity;
         try discriminate; eauto. destruct Hx; discriminate. }
  2: { intros L HL. destruct (CSPNet.Args.pred_type a); [| discriminate].
       injection HL as <-. eauto. }
  split; [congruence |]. split; [exact Wc |].
  split; [exact Ftype |].
  split.
  { intros t Ht. destruct (Stype t Ht) as (o & [= <-] & Hl & Hw).
    split; [congruence | exact Hw]. }
  split; [exact Fnode |].
  split.
  { intros nd Hnd. destruct (Snode nd Hnd) as (d & Hd & Hl & Hw).
    exists d. split; [exact Hd |]. split; [congruence | exact Hw]. }
  split; [exact Fgraph |].
  split.
  { intros gr Hgr. destruct (Sgraph gr Hgr) as (d & Hd & Hl & Hw).
    exists d. split; [exact Hd |]. split; [congruence | exact Hw]. }
  assert (S1len : Forall (fun m0 : mat => length m0 = 3) lat1).
  { eapply Forall_impl; [exact S1 |]. intros m0 [Hm0 _]. exact Hm0. }
  destruct (CSPNet.Args.ip a).
  - apply zip_with_checked_length in Hlat2 as Hl. destruct Hl as [Hl1 Hl2].
    split; [congruence |].
    split.
    { apply Forall_lookup. intros b mb Hb.
      destruct (lookup_lt_is_Some_2 lat1 b) as [m1 Hm1];
        [rewrite <- Hl2; eapply lookup_lt_Some; exact Hb |].
      destruct (lookup_lt_is_Some_2 lattices b) as [lb Hlb];
        [rewrite <- Hl1, <- Hl2; eapply lookup_lt_Some; exact Hb |].
      destruct (zip_with_checked_lookup _ _ _ _ _ _ _ Hlat2 Hm1 Hlb) as (c & Hc & Hmm).
      rewrite Hb in Hc. injection Hc as <-. apply matmul_rows in Hmm.
      rewrite Hmm. rewrite Forall_lookup in S1len. eapply S1len. exact Hm1. }
    discriminate.
  - injection Hlat2 as <-.
    split; [congruence |]. split; [exact S1len |]. intros _.
    eapply Forall_impl; [exact S1 |]. intros m0 [_ Hm0]. exact Hm0.
Qed.

Lemma backbone_output_shapes_witness :
  match CSPNet.unconditional (H := Toy.prims) Toy.net [[1%Qc]; [Toy.half]]
          (AtomIds [1%Z; 3%Z]) Toy.x_3 Toy.l_3 [1; 1] [0; 1] None with
  | inr (coord, lattice, type, graph, node) =>
      length coord = 2 /\ length lattice = 2 /\ is_Some type /\ is_Some graph
  | inl _ => False
  end.
Proof.
  destruct (CSPNet.unconditional (H := Toy.prims) Toy.net [[1%Qc]; [Toy.half]]
              (AtomIds [1%Z; 3%Z]) Toy.x_3 Toy.l_3 [1; 1] [0; 1] None)
    as [e|[[[[coord lattice] type] graph] node]] eqn:Hrun.
  { vm_compute in Hrun. discriminate Hrun. }
  assert (Hinit : CSPNet.init (H := Toy.prims) Toy.weights Toy.args = inr Toy.net)
    by (vm_compute; reflexivity).
  assert (Hindex : length [0; 1] = num_rows (AtomIds [1%Z; 3%Z])) by reflexivity.
  assert (Hlattices : CSPNet.Args.ip Toy.args = true ->
                      length Toy.l_3 = index_rows [0; 1]) by (intros _; reflexivity).
  pose proof (backbone_output_shapes (H := Toy.prims) _ _ _ _ _ _ _ _ _ _ _ _ _ _ _
                Hinit Hrun Hindex Hlattices) as Hthm.
  cbv zeta in Hthm.
  destruct Hthm as (Hc & _ & Ht & _ & _ & _ & Hg & _ & Hl & _).
  split; [exact Hc |]. split; [exact Hl |].
  split; [apply Ht; reflexivity | apply Hg; reflexivity].
Defined.

(** ** The fully-connected edges of any batch *)

Section NonZero.

(** The non-zero positions of a row, its columns being numbered by [g]. *)
Let positions (i : nat) (g : nat -> nat) (row : vec) : list (nat * nat) :=
  omap (fun p : nat * Qc => if decide (p.2 = 0%Qc) then None else Some (i, p.1))
       (imap (fun j x => (g j, x)) row).

Lemma positions_app i g (r1 r2 : vec) :
  positions i g (r1 ++ r2) = positions i g r1 ++ positions i (fun n => g (length r1 + n)) r2.
Proof. unfold positions. rewrite imap_app, omap_app. reflexivity. Qed.

Lemma positions_zeros i g (k : nat) : positions i g (replicate k 0%Qc) = [].
Proof.
  unfold positions. revert g. induction k as [|k IH]; intros g; [reflexivity |].
  simpl replicate. rewrite imap_cons. cbn [omap list_omap snd].
  rewrite decide_True by reflexivity. apply (IH (g ∘ S)).
Qed.

Lemma positions_ones i g (k : nat) :
  positions i g (replicate k 1%Qc) = (fun j => (i, g j)) <$> seq 0 k.
Proof.
  unfold positions. revert g. induction k as [|k IH]; intros g; [reflexivity |].
  simpl replicate. rewrite imap_cons. cbn [omap list_omap snd fst].
  rewrite decide_False by discriminate. simpl seq. rewrite fmap_cons. f_equal.
  etransitivity; [exact (IH (g ∘ S)) |].
  rewrite <- fmap_S_seq, <- list_fmap_compose. reflexivity.
Qed.

Lemma nonzero_row_block (i off n k : nat) :
  nonzero_row i (replicate off 0%Qc ++ replicate n 1%Qc ++ replicate k 0%Qc)
  = (fun j => (i, j)) <$> seq off n.
Proof.
  change (nonzero_row i ?r) with (positions i (fun j => j) r).
  rewrite !positions_app, positions_zeros, positions_ones, positions_zeros, app_nil_r.
  simpl. rewrite length_replicate.
  replace (seq off n) with (seq (off + 0) n) by (f_equal; lia).
  rewrite <- fmap_add_seq, <- list_fmap_compose. reflexivity.
Qed.

End NonZero.

Lemma imap_replicate {A B : Type} (f : nat -> A -> B) (n : nat) (x : A) :
  imap f (replicate n x) = (fun a => f a x) <$> seq 0 n.
Proof.
  revert f. induction n as [|n IH]; intros f; [reflexivity |].
  simpl replicate. rewrite imap_cons, (IH (f ∘ S)). simpl. f_equal.
  rewrite <- fmap_S_seq, <- list_fmap_compose. reflexivity.
Qed.

Lemma concat_fmap_bind {A B : Type} (f : A -> list B) (l : list A) :
  concat (f <$> l) = l ≫= f.
Proof.
  induction l as [|a l IH]; [reflexivity |].
  rewrite fmap_cons. cbn [concat]. rewrite IH. reflexivity.
Qed.

Lemma bind_fmap_list {A B C : Type} (f : A -> B) (g : B -> list C) (l : list A) :
  (f <$> l) ≫= g = l ≫= (g ∘ f).
Proof.
  induction l as [|a l IH]; [reflexivity |].
  rewrite fmap_cons. change ((f a :: (f <$> l)) ≫= g) with (g (f a) ++ ((f <$> l) ≫= g)).
  rewrite IH. reflexivity.
Qed.

(** The non-zero positions of the block-diagonal matrix of all-ones
    blocks. *)
Lemma nonzero_blocks (total : nat) (ns : list nat) (off : nat) :
  concat (imap (fun a => nonzero_row (off + a))
               (block_rows total off ((fun n => ones n n) <$> ns)))
  = fc_pairs off ns.
Proof.
  revert off. induction ns as [|n ns IH]; intros off; [reflexivity |].
  rewrite fmap_cons. cbn [block_rows ones entries ncols fc_pairs].
  change (map ?f ?l) with (f <$> l). rewrite fmap_replicate.
  rewrite imap_app, concat_app. f_equal.
  - rewrite imap_replicate.
    erewrite list_fmap_ext; [| intros ? a ?; apply nonzero_row_block].
    rewrite concat_fmap_bind. unfold cprod, list_cprod.
    replace (seq off n ≫= (fun x => pair x <$> seq off n))
      with ((Nat.add off <$> seq 0 n) ≫= (fun x => pair x <$> seq off n))
      by (rewrite fmap_add_seq; do 2 f_equal; lia).
    rewrite bind_fmap_list. reflexivity.
  - rewrite length_replicate. rewrite <- (IH (off + n)).
    f_equal. apply imap_ext. intros a r _. f_equal. lia.
Qed.

Lemma fc_edges_pairs (ns : list nat) :
  (dense_to_sparse (block_diag ((fun n => ones n n) <$> ns))).1
  = ((fc_pairs 0 ns).*1, (fc_pairs 0 ns).*2).
Proof.
  unfold dense_to_sparse. cbn [fst].
  assert (Hnz : nonzero (entries (block_diag ((fun n => ones n n) <$> ns)))
                = fc_pairs 0 ns).
  { destruct ns as [|n ns]; [reflexivity |].
    rewrite <- (nonzero_blocks
                  (sum_list (ncols <$> ((fun n => ones n n) <$> (n :: ns)))) (n :: ns) 0).
    reflexivity. }
  rewrite Hnz. reflexivity.
Qed.

Lemma fc_pairs_length (off : nat) (ns : list nat) :
  length (fc_pairs off ns) = sum_list ((fun n => n * n) <$> ns).
Proof.
  revert off. induction ns as [|n ns IH]; intros off; [reflexivity |].
  cbn [fc_pairs]. rewrite length_app, IH, list_cprod_list_prod, length_prod, !length_seq.
  reflexivity.
Qed.

Lemma fc_pairs_bounds (off : nat) (ns : list nat) (i j : nat) :
  (i, j) ∈ fc_pairs off ns ->
  off <= i < off + sum_list ns /\ off <= j < off + sum_list ns.
Proof.
  revert off. induction ns as [|n ns IH]; intros off Hin; [inversion Hin |].
  cbn [fc_pairs] in Hin. apply elem_of_app in Hin as [Hin | Hin].
  - apply list_elem_of_cprod in Hin as [Hi Hj]. simpl in Hi, Hj.
    apply elem_of_seq in Hi, Hj. simpl. lia.
  - apply IH in Hin. simpl. lia.
Qed.

Lemma fc_pairs_NoDup (off : nat) (ns : list nat) : NoDup (fc_pairs off ns).
Proof.
  revert off. induction ns as [|n ns IH]; intros off; [constructor |].
  cbn [fc_pairs]. apply NoDup_app. split; [| split; [| apply IH]].
  - unfold cprod, list_cprod. apply NoDup_bind.
    + intros x1 x2 [a b] _ _ H1 H2.
      apply list_elem_of_fmap in H1 as (? & [= -> ->] & _).
      apply list_elem_of_fmap in H2 as (? & [= -> ->] & _). reflexivity.
    + intros x _. apply NoDup_fmap; [| apply NoDup_seq]. intros ? ? [= ->]. reflexivity.
    + apply NoDup_seq.
  - intros [i j] H1 H2. apply list_elem_of_cprod in H1 as [Hi _]. simpl in Hi.
    apply elem_of_seq in Hi. apply fc_pairs_bounds in H2. lia.
Qed.

(** A pair is an edge exactly when its two atoms belong to one
    structure. *)
Lemma fc_pairs_same_owner (off : nat) (ns : list nat) (i j : nat) :
  (i, j) ∈ fc_pairs off ns
  <-> off <= i /\ off <= j
      /\ exists b, owners ns !! (i - off) = Some b /\ owners ns !! (j - off) = Some b.
Proof.
  revert off. induction ns as [|n ns IH]; intros off.
  - split; [intros Hin; inversion Hin |]. intros (_ & _ & b & Hb & _). discriminate Hb.
  - cbn [fc_pairs]. rewrite elem_of_app, list_elem_of_cprod, IH, owners_cons.
    cbn [fst snd]. rewrite !elem_of_seq.
    split.
    + intros [[Hi Hj] | (Hi & Hj & b & Hbi & Hbj)].
      * split; [lia |]. split; [lia |]. exists 0.
        rewrite !lookup_app_l by (rewrite length_replicate; lia).
        split; apply lookup_replicate_2; lia.
      * split; [lia |]. split; [lia |]. exists (S b).
        rewrite !lookup_app_r by (rewrite length_replicate; lia).
        rewrite length_replicate, !list_lookup_fmap.
        replace (i - off - n) with (i - (off + n)) by lia.
        replace (j - off - n) with (j - (off + n)) by lia.
        rewrite Hbi, Hbj. auto.
    + intros (Hi & Hj & b & Hbi & Hbj).
      destruct (decide (i - off < n)) as [Hin | Hin].
      * rewrite lookup_app_l in Hbi by (rewrite length_replicate; lia).
        apply lookup_replicate in Hbi as [-> _].
        destruct (decide (j - off < n)) as [Hjn | Hjn]; [left; lia |].
        rewrite lookup_app_r in Hbj by (rewrite length_replicate; lia).
        rewrite list_lookup_fmap in Hbj.
        destruct (owners ns !! _); discriminate Hbj.
      * rewrite lookup_app_r in Hbi by (rewrite length_replicate; lia).
        rewrite length_replicate, list_lookup_fmap in Hbi.
        apply fmap_Some in Hbi as (b' & Hbi & ->).
        destruct (decide (j - off < n)) as [Hjn | Hjn].
        { rewrite lookup_app_l in Hbj by (rewrite length_replicate; lia).
          apply lookup_replicate in Hbj as [Hbj _]. discriminate Hbj. }
        rewrite lookup_app_r in Hbj by (rewrite length_replicate; lia).
        rewrite length_replicate, list_lookup_fmap in Hbj.
        apply fmap_Some in Hbj as (b'' & Hbj & [= <-]).
        right. split; [lia |]. split; [lia |]. exists b'.
        replace (i - (off + n)) with (i - off - n) by lia.
        replace (j - (off + n)) with (j - off - n) by lia. auto.
Qed.

Lemma index_select_total {A : Type} (t : list A) (idx : list nat) :
  Forall (fun i => i < length t) idx ->
  exists r, index_select t idx = inr r
            /\ length r = length idx
            /\ forall k i, idx !! k = Some i -> r !! k = t !! i.
Proof.
  induction 1 as [|i idx Hi _ (r & Hr & Hl & Hspec)].
  - exists []. split; [reflexivity |]. split; [reflexivity |]. intros k i Hk. discriminate.
  - destruct (lookup_lt_is_Some_2 t i Hi) as [x Hx].
    exists (x :: r). simpl. rewrite Hx. simpl. rewrite Hr. simpl.
    split; [reflexivity |]. split; [rewrite Hl; reflexivity |].
    intros [|k] j Hk; simpl in *; [injection Hk as <-; symmetry; exact Hx |].
    apply Hspec. exact Hk.
Qed.

Lemma vec_tsub (a b : vec) :
  length a = length b -> tsub a b = inr (zip_with Qcminus a b).
Proof.
  revert b. induction a as [|x a IH]; intros [|y b] Hl; try discriminate.
  - reflexivity.
  - unfold tsub in *. simpl in *. rewrite IH by lia. reflexivity.
Qed.

Lemma rows_tsub (w : nat) (a b : mat) :
  length a = length b ->
  Forall (fun r : vec => length r = w) a ->
  Forall (fun r : vec => length r = w) b ->
  tsub a b = inr (zip_with (zip_with Qcminus) a b).
Proof.
  revert b. induction a as [|x a IH]; intros [|y b] Hl Ha Hb; try discriminate.
  - reflexivity.
  - inversion Ha; subst. inversion Hb; subst.
    change (tsub (x :: a) (y :: b))
      with (c <- tsub x y ;; cs <- tsub a b ;; ret (c :: cs)).
    rewrite vec_tsub by congruence. cbn [bind].
    rewrite IH by (simpl in Hl; auto; lia). reflexivity.
Qed.

Lemma wrap_zip_with (a b : vec) :
  wrap (zip_with Qcminus a b) = zip_with (fun x y => fmod1 (x - y)%Qc) a b.
Proof.
  revert b. induction a as [|x a IH]; intros [|y b]; try reflexivity.
  unfold wrap in *. simpl in *. rewrite IH. reflexivity.
Qed.

Lemma fmod1_0 : fmod1 0 = 0%Qc.
Proof. apply Qc_is_canon. reflexivity. Qed.

Lemma zero_displacement (x : vec) :
  zip_with (fun a b => fmod1 (a - b)%Qc) x x = replicate (length x) 0%Qc.
Proof.
  induction x as [|a x IH]; [reflexivity |]. simpl. rewrite IH. f_equal.
  replace (a - a)%Qc with 0%Qc by ring. apply fmod1_0.
Qed.

(** X17: The fully-connected edge builder on any batch whose coordinates cover
    its atoms: it returns, for each structure in turn, every ordered pair
    of its atoms, the self-loops included and no pair twice, that is the sum
    of the squared atom counts many edges; two atoms are joined exactly
    when they belong to the same structure.  The edge from [i] to [j]
    carries the displacement [(x_j - x_i) mod 1], which is zero on a
    self-loop.  A batch without structures has no edge. *)
Theorem gen_edges_fc_all_pairs `{Primitives} (self : CSPNet.t) (num_atoms : list nat)
    (frac_coords : mat) (lattices : tensor3) (node2graph : list nat) (w : nat) :
  CSPNet.edge_style self = "fc" ->
  sum_list num_atoms <= length frac_coords ->
  Forall (fun r : vec => length r = w) frac_coords ->
  exists e1 e2 frac_diff,
    CSPNet.gen_edges self num_atoms frac_coords lattices node2graph
    = inr (Some ((e1, e2), frac_diff))
    /\ zip e1 e2 = fc_pairs 0 num_atoms
    /\ length e1 = sum_list ((fun n => n * n) <$> num_atoms)
    /\ length e2 = length e1
    /\ length frac_diff = length e1
    /\ NoDup (zip e1 e2)
    /\ (forall i j, (i, j) ∈ zip e1 e2
                    <-> exists b, owners num_atoms !! i = Some b
                                  /\ owners num_atoms !! j = Some b)
    /\ (forall e i j xi xj,
          e1 !! e = Some i -> e2 !! e = Some j ->
          frac_coords !! i = Some xi -> frac_coords !! j = Some xj ->
          frac_diff !! e = Some (zip_with (fun a b => fmod1 (a - b)%Qc) xj xi))
    /\ (forall e i, e1 !! e = Some i -> e2 !! e = Some i ->
                    frac_diff !! e = Some (replicate w 0%Qc)).
Proof.
  intros Hfc Hcover Hrows. unfold CSPNet.gen_edges.
  rewrite decide_True by exact Hfc. rewrite fc_edges_pairs. cbn [fst snd].
  set (pairs := fc_pairs 0 num_atoms).
  assert (Hb : forall i j, (i, j) ∈ pairs -> i < length frac_coords /\ j < length frac_coords).
  { intros i j Hin. apply fc_pairs_bounds in Hin. lia. }
  assert (Hb1 : Forall (fun i => i < length frac_coords) pairs.*1).
  { apply Forall_fmap, Forall_forall. intros [i j] Hin. apply Hb in Hin. simpl. lia. }
  assert (Hb2 : Forall (fun i => i < length frac_coords) pairs.*2).
  { apply Forall_fmap, Forall_forall. intros [i j] Hin. apply Hb in Hin. simpl. lia. }
  destruct (index_select_total frac_coords _ Hb2) as (xj & Hxj & Lj & Sj).
  destruct (index_select_total frac_coords _ Hb1) as (xi & Hxi & Li & Si).
  rewrite Hxj. cbn [bind]. rewrite Hxi. cbn [bind].
  assert (Rj : Forall (fun r : vec => length r = w) xj).
  { apply Forall_lookup. intros k r Hk.
    destruct (lookup_lt_is_Some_2 pairs.*2 k) as [j Hj];
      [rewrite <- Lj; eapply lookup_lt_Some; exact Hk |].
    rewrite (Sj _ _ Hj) in Hk. rewrite Forall_lookup in Hrows. eapply Hrows. exact Hk. }
  assert (Ri : Forall (fun r : vec => length r = w) xi).
  { apply Forall_lookup. intros k r Hk.
    destruct (lookup_lt_is_Some_2 pairs.*1 k) as [i Hi];
      [rewrite <- Li; eapply lookup_lt_Some; exact Hk |].
    rewrite (Si _ _ Hi) in Hk. rewrite Forall_lookup in Hrows. eapply Hrows. exact Hk. }
  rewrite (rows_tsub w) by (try assumption; rewrite Lj, Li, !length_fmap; reflexivity).
  cbn [bind ret].
  assert (Hzip : zip pairs.*1 pairs.*2 = pairs) by apply zip_fst_snd.
  assert (Hdiff : forall e i j xi0 xj0,
             pairs.*1 !! e = Some i -> pairs.*2 !! e = Some j ->
             frac_coords !! i = Some xi0 -> frac_coords !! j = Some xj0 ->
             wrap (zip_with (zip_with Qcminus) xj xi) !! e
             = Some (zip_with (fun a b => fmod1 (a - b)%Qc) xj0 xi0)).
  { intros e i j xi0 xj0 He1 He2 Hi Hj.
    unfold wrap. cbn [tmap list_tensor]. change (map ?f ?l) with (f <$> l).
    rewrite list_lookup_fmap, lookup_zip_with.
    rewrite (Sj _ _ He2), Hj. cbn [mbind option_bind].
    rewrite (Si _ _ He1), Hi. cbn [mbind option_bind fmap option_fmap option_map].
    f_equal. apply (wrap_zip_with xj0 xi0). }
  exists pairs.*1, pairs.*2, (wrap (zip_with (zip_with Qcminus) xj xi)).
  split; [reflexivity |]. split; [exact Hzip |].
  split; [rewrite length_fmap; apply fc_pairs_length |].
  split; [rewrite !length_fmap; reflexivity |].
  split.
  { unfold wrap. cbn [tmap list_tensor]. rewrite length_map, length_zip_with, Lj, Li.
    rewrite !length_fmap. lia. }
  split; [rewrite Hzip; apply fc_pairs_NoDup |].
  split.
  { intros i j. rewrite Hzip. unfold pairs. rewrite fc_pairs_same_owner.
    rewrite !Nat.sub_0_r. split; [intros (_ & _ & Hx); exact Hx |].
    intros Hx. split; [lia |]. split; [lia | exact Hx]. }
  split; [exact Hdiff |].
  intros e i He1 He2.
  destruct (lookup_lt_is_Some_2 frac_coords i) as [x Hx].
  { rewrite Forall_lookup in Hb1. eapply Hb1. exact He1. }
  rewrite (Hdiff e i i x x He1 He2 Hx Hx), zero_displacement.
  rewrite Forall_lookup in Hrows. rewrite (Hrows _ _ Hx). reflexivity.
Qed.

Lemma gen_edges_fc_all_pairs_witness :
  exists e1 e2 frac_diff,
    CSPNet.gen_edges (H := Toy.prims) Toy.net [2; 0; 3] Toy.coords5
                     [Toy.eye; Toy.eye; Toy.eye] [0; 0; 2; 2; 2]
    = inr (Some ((e1, e2), frac_diff))
    /\ length e1 = 13
    /\ NoDup (zip e1 e2).
Proof.
  destruct (gen_edges_fc_all_pairs (H := Toy.prims) Toy.net [2; 0; 3] Toy.coords5
              [Toy.eye; Toy.eye; Toy.eye] [0; 0; 2; 2; 2] 3)
    as (e1 & e2 & d & Hrun & _ & Hlen & _ & _ & Hnd & _).
  - reflexivity.
  - simpl. lia.
  - repeat constructor.
  - exists e1, e2, d. split; [exact Hrun |]. split; [exact Hlen | exact Hnd].
Defined.

(** * Further properties of the embeddings *)

(** ** The time embedding *)

(** X18: [SinusoidalTimeEmbeddings.forward] raises [ZeroDivisionError] exactly
    for the dimensions 2 and 3 (half the dimension is 1).  Otherwise it
    returns one row per timestep, of width twice [dim // 2] (for an odd
    [dim] that is [dim - 1], and no column at all below 2): the sines of
    [t * exp(-k * log(10000) / (dim // 2 - 1))] for [k] from 0, followed by
    the cosines. *)
Theorem time_embedding_rows `{Primitives} (self : SinusoidalTimeEmbeddings.t)
    (time : list Z) :
  let half_dim := (SinusoidalTimeEmbeddings.dim self / 2)%nat in
  let freq (k : nat) : Qc :=
    fexp (Z2Qc (Z.of_nat k) * - (log_10000 / Z2Qc (Z.of_nat half_dim - 1)))%Qc in
  match SinusoidalTimeEmbeddings.forward self time with
  | inl e => e = ZeroDivisionError /\ half_dim = 1
  | inr emb =>
      half_dim <> 1
      /\ length emb = length time
      /\ Forall (fun r : vec => length r = 2 * half_dim) emb
      /\ forall i t k,
           time !! i = Some t -> k < half_dim ->
           entry2 emb i k = Some (fsin (Z2Qc t * freq k)%Qc)
           /\ entry2 emb i (half_dim + k) = Some (fcos (Z2Qc t * freq k)%Qc)
  end.
Proof.
  intros half_dim freq. unfold SinusoidalTimeEmbeddings.forward. fold half_dim.
  case_decide as Hz; cbn [bind ret raise]; [split; [reflexivity | lia] |].
  split; [lia |]. split; [rewrite !length_fmap; reflexivity |].
  split.
  { apply Forall_fmap, Forall_fmap, Forall_forall. intros t _. simpl.
    rewrite ?length_app, ?length_map, ?length_fmap, ?length_seq. lia. }
  intros i t k Ht Hk. unfold entry2.
  rewrite !list_lookup_fmap, Ht. cbn [fmap option_fmap option_map mbind option_bind].
  assert (Hrow : tscale (Z2Qc t)
                   ((fun k0 => fexp (Z2Qc (Z.of_nat k0)
                                     * - (log_10000 / Z2Qc (Z.of_nat half_dim - 1)))%Qc)
                      <$> seq 0 half_dim) !! k
                 = Some (Z2Qc t * freq k)%Qc).
  { unfold tscale. cbn [tmap list_tensor scalar_tensor].
    change (map ?f ?l) with (f <$> l).
    rewrite !list_lookup_fmap, lookup_seq_lt by exact Hk. reflexivity. }
  cbn [tmap list_tensor scalar_tensor]. change (map ?f ?l) with (f <$> l).
  match goal with |- context [(_ <$> ?r) ++ _] => set (row := r) in * end.
  assert (Hl : length row = half_dim).
  { unfold row, tscale. cbn [tmap list_tensor].
    rewrite ?length_map, ?length_fmap, ?length_seq. reflexivity. }
  split.
  - rewrite lookup_app_l by (rewrite length_fmap, Hl; exact Hk).
    rewrite list_lookup_fmap, Hrow. reflexivity.
  - rewrite lookup_app_r by (rewrite length_fmap, Hl; lia).
    rewrite length_fmap, Hl.
    replace (half_dim + k - half_dim) with k by lia.
    rewrite list_lookup_fmap, Hrow. reflexivity.
Qed.

(** ** The distance embedding *)

Lemma chunks_fuel_concat {A : Type} (k fuel : nat) (rows : list (list A)) :
  0 < k ->
  Forall (fun r => length r = k) rows ->
  length rows <= fuel ->
  chunks_fuel fuel k (concat rows) = inr rows.
Proof.
  intros Hk Hrows. revert fuel. induction Hrows as [|r rows Hr _ IH]; intros fuel Hf.
  - destruct fuel; reflexivity.
  - destruct fuel as [|fuel]; [simpl in Hf; lia |].
    destruct r as [|a r]; [simpl in Hr; lia |].
    cbn [concat]. change ((a :: r) ++ concat rows) with (a :: (r ++ concat rows)).
    cbn [chunks_fuel]. rewrite decide_False by (simpl; rewrite length_app; simpl in Hr; lia).
    change (a :: (r ++ concat rows)) with ((a :: r) ++ concat rows).
    replace (drop k ((a :: r) ++ concat rows)) with (concat rows)
      by (rewrite <- Hr; symmetry; apply drop_app_length).
    rewrite IH by (simpl in Hf; lia). cbn [bind ret].
    replace (take k ((a :: r) ++ concat rows)) with (a :: r)
      by (rewrite <- Hr; symmetry; apply take_app_length).
    reflexivity.
Qed.

Lemma chunks_concat {A : Type} (k : nat) (rows : list (list A)) :
  0 < k ->
  Forall (fun r => length r = k) rows ->
  chunks k (concat rows) = inr rows.
Proof.
  intros Hk Hrows. unfold chunks. rewrite decide_False by lia.
  apply chunks_fuel_concat; [exact Hk | exact Hrows |].
  rewrite (length_concat_uniform k rows Hrows). nia.
Qed.

Lemma concat_concat {A : Type} (l : list (list (list A))) :
  concat (concat l) = concat ((fun m => concat m) <$> l).
Proof.
  induction l as [|x l IH]; [reflexivity |].
  rewrite fmap_cons. cbn [concat]. rewrite concat_app, IH. reflexivity.
Qed.

(** X19: The distance embedding of [n_freq] frequencies over rows of [space]
    coordinates returns one row per input row, of the width [dim] the
    layers size their edge network with: for every coordinate and every
    frequency [2 * pi * k] the sine of their product, coordinate by
    coordinate, followed by the cosines.  With no frequency or no
    coordinate it raises instead. *)
Theorem distance_embedding_rows `{Primitives} (n_freq space : nat) (x : mat) :
  let self := SinusoidsEmbedding.init n_freq space in
  let angles (r : vec) : vec :=
    concat ((fun xi : Qc =>
               (fun k => xi * (2 * math_pi * Z2Qc (Z.of_nat k)))%Qc <$> seq 0 n_freq)
              <$> r) in
  (n_freq * space = 0 -> SinusoidsEmbedding.forward self x = inl RuntimeError)
  /\ (0 < n_freq * space ->
      Forall (fun r : vec => length r = space) x ->
      exists emb,
        SinusoidsEmbedding.forward self x = inr emb
        /\ length emb = length x
        /\ Forall (fun r : vec => length r = SinusoidsEmbedding.dim self) emb
        /\ forall a r, x !! a = Some r ->
                       emb !! a = Some ((fsin <$> angles r) ++ (fcos <$> angles r))).
Proof.
  intros self angles. unfold SinusoidsEmbedding.forward.
  cbn [SinusoidsEmbedding.n_frequencies SinusoidsEmbedding.n_space
       SinusoidsEmbedding.frequencies SinusoidsEmbedding.dim self SinusoidsEmbedding.init].
  split.
  { intros Hz. unfold chunks. rewrite decide_True by exact Hz. reflexivity. }
  intros Hpos Hx.
  assert (Hrow : forall r : vec,
             concat ((fun xi : Qc =>
                        tscale xi ((fun k => 2 * math_pi * Q2Qc (inject_Z (Z.of_nat k)))%Qc
                                     <$> seq 0 n_freq)) <$> r)
             = angles r).
  { intros r. unfold angles. f_equal. apply list_fmap_ext. intros _ xi _.
    unfold tscale. cbn [tmap list_tensor scalar_tensor]. change (map ?f ?l) with (f <$> l).
    rewrite <- list_fmap_compose. reflexivity. }
  assert (Hlen : forall r : vec, length (angles r) = length r * n_freq).
  { intros r. unfold angles. rewrite (length_concat_uniform n_freq).
    - rewrite length_fmap. reflexivity.
    - apply Forall_fmap, Forall_forall. intros xi _. simpl.
      rewrite length_fmap, length_seq. reflexivity. }
  rewrite concat_concat, <- list_fmap_compose.
  erewrite (list_fmap_ext _ angles); [| intros _ r _; apply Hrow].
  rewrite chunks_concat.
  2: exact Hpos.
  2: { apply Forall_fmap. eapply Forall_impl; [exact Hx |]. intros r Hr. simpl.
       rewrite Hlen, Hr. lia. }
  cbn [bind ret]. eexists. split; [reflexivity |].
  split; [rewrite !length_fmap; reflexivity |].
  split.
  { apply Forall_fmap, Forall_fmap. eapply Forall_impl; [exact Hx |]. intros r Hr. simpl.
    rewrite length_app, !length_map, Hlen, Hr. lia. }
  intros a r Ha. rewrite !list_lookup_fmap, Ha. reflexivity.
Qed.

Lemma distance_embedding_rows_witness :
  exists emb,
    SinusoidsEmbedding.forward (H := Toy.prims)
      (SinusoidsEmbedding.init (H := Toy.prims) 2 3) Toy.x_3 = inr emb
    /\ length emb = 2
    /\ Forall (fun r : vec => length r = 12) emb.
Proof.
  destruct (distance_embedding_rows (H := Toy.prims) 2 3 Toy.x_3) as [_ Hthm].
  destruct Hthm as (emb & Hrun & Hl & Hw & _).
  - simpl. lia.
  - repeat constructor.
  - exists emb. split; [exact Hrun |]. split; [exact Hl | exact Hw].
Defined.

(** * The context manager of the guidance gradient *)

Section Flags.

Import RequiresGradContext.

Lemma judge_all_tensors (s : flags) (ids : list nat) :
  judge_all s (ObjTensor <$> ids) = inr (s <$> ids).
Proof.
  induction ids as [|id ids IH]; [reflexivity |].
  rewrite !fmap_cons. cbn [judge_all judge_requires_grad]. rewrite IH. reflexivity.
Qed.

Lemma set_all_tensors (ids : list nat) (bs : list bool) (s : flags) :
  set_all (zip (ObjTensor <$> ids) bs) s
  = inr (foldl (fun s p => set_flag p.1 p.2 s) s (zip ids bs)).
Proof.
  revert bs s. induction ids as [|id ids IH]; intros [|b bs] s; try reflexivity.
  rewrite fmap_cons. cbn [zip zip_with set_all requires_grad_ ret bind foldl fst snd].
  apply IH.
Qed.

Lemma set_flags_other (ps : list (nat * bool)) (s : flags) (k : nat) :
  k ∉ ps.*1 -> foldl (fun s p => set_flag p.1 p.2 s) s ps k = s k.
Proof.
  revert s. induction ps as [|[id b] ps IH]; intros s Hk; [reflexivity |].
  cbn [foldl fst snd]. rewrite IH.
  - unfold set_flag. rewrite decide_False; [reflexivity |].
    intros ->. apply Hk. left.
  - intros Hin. apply Hk. right. exact Hin.
Qed.

(** The last request for a tensor is the one that stays. *)
Lemma set_flags_last (ps : list (nat * bool)) (s : flags) (i id : nat) (b : bool) :
  ps !! i = Some (id, b) ->
  (forall j b', i < j -> ps !! j <> Some (id, b')) ->
  foldl (fun s p => set_flag p.1 p.2 s) s ps id = b.
Proof.
  revert s i. induction ps as [|[id0 b0] ps IH]; intros s i Hi Hlast; [discriminate |].
  cbn [foldl fst snd]. destruct i as [|i].
  - injection Hi as -> ->. rewrite set_flags_other.
    + unfold set_flag. rewrite decide_True by reflexivity. reflexivity.
    + intros Hin. apply list_elem_of_fmap in Hin as ([id' b'] & Heq & Hin).
      simpl in Heq. subst id'. apply list_elem_of_lookup in Hin as [j Hj].
      apply (Hlast (S j) b'); [lia | exact Hj].
  - eapply (IH _ i); [exact Hi |]. intros j b' Hj. apply (Hlast (S j) b'). lia.
Qed.

(** Writing the flags read from [s] back restores [s] on the tensors
    written, whatever happened to them in between. *)
Lemma set_flags_restore (ids : list nat) (s s1 : flags) (k : nat) :
  foldl (fun s p => set_flag p.1 p.2 s) s1 (zip ids (s <$> ids)) k
  = if decide (k ∈ ids) then s k else s1 k.
Proof.
  revert s1. induction ids as [|id ids IH]; intros s1.
  - rewrite decide_False by (intros Hin; inversion Hin). reflexivity.
  - rewrite fmap_cons. cbn [zip zip_with foldl fst snd]. rewrite IH.
    destruct (decide (k ∈ ids)) as [Hin | Hnin].
    + rewrite decide_True by (right; exact Hin). reflexivity.
    + unfold set_flag. destruct (decide (k = id)) as [-> | Hne].
      * rewrite decide_True by left. reflexivity.
      * rewrite decide_False; [reflexivity |].
        intros Hin. apply elem_of_cons in Hin as [? | ?]; contradiction.
Qed.

End Flags.

(** X20: Around the guidance gradient: a context built over tensors sets on
    entry the flag requested for each of them (the last request, when one
    tensor is passed twice) and touches no other tensor; on exit every
    flag is as it was when the context was built, also for a tensor passed
    twice. *)
Theorem requires_grad_context_restores (s : flags) (ids : list nat)
    (requires_grad : requires_grad_arg) (ctx : RequiresGradContext.t) :
  RequiresGradContext.init s (ObjTensor <$> ids) requires_grad = inr ctx ->
  exists s1 s2,
    RequiresGradContext.enter ctx s = inr s1
    /\ RequiresGradContext.exit ctx s1 = inr s2
    /\ (forall k, s2 k = s k)
    /\ (forall k, k ∉ ids -> s1 k = s k)
    /\ length (RequiresGradContext.requires_grads ctx) = length ids
    /\ (forall i id b,
          ids !! i = Some id ->
          RequiresGradContext.requires_grads ctx !! i = Some b ->
          (forall j, i < j -> ids !! j <> Some id) ->
          s1 id = b)
    /\ (forall b, requires_grad = RgBool b -> forall id, id ∈ ids -> s1 id = b).
Proof.
  unfold RequiresGradContext.init. rewrite judge_all_tensors. intros Hinit.
  assert (Hctx : exists bs, length bs = length ids
                            /\ ctx = RequiresGradContext.mk (ObjTensor <$> ids) (s <$> ids) bs
                            /\ (forall b, requires_grad = RgBool b ->
                                          bs = replicate (length ids) b)).
  { destruct requires_grad as [b|l|]; [| | discriminate Hinit];
      case_decide as Hl; try discriminate Hinit; injection Hinit as <-;
      rewrite ?length_fmap in *.
    - exists (replicate (length ids) b). rewrite length_replicate.
      split; [reflexivity |]. split; [reflexivity |]. intros b' [= <-]. reflexivity.
    - exists l. split; [congruence |]. split; [reflexivity |]. intros b' Hb. discriminate. }
  destruct Hctx as (bs & Hbs & -> & Hbool).
  unfold RequiresGradContext.enter, RequiresGradContext.exit.
  cbn [RequiresGradContext.objs RequiresGradContext.backups
       RequiresGradContext.requires_grads].
  rewrite set_all_tensors.
  set (s1 := foldl (fun s p => set_flag p.1 p.2 s) s (zip ids bs)).
  exists s1. eexists. split; [reflexivity |].
  split; [apply set_all_tensors |].
  assert (Hother : forall k, k ∉ ids -> s1 k = s k).
  { intros k Hk. unfold s1. apply set_flags_other.
    rewrite fst_zip by lia. exact Hk. }
  assert (Hlast : forall i id b,
             ids !! i = Some id -> bs !! i = Some b ->
             (forall j, i < j -> ids !! j <> Some id) -> s1 id = b).
  { intros i id b Hi Hb Hl. unfold s1. apply (set_flags_last _ _ i).
    - rewrite lookup_zip_with, Hi. cbn. rewrite Hb. reflexivity.
    - intros j b' Hj Hz. apply lookup_zip_with_Some in Hz as (x & y & [= <- <-] & Hx & _).
      eapply Hl; eassumption. }
  split.
  { intros k. rewrite set_flags_restore. case_decide as Hk; [reflexivity |].
    apply Hother. exact Hk. }
  split; [exact Hother |]. split; [exact Hbs |]. split; [exact Hlast |].
  intros b Hb id Hid. rewrite (Hbool b Hb) in Hlast.
  assert (Hex : exists i, ids !! i = Some id /\ forall j, i < j -> ids !! j <> Some id).
  { clear -Hid. induction ids as [|x ids IH]; [inversion Hid |].
    destruct (decide (id ∈ ids)) as [Hin | Hnin].
    - destruct (IH Hin) as (i & Hi & Hl). exists (S i). split; [exact Hi |].
      intros [|j] Hj; [lia |]. simpl. apply Hl. lia.
    - apply elem_of_cons in Hid as [-> | Hid]; [| contradiction].
      exists 0. split; [reflexivity |]. intros [|j] Hj; [lia |]. simpl.
      intros Hx. apply Hnin. eapply list_elem_of_lookup_2. exact Hx. }
  destruct Hex as (i & Hi & Hl). apply (Hlast i id b Hi); [| exact Hl].
  apply lookup_replicate_2. eapply lookup_lt_Some. exact Hi.
Qed.

Lemma requires_grad_context_restores_witness :
  exists ctx s1 s2,
    RequiresGradContext.init (fun k => Nat.even k) (ObjTensor <$> [1; 2; 1]) (RgBool true)
    = inr ctx
    /\ RequiresGradContext.enter ctx (fun k => Nat.even k) = inr s1
    /\ RequiresGradContext.exit ctx s1 = inr s2
    /\ s1 1 = true /\ s2 1 = false /\ s2 2 = true.
Proof.
  destruct (RequiresGradContext.init (fun k => Nat.even k) (ObjTensor <$> [1; 2; 1])
              (RgBool true)) as [e|ctx] eqn:Hinit; [discriminate Hinit |].
  destruct (requires_grad_context_restores _ _ _ _ Hinit)
    as (s1 & s2 & He & Hx & Hback & _ & _ & _ & Hbool).
  exists ctx, s1, s2. split; [reflexivity |]. split; [exact He |]. split; [exact Hx |].
  split; [apply (Hbool true eq_refl); left |].
  split; apply Hback.
Defined.

Section ModuleFlags.

Import RequiresGradContext.

Lemma set_params (ps : list nat) (b : bool) (s : flags) (k : nat) :
  foldl (fun s id => set_flag id b s) s ps k = if decide (k ∈ ps) then b else s k.
Proof.
  revert s. induction ps as [|p ps IH]; intros s.
  - rewrite decide_False by (intros Hin; inversion Hin). reflexivity.
  - cbn [foldl]. rewrite IH. destruct (decide (k ∈ ps)) as [Hin | Hnin].
    + rewrite decide_True by (right; exact Hin). reflexivity.
    + unfold set_flag. destruct (decide (k = p)) as [-> | Hne].
      * rewrite decide_True by left. reflexivity.
      * rewrite decide_False; [reflexivity |].
        intros Hin. apply elem_of_cons in Hin as [? | ?]; contradiction.
Qed.

Lemma judge_all_inr (s : flags) (objs : list pyobj) (bs : list bool) :
  judge_all s objs = inr bs ->
  Forall judgeable objs /\ length bs = length objs.
Proof.
  revert bs. induction objs as [|obj objs IH]; intros bs H.
  - injection H as <-. split; [constructor | reflexivity].
  - cbn [judge_all] in H.
    destruct (judge_requires_grad s obj) as [e|b] eqn:Hj; [discriminate H |].
    destruct (judge_all s objs) as [e|bs'] eqn:Hr; [discriminate H |].
    injection H as <-. destruct (IH bs' eq_refl) as [Hall Hlen].
    split; [| simpl; lia]. constructor; [| exact Hall].
    destruct obj as [id|[|p ps]|]; try discriminate Hj; simpl; [exact I | discriminate].
Qed.

Lemma judge_all_inl (s : flags) (objs : list pyobj) (e : raised) :
  judge_all s objs = inl e ->
  exists i obj,
    objs !! i = Some obj /\ Forall judgeable (take i objs)
    /\ ((obj = ObjModule [] /\ e = StopIteration)
        \/ (obj = ObjOther /\ e = Exn TypeError)).
Proof.
  induction objs as [|obj objs IH]; intros H; [discriminate H |].
  cbn [judge_all] in H.
  destruct (judge_requires_grad s obj) as [e'|b] eqn:Hj.
  - injection H as ->. exists 0, obj. split; [reflexivity |]. split; [constructor |].
    destruct obj as [id|[|p ps]|]; try discriminate Hj; injection Hj as <-; auto.
  - destruct (judge_all s objs) as [e'|bs'] eqn:Hr; [| discriminate H].
    injection H as ->. destruct (IH eq_refl) as (i & o & Hi & Hall & Hcase).
    exists (S i), o. split; [exact Hi |]. split; [| exact Hcase].
    cbn [take]. constructor; [| exact Hall].
    destruct obj as [id|[|p ps]|]; try discriminate Hj; simpl; [exact I | discriminate].
Qed.

End ModuleFlags.

(** X21: A context built over one module reads the flag of the module's first
    parameter only: entering sets every parameter to the requested flag,
    and leaving sets every parameter to the flag the FIRST one had, so the
    flags are restored exactly when all the parameters agreed with the
    first one. Tensors that are not parameters of the module are never
    touched. *)
Theorem requires_grad_context_module (s : flags) (p : nat) (ps : list nat) (b : bool) :
  exists ctx s1 s2,
    RequiresGradContext.init s [ObjModule (p :: ps)] (RgBool b) = inr ctx
    /\ RequiresGradContext.enter ctx s = inr s1
    /\ RequiresGradContext.exit ctx s1 = inr s2
    /\ (forall k, k ∈ p :: ps -> s1 k = b /\ s2 k = s p)
    /\ (forall k, k ∉ p :: ps -> s1 k = s k /\ s2 k = s k)
    /\ ((forall k, s2 k = s k) <-> (forall k, k ∈ ps -> s k = s p)).
Proof.
  eexists. eexists. eexists. split; [reflexivity |].
  split; [reflexivity |]. split; [reflexivity |].
  assert (Hin : forall k, k ∈ p :: ps ->
            foldl (fun s id => set_flag id b s) s (p :: ps) k = b
            /\ foldl (fun s0 id => set_flag id (s p) s0)
                 (foldl (fun s id => set_flag id b s) s (p :: ps)) (p :: ps) k = s p).
  { intros k Hk. rewrite !set_params, !decide_True by exact Hk. split; reflexivity. }
  assert (Hout : forall k, k ∉ p :: ps ->
            foldl (fun s id => set_flag id b s) s (p :: ps) k = s k
            /\ foldl (fun s0 id => set_flag id (s p) s0)
                 (foldl (fun s id => set_flag id b s) s (p :: ps)) (p :: ps) k = s k).
  { intros k Hk. rewrite !set_params, !decide_False by exact Hk. split; reflexivity. }
  split; [exact Hin |]. split; [exact Hout |]. split.
  - intros Hall k Hk. rewrite <- Hall. apply Hin. right. exact Hk.
  - intros Hagree k. destruct (decide (k ∈ p :: ps)) as [Hk | Hk].
    + destruct (Hin k Hk) as [_ ->].
      apply elem_of_cons in Hk as [-> | Hk]; [reflexivity |].
      symmetry. apply Hagree. exact Hk.
    + apply Hout. exact Hk.
Qed.

(** X22: Building the context: [StopIteration] escapes for a module without
    parameters, [TypeError] for an object that is neither a tensor nor a
    module (the first offending object decides) or, when all objects can be
    read, for a [requires_grad] that is neither a bool nor a list, and
    [AssertionError] for a list whose length is not the number of objects.
    Otherwise the context holds one saved flag and one requested flag per
    object, a bool being requested for every object. *)
Theorem requires_grad_context_init (s : flags) (objs : list pyobj)
    (requires_grad : requires_grad_arg) :
  match RequiresGradContext.init s objs requires_grad with
  | inl StopIteration =>
      exists i, objs !! i = Some (ObjModule []) /\ Forall judgeable (take i objs)
  | inl (Exn TypeError) =>
      (exists i, objs !! i = Some ObjOther /\ Forall judgeable (take i objs))
      \/ (Forall judgeable objs /\ requires_grad = RgOther)
  | inl (Exn AssertionError) =>
      Forall judgeable objs
      /\ exists l, requires_grad = RgList l /\ length l <> length objs
  | inl (Exn _) => False
  | inr ctx =>
      Forall judgeable objs
      /\ RequiresGradContext.objs ctx = objs
      /\ RequiresGradContext.judge_all s objs = inr (RequiresGradContext.backups ctx)
      /\ length (RequiresGradContext.backups ctx) = length objs
      /\ length (RequiresGradContext.requires_grads ctx) = length objs
      /\ match requires_grad with
         | RgBool b => RequiresGradContext.requires_grads ctx = replicate (length objs) b
         | RgList l => RequiresGradContext.requires_grads ctx = l
         | RgOther => False
         end
  end.
Proof.
  unfold RequiresGradContext.init.
  destruct (RequiresGradContext.judge_all s objs) as [e|bs] eqn:Hj.
  - apply judge_all_inl in Hj as (i & obj & Hi & Hall & [[-> ->] | [-> ->]]).
    + exists i. split; assumption.
    + left. exists i. split; assumption.
  - apply judge_all_inr in Hj as Hok. destruct Hok as [Hall Hlen].
    destruct requires_grad as [b|l|].
    + rewrite decide_True by (rewrite length_replicate; reflexivity).
      cbn. rewrite length_replicate. auto 10.
    + case_decide as Hl.
      * cbn. auto 10.
      * split; [exact Hall |]. exists l. split; [reflexivity | congruence].
    + right. split; [exact Hall | reflexivity].
Qed.

(** * The symmetric edges of the cutoff-radius graph *)

Lemma masked_length {A B : Type} (a : list A) (b : list B) (mask : list bool) :
  length a = length b -> length (masked a mask) = length (masked b mask).
Proof.
  revert b mask. induction a as [|x a IH]; intros [|y b] [|m mask] H;
    try discriminate H; try reflexivity.
  injection H as H. simpl. destruct m; simpl; [f_equal |]; apply IH; exact H.
Qed.

Lemma masked_zip {A B : Type} (a : list A) (b : list B) (mask : list bool) :
  masked (zip a b) mask = zip (masked a mask) (masked b mask).
Proof.
  revert b mask. induction a as [|x a IH]; intros [|y b] [|m mask]; try reflexivity.
  - simpl. destruct (if m then _ else _); reflexivity.
  - simpl. destruct m; simpl; [f_equal |]; apply IH.
Qed.

Lemma masked_elem {A : Type} (t : list A) (mask : list bool) (x : A) :
  x ∈ masked t mask -> exists p, t !! p = Some x /\ mask !! p = Some true.
Proof.
  revert mask. induction t as [|a t IH]; intros [|m mask] Hx; try (inversion Hx; fail).
  simpl in Hx. destruct m.
  - apply elem_of_cons in Hx as [-> | Hx]; [exists 0; auto |].
    destruct (IH _ Hx) as (p & Hp & Hm). exists (S p). auto.
  - destruct (IH _ Hx) as (p & Hp & Hm). exists (S p). auto.
Qed.

Lemma masked_Forall {A : Type} (P : A -> Prop) (t : list A) (mask : list bool) :
  Forall P t -> Forall P (masked t mask).
Proof.
  intros H. revert mask. induction H as [|a t Ha _ IH]; intros [|m mask];
    try constructor.
  simpl. destruct m; [constructor; [exact Ha |] |]; apply IH.
Qed.

Lemma norm_index_lt (n : nat) (i : Z) (j : nat) : norm_index n i = Some j -> j < n.
Proof.
  unfold norm_index. repeat case_decide; intros [= <-]; lia.
Qed.

Lemma norm_index_None (n : nat) (i : Z) :
  norm_index n i = None <-> (i < - Z.of_nat n \/ Z.of_nat n <= i)%Z.
Proof.
  unfold norm_index. repeat case_decide; split; intros Hn;
    first [discriminate Hn | reflexivity | lia | exfalso; lia].
Qed.

Lemma at_index_inr {A : Type} (t : list A) (i : Z) (x : A) :
  at_index t i = inr x ->
  exists j, norm_index (length t) i = Some j /\ t !! j = Some x.
Proof.
  unfold at_index. intros H. apply not_none_inr in H.
  apply bind_Some in H. exact H.
Qed.

Lemma at_index_inl {A : Type} (t : list A) (i : Z) (e : exn) :
  at_index t i = inl e -> e = IndexError /\ norm_index (length t) i = None.
Proof.
  unfold at_index. destruct (norm_index (length t) i) as [j|] eqn:Hj; simpl.
  - destruct (lookup_lt_is_Some_2 t j (norm_index_lt _ _ _ Hj)) as [x ->].
    discriminate.
  - intros [= <-]. auto.
Qed.

Lemma index_with_inr {A : Type} (t : list A) (idx : list Z) (out : list A) :
  index_with t idx = inr out ->
  length out = length idx
  /\ forall k i, idx !! k = Some i ->
       exists j x, norm_index (length t) i = Some j /\ t !! j = Some x
                   /\ out !! k = Some x.
Proof.
  unfold index_with. intros H. split; [eapply map_result_length; exact H |].
  intros k i Hk. destruct (map_result_lookup _ _ _ _ _ H Hk) as (x & Hx & Hat).
  apply at_index_inr in Hat as (j & Hj & Ht). eauto.
Qed.

Lemma index_with_inl {A : Type} (t : list A) (idx : list Z) (e : exn) :
  index_with t idx = inl e ->
  e = IndexError /\ exists i, i ∈ idx /\ norm_index (length t) i = None.
Proof.
  unfold index_with. induction idx as [|i idx IH]; [discriminate |].
  simpl. destruct (at_index t i) as [e'|x] eqn:Hat; simpl.
  - intros [= <-]. apply at_index_inl in Hat as [-> Hn]. split; [reflexivity |].
    exists i. split; [left | exact Hn].
  - destruct (map_result (at_index t) idx) as [e'|xs]; simpl; [| discriminate].
    intros [= <-]. destruct (IH eq_refl) as [-> (i' & Hi & Hn)].
    split; [reflexivity |]. exists i'. split; [right; exact Hi | exact Hn].
Qed.

Lemma select_symmetric_edges_inr {A : Type} `{IntScale A} (tensor : list A)
    (mask : list bool) (reorder_idx : list Z) (inverse_neg : bool) (out : list A) :
  select_symmetric_edges tensor mask reorder_idx inverse_neg = inr out ->
  length mask = length tensor
  /\ length out = length reorder_idx
  /\ forall k i, reorder_idx !! k = Some i ->
       let n := length (masked tensor mask) in
       exists j x,
         norm_index (n + n) i = Some j
         /\ masked tensor mask !! (if decide (j < n) then j else j - n) = Some x
         /\ out !! k = Some (if decide (j < n) then x
                             else int_scale (if inverse_neg then (-1)%Z else 1%Z) x).
Proof.
  unfold select_symmetric_edges, mask_select. case_decide as Hlen; [| discriminate].
  cbn [bind ret]. intros Hrun. apply index_with_inr in Hrun as [Hl Hspec].
  split; [exact Hlen |]. split; [exact Hl |].
  intros k i Hk. destruct (Hspec k i Hk) as (j & x & Hj & Hx & Hout).
  rewrite length_app, length_fmap in Hj. set (n := length (masked tensor mask)) in *.
  exists j. case_decide as Hlt.
  - rewrite lookup_app_l in Hx by exact Hlt. exists x. auto.
  - rewrite lookup_app_r in Hx by (fold n; lia). fold n in Hx.
    rewrite list_lookup_fmap in Hx. apply fmap_Some in Hx as (y & Hy & ->).
    exists y. split; [exact Hj |]. split; [exact Hy |].
    rewrite Hout. destruct inverse_neg; reflexivity.
Qed.

(** X23: [select_symmetric_edges] fails only with [IndexError]: for a mask
    that is not as long as the tensor, or for an index outside the kept
    rows and their counter-rows (negative indices count from the end).
    Otherwise it returns one row per index: a kept row, or for an index in
    the second half the corresponding kept row times the sign, which is -1
    with [inverse_neg] and 1 without. *)
Theorem select_symmetric_edges_outcome {A : Type} `{IntScale A} (tensor : list A)
    (mask : list bool) (reorder_idx : list Z) (inverse_neg : bool) :
  let kept := masked tensor mask in
  let n := length kept in
  match select_symmetric_edges tensor mask reorder_idx inverse_neg with
  | inl e =>
      e = IndexError
      /\ (length mask <> length tensor
          \/ exists i, i ∈ reorder_idx /\ (i < - Z.of_nat (2 * n) \/ Z.of_nat (2 * n) <= i)%Z)
  | inr out =>
      length mask = length tensor
      /\ length out = length reorder_idx
      /\ forall k i, reorder_idx !! k = Some i ->
           (- Z.of_nat (2 * n) <= i < Z.of_nat (2 * n))%Z
           /\ exists j x,
                norm_index (2 * n) i = Some j
                /\ kept !! (if decide (j < n) then j else j - n) = Some x
                /\ out !! k = Some (if decide (j < n) then x
                                    else int_scale (if inverse_neg then (-1)%Z else 1%Z) x)
  end.
Proof.
  intros kept n.
  destruct (select_symmetric_edges tensor mask reorder_idx inverse_neg) as [e|out] eqn:Hrun.
  - unfold select_symmetric_edges, mask_select in Hrun.
    case_decide as Hlen; [| injection Hrun as <-; auto].
    cbn [bind ret] in Hrun. apply index_with_inl in Hrun as [-> (i & Hi & Hn)].
    split; [reflexivity |]. right. exists i. split; [exact Hi |].
    rewrite length_app, length_fmap in Hn. apply norm_index_None in Hn.
    fold kept n in Hn. lia.
  - apply select_symmetric_edges_inr in Hrun as (Hlen & Hl & Hspec).
    split; [exact Hlen |]. split; [exact Hl |]. intros k i Hk.
    destruct (Hspec k i Hk) as (j & x & Hj & Hx & Hout). fold kept n in Hj, Hx, Hout.
    replace (n + n) with (2 * n) in Hj by lia. split.
    + destruct (decide (- Z.of_nat (2 * n) <= i < Z.of_nat (2 * n))%Z) as [Hr | Hr];
        [exact Hr |].
      assert (Hnone : norm_index (2 * n) i = None) by (apply norm_index_None; lia).
      congruence.
    + exists j, x. auto.
Qed.

Lemma iand_same_length (a b mask : list bool) :
  iand a b = inr mask -> length b = length a -> mask = zip_with andb a b.
Proof.
  unfold iand. intros Hrun Hlen. rewrite decide_True in Hrun by exact Hlen.
  injection Hrun as <-. reflexivity.
Qed.

Lemma iand_length (a b mask : list bool) :
  iand a b = inr mask -> length mask = length a.
Proof.
  unfold iand. case_decide as Hlen.
  - intros [= <-]. rewrite length_zip_with. lia.
  - destruct b as [|x [|y b]]; try discriminate. intros [= <-]. apply length_fmap.
Qed.

Lemma symmetric_mask_length (e0 e1 : list nat) (cell_offsets : list (list Z))
    (mask : list bool) :
  symmetric_mask (e0, e1) cell_offsets = inr mask ->
  length e0 = length e1 ->
  length mask = length e0.
Proof.
  unfold symmetric_mask. cbn [fst snd]. intros Hrun Hlen.
  apply bind_inr in Hrun as (earlier & _ & Hrun).
  apply bind_inr in Hrun as (same & Hsame & Hrun). injection Hrun as <-.
  apply iand_length in Hsame. rewrite length_zip_with in Hsame.
  rewrite !length_zip_with. lia.
Qed.

Lemma symmetric_mask_lookup (e0 e1 : list nat) (cell_offsets : list (list Z))
    (mask : list bool) (k i j : nat) (o : list Z) :
  symmetric_mask (e0, e1) cell_offsets = inr mask ->
  length e0 = length e1 ->
  length cell_offsets = length e0 ->
  e0 !! k = Some i -> e1 !! k = Some j -> cell_offsets !! k = Some o ->
  exists c, cell_earlier o = inr c
            /\ mask !! k = Some ((i <? j) || ((i =? j) && c)).
Proof.
  unfold symmetric_mask. cbn [fst snd]. intros Hrun Hlen Hco Hi Hj Ho.
  apply bind_inr in Hrun as (earlier & Hearlier & Hrun).
  apply bind_inr in Hrun as (same & Hsame & Hrun). injection Hrun as <-.
  destruct (map_result_lookup _ _ _ _ _ Hearlier Ho) as (c & Hc & Hcell).
  apply map_result_length in Hearlier.
  apply iand_same_length in Hsame; [| rewrite length_zip_with; lia]. subst same.
  exists c. split; [exact Hcell |].
  rewrite !lookup_zip_with, Hi, Hj. cbn. rewrite Hc. reflexivity.
Qed.

(** X24: The mask keeps one direction of every pair of opposite edges: of an
    edge from atom [i] to atom [j] with cell offset [(a, b, c)] and its
    counter-edge from [j] to [i] with offset [(-a, -b, -c)], exactly one is
    kept, except that an edge from an atom to itself within the home cell
    is dropped. *)
Theorem symmetric_mask_one_direction (e0 e1 : list nat) (cell_offsets : list (list Z))
    (mask : list bool) (k k' i j : nat) (a b c : Z) :
  symmetric_mask (e0, e1) cell_offsets = inr mask ->
  length e0 = length e1 ->
  length cell_offsets = length e0 ->
  e0 !! k = Some i -> e1 !! k = Some j -> cell_offsets !! k = Some [a; b; c] ->
  e0 !! k' = Some j -> e1 !! k' = Some i ->
  cell_offsets !! k' = Some [(- a)%Z; (- b)%Z; (- c)%Z] ->
  exists m m',
    mask !! k = Some m /\ mask !! k' = Some m'
    /\ if decide (i = j /\ a = 0%Z /\ b = 0%Z /\ c = 0%Z)
       then m = false /\ m' = false
       else m' = negb m.
Proof.
  intros Hrun Hlen Hco Hi Hj Ho Hi' Hj' Ho'.
  destruct (symmetric_mask_lookup _ _ _ _ _ _ _ _ Hrun Hlen Hco Hi Hj Ho)
    as (x & Hx & Hm).
  destruct (symmetric_mask_lookup _ _ _ _ _ _ _ _ Hrun Hlen Hco Hi' Hj' Ho')
    as (x' & Hx' & Hm').
  injection Hx as <-. injection Hx' as <-.
  eexists. eexists. split; [exact Hm |]. split; [exact Hm' |].
  case_decide as Hself.
  - destruct Hself as (-> & -> & -> & ->).
    rewrite Nat.ltb_irrefl. change (- 0)%Z with 0%Z.
    change (0 <? 0)%Z with false. cbn [orb andb]. rewrite !andb_false_r. auto.
  - destruct (Nat.ltb_spec i j), (Nat.ltb_spec j i), (Nat.eqb_spec i j),
      (Nat.eqb_spec j i); lia.
Qed.

Lemma symmetric_mask_one_direction_witness :
  match symmetric_mask ([0; 1; 1; 1], [1; 0; 1; 1])
                       [[0; 0; 0]; [0; 0; 0]; [0; 1; -1]; [0; -1; 1]]%Z with
  | inr mask =>
      exists m m', mask !! 2 = Some m /\ mask !! 3 = Some m' /\ m' = negb m
  | inl _ => False
  end.
Proof.
  destruct (symmetric_mask ([0; 1; 1; 1], [1; 0; 1; 1])
              [[0; 0; 0]; [0; 0; 0]; [0; 1; -1]; [0; -1; 1]]%Z) as [e|mask] eqn:Hrun;
    [vm_compute in Hrun; discriminate Hrun |].
  pose proof (symmetric_mask_one_direction _ _ _ _ 2 3 1 1 0 1 (-1) Hrun
                eq_refl eq_refl eq_refl eq_refl eq_refl eq_refl eq_refl eq_refl) as Hthm.
  destruct Hthm as (m & m' & Hm & Hm' & Hcase).
  exists m, m'. split; [exact Hm |]. split; [exact Hm' |].
  rewrite decide_False in Hcase by (intros (_ & _ & Hb & _); discriminate Hb).
  exact Hcase.
Defined.

Lemma repeat_arange (s : nat) (ns : list nat) :
  repeat_each (seq s (length ns)) ns = inr ((fun b => s + b) <$> owners ns).
Proof.
  revert s. induction ns as [|n ns IH]; intros s; [reflexivity |].
  cbn [length seq repeat_each]. rewrite IH. cbn [bind ret].
  rewrite owners_cons, fmap_app, fmap_replicate, Nat.add_0_r, <- list_fmap_compose.
  do 2 f_equal. apply list_fmap_ext. intros i b _. simpl. lia.
Qed.

Lemma repeat_interleave_arange (ns : list nat) :
  repeat_interleave (seq 0 (length ns)) ns = inr (owners ns).
Proof.
  assert (Heach : repeat_each (seq 0 (length ns)) ns = inr (owners ns)).
  { rewrite repeat_arange. f_equal. rewrite <- (list_fmap_id (owners ns)) at 2.
    apply list_fmap_ext. intros i b _. reflexivity. }
  destruct ns as [|n [|n' ns]]; exact Heach.
Qed.

Lemma owners_lt (ns : list nat) : Forall (fun b => b < length ns) (owners ns).
Proof.
  induction ns as [|n ns IH]; [constructor |].
  rewrite owners_cons. apply Forall_app. split.
  - apply Forall_replicate. simpl. lia.
  - apply Forall_fmap. eapply Forall_impl; [exact IH |]. intros b Hb.
    unfold compose. simpl in *. lia.
Qed.

Lemma owners_length (ns : list nat) : length (owners ns) = sum_list ns.
Proof.
  induction ns as [|n ns IH]; [reflexivity |].
  rewrite owners_cons, length_app, length_replicate, length_fmap, IH. reflexivity.
Qed.

Lemma index_rows_le (G : nat) (l : list nat) :
  Forall (fun b => b < G) l -> index_rows l <= G.
Proof.
  intros Hl. destruct l as [|x l]; [simpl; lia |].
  unfold index_rows.
  assert (Hmax : forall l', l' <> [] -> Forall (fun b => b < G) l' -> foldr Nat.max 0 l' < G).
  { clear. induction l' as [|y l' IH]; [congruence |]. intros _ Hall.
    apply Forall_cons in Hall as [Hy Hall]. simpl.
    destruct l' as [|z l']; [simpl; lia |].
    specialize (IH ltac:(discriminate) Hall). lia. }
  specialize (Hmax (x :: l) ltac:(discriminate) Hl). lia.
Qed.

Lemma bincount_bounded (G : nat) (l : list nat) :
  Forall (fun b => b < G) l ->
  bincount l G = (fun i => count_occ Nat.eq_dec l i) <$> seq 0 G.
Proof.
  intros Hl. unfold bincount. rewrite Nat.max_l by (apply index_rows_le; exact Hl).
  reflexivity.
Qed.

Lemma sum_indicator (x s G : nat) :
  sum_list ((fun i => if Nat.eq_dec x i then 1 else 0) <$> seq s G)
  = if decide (s <= x < s + G) then 1 else 0.
Proof.
  revert s. induction G as [|G IH]; intros s.
  - simpl. case_decide; [lia | reflexivity].
  - cbn [seq]. rewrite !fmap_cons. cbn [sum_list_with].
    unfold id in *.
    rewrite IH. destruct (Nat.eq_dec x s); repeat case_decide; lia.
Qed.

Lemma sum_count_occ (G : nat) (l : list nat) :
  Forall (fun b => b < G) l ->
  sum_list ((fun i => count_occ Nat.eq_dec l i) <$> seq 0 G) = length l.
Proof.
  induction 1 as [|x l Hx _ IH].
  - simpl. induction (seq 0 G) as [|y r IHr]; [reflexivity | exact IHr].
  - simpl length. rewrite <- IH. clear IH.
    pose proof (sum_indicator x 0 G) as Hind.
    rewrite decide_True in Hind by lia.
    transitivity (sum_list ((fun i => if Nat.eq_dec x i then 1 else 0) <$> seq 0 G)
                  + sum_list ((fun i => count_occ Nat.eq_dec l i) <$> seq 0 G));
      [| rewrite Hind; reflexivity].
    clear. induction (seq 0 G) as [|y r IHr]; [reflexivity |].
    rewrite !fmap_cons. cbn [sum_list_with].
    unfold id in *.
    rewrite IHr. cbn [count_occ]. destruct (Nat.eq_dec x y); lia.
Qed.

Lemma sum_list_double (l : list nat) : sum_list (Nat.mul 2 <$> l) = 2 * sum_list l.
Proof.
  induction l as [|x l IH]; [reflexivity |].
  rewrite !fmap_cons. cbn [sum_list_with].
  unfold id in *. rewrite IH. lia.
Qed.

Lemma int_scale_opp_Z (o : list Z) : int_scale (-1)%Z o = Z.opp <$> o.
Proof.
  unfold int_scale, list_int_scale. apply list_fmap_ext. intros i x _.
  unfold int_scale, Z_int_scale. lia.
Qed.

Lemma int_scale_opp_Qc (v : vec) : int_scale (-1)%Z v = Qcopp <$> v.
Proof.
  unfold int_scale, list_int_scale. apply list_fmap_ext. intros i x _.
  unfold int_scale, Qc_int_scale. change (Z2Qc (-1)) with (- (1))%Qc. ring.
Qed.

Section ReorderProps.

Variable repeat_blocks : list nat -> nat -> bool -> nat -> result (list Z).

Lemma reorder_symmetric_edges_inr (e0 e1 : list nat) (cell_offsets : list (list Z))
    (neighbors : list nat) (edge_vector : mat) r :
  reorder_symmetric_edges repeat_blocks (e0, e1) cell_offsets neighbors edge_vector
  = inr r ->
  exists mask idx row0 row1 co ev,
    symmetric_mask (e0, e1) cell_offsets = inr mask
    /\ length mask = length (owners neighbors)
    /\ let neighbors_new :=
         Nat.mul 2 <$> bincount (masked (owners neighbors) mask) (length neighbors) in
       repeat_blocks ((fun n => n / 2) <$> neighbors_new) 2 true
                     (length (masked e0 mask)) = inr idx
       /\ index_with (masked e0 mask ++ masked e1 mask) idx = inr row0
       /\ index_with (masked e1 mask ++ masked e0 mask) idx = inr row1
       /\ select_symmetric_edges cell_offsets mask idx true = inr co
       /\ select_symmetric_edges edge_vector mask idx true = inr ev
       /\ r = ((row0, row1), co, neighbors_new, ev).
Proof.
  unfold reorder_symmetric_edges. cbn [fst snd]. rewrite repeat_interleave_arange.
  intros Hrun.
  apply bind_inr in Hrun as (mask & Hmask & Hrun). cbn [bind] in Hrun.
  apply bind_inr in Hrun as (batch_edge & Hbatch & Hrun).
  unfold mask_select in Hbatch. case_decide as Hlen; [| discriminate Hbatch].
  injection Hbatch as <-.
  apply bind_inr in Hrun as (idx & Hidx & Hrun).
  apply bind_inr in Hrun as (row0 & Hrow0 & Hrun).
  apply bind_inr in Hrun as (row1 & Hrow1 & Hrun).
  apply bind_inr in Hrun as (co & Hco & Hrun).
  apply bind_inr in Hrun as (ev & Hev & Hrun).
  injection Hrun as <-.
  exists mask, idx, row0, row1, co, ev. auto 10.
Qed.

End ReorderProps.

(** X25: What [reorder_symmetric_edges] returns stays aligned. With the kept
    edges (those of the mask, each with its cell offset and its vector)
    numbered from 0 to n-1, every index [repeat_blocks] produces must lie
    within the 2n kept edges and counter-edges, and at its position the
    four outputs hold either a kept edge with its offset and its vector,
    or a kept edge with its endpoints swapped and its offset and its
    vector negated. *)
Theorem reorder_symmetric_edges_aligned
    (repeat_blocks : list nat -> nat -> bool -> nat -> result (list Z))
    (e0 e1 : list nat) (cell_offsets : list (list Z)) (neighbors : list nat)
    (edge_vector : mat) (row0 row1 : list nat) (co : list (list Z))
    (nb : list nat) (ev : mat) :
  length e0 = length e1 ->
  reorder_symmetric_edges repeat_blocks (e0, e1) cell_offsets neighbors edge_vector
  = inr ((row0, row1), co, nb, ev) ->
  exists mask idx,
    symmetric_mask (e0, e1) cell_offsets = inr mask
    /\ let kept := masked (zip (zip e0 e1) (zip cell_offsets edge_vector)) mask in
       let n := length kept in
       repeat_blocks ((fun n => n / 2) <$> nb) 2 true n = inr idx
       /\ (forall x, x ∈ kept ->
             exists p, mask !! p = Some true
                       /\ e0 !! p = Some x.1.1 /\ e1 !! p = Some x.1.2
                       /\ cell_offsets !! p = Some x.2.1
                       /\ edge_vector !! p = Some x.2.2)
       /\ length row0 = length idx /\ length row1 = length idx
       /\ length co = length idx /\ length ev = length idx
       /\ forall k i, idx !! k = Some i ->
            exists j a b o v,
              norm_index (2 * n) i = Some j
              /\ kept !! (if decide (j < n) then j else j - n) = Some ((a, b), (o, v))
              /\ if decide (j < n)
                 then row0 !! k = Some a /\ row1 !! k = Some b
                      /\ co !! k = Some o /\ ev !! k = Some v
                 else row0 !! k = Some b /\ row1 !! k = Some a
                      /\ co !! k = Some (Z.opp <$> o)
                      /\ ev !! k = Some (Qcopp <$> v).
Proof.
  intros Hlen Hrun.
  apply reorder_symmetric_edges_inr in Hrun
    as (mask & idx & r0 & r1 & co' & ev' & Hmask & Hown & Hidx & Hr0 & Hr1 & Hco & Hev & Heq).
  cbv zeta in Hidx, Hr0, Hr1, Hco, Hev, Heq.
  assert (Hnb : nb = Nat.mul 2 <$> bincount (masked (owners neighbors) mask)
                                            (length neighbors)) by congruence.
  rewrite <- Hnb in Hidx.
  assert (row0 = r0) by congruence. assert (row1 = r1) by congruence.
  assert (co = co') by congruence. assert (ev = ev') by congruence.
  subst r0 r1 co' ev'. clear Heq Hnb.
  exists mask, idx. split; [exact Hmask |].
  pose proof (symmetric_mask_length _ _ _ _ Hmask Hlen) as Hml.
  apply select_symmetric_edges_inr in Hco as (Hcl & Hcol & Hcspec).
  apply select_symmetric_edges_inr in Hev as (Hvl & Hevl & Hvspec).
  apply index_with_inr in Hr0 as [Hr0l Hr0].
  apply index_with_inr in Hr1 as [Hr1l Hr1].
  rewrite !masked_zip.
  set (m0 := masked e0 mask) in *. set (m1 := masked e1 mask) in *.
  set (mc := masked cell_offsets mask) in *. set (mv := masked edge_vector mask) in *.
  assert (H1 : length m1 = length m0) by (apply masked_length; lia).
  assert (Hc : length mc = length m0) by (apply masked_length; lia).
  assert (Hv : length mv = length m0) by (apply masked_length; lia).
  assert (Hn : length (zip (zip m0 m1) (zip mc mv)) = length m0).
  { rewrite !length_zip_with. lia. }
  cbn zeta. rewrite Hn. split; [exact Hidx |]. split.
  { intros x Hx. unfold m0, m1, mc, mv in Hx. rewrite <- !masked_zip in Hx.
    apply masked_elem in Hx as (p & Hp & Hm). exists p. split; [exact Hm |].
    destruct x as [[a b] [o v]].
    apply lookup_zip_with_Some in Hp as (ab & ov & Hpair & Hab & Hov).
    apply lookup_zip_with_Some in Hab as (a' & b' & -> & Ha & Hb).
    apply lookup_zip_with_Some in Hov as (o' & v' & -> & Ho & Hv').
    injection Hpair as -> -> -> ->. auto. }
  split; [exact Hr0l |]. split; [exact Hr1l |].
  split; [exact Hcol |]. split; [exact Hevl |].
  intros k i Hk.
  destruct (Hr0 k i Hk) as (j & x0 & Hj & Hx0 & Hrow0).
  destruct (Hr1 k i Hk) as (j1 & x1 & Hj1 & Hx1 & Hrow1).
  destruct (Hcspec k i Hk) as (jc & o & Hjc & Ho & Hoc).
  destruct (Hvspec k i Hk) as (jv & v & Hjv & Hvv & Hov).
  rewrite length_app in Hj, Hj1. rewrite H1 in Hj, Hj1. rewrite Hc in Hjc, Ho, Hoc.
  rewrite Hv in Hjv, Hvv, Hov.
  replace (length m0 + length m0) with (2 * length m0) in * by lia.
  assert (j1 = j) by congruence. assert (jc = j) by congruence.
  assert (jv = j) by congruence. subst j1 jc jv.
  cbv zeta in Ho, Hoc, Hvv, Hov.
  destruct (decide (j < length m0)) as [Hlt | Hlt].
  - rewrite lookup_app_l in Hx0 by exact Hlt.
    rewrite lookup_app_l in Hx1 by lia.
    exists j, x0, x1, o, v. rewrite !decide_True by exact Hlt.
    split; [exact Hj |]. split; [| auto].
    rewrite !lookup_zip_with, Hx0, Hx1, Ho, Hvv. reflexivity.
  - rewrite lookup_app_r in Hx0 by lia. rewrite lookup_app_r in Hx1 by lia.
    rewrite H1 in Hx1.
    exists j, x1, x0, o, v. rewrite !decide_False by exact Hlt.
    split; [exact Hj |]. split.
    + rewrite !lookup_zip_with, Hx0, Hx1, Ho, Hvv. reflexivity.
    + rewrite <- int_scale_opp_Z, <- int_scale_opp_Qc. auto.
Qed.

Lemma reorder_symmetric_edges_aligned_witness :
  match reorder_symmetric_edges Demo.in_order ([0; 1], [1; 0])
          [[0; 0; 0]; [0; 0; 0]]%Z [2]
          [[Toy.half; 0; 0]; [- Toy.half; 0; 0]]%Qc with
  | inr (rows, co, nb, ev) =>
      exists (mask : list bool) (idx : list Z),
        symmetric_mask ([0; 1], [1; 0]) [[0; 0; 0]; [0; 0; 0]]%Z = inr mask
        /\ length rows.1 = length idx /\ length ev = length idx
  | inl _ => False
  end.
Proof.
  destruct (reorder_symmetric_edges Demo.in_order ([0; 1], [1; 0])
              [[0; 0; 0]; [0; 0; 0]]%Z [2]
              [[Toy.half; 0; 0]; [- Toy.half; 0; 0]]%Qc)
    as [e|[[[[row0 row1] co] nb] ev]] eqn:Hrun;
    [vm_compute in Hrun; discriminate Hrun |].
  pose proof (reorder_symmetric_edges_aligned Demo.in_order [0; 1] [1; 0]
                _ _ _ _ _ _ _ _ eq_refl Hrun) as Hthm.
  cbv zeta in Hthm.
  destruct Hthm as (mask & idx & Hmask & _ & _ & Hl0 & _ & _ & Hlv & _).
  exists mask, idx. auto.
Defined.

(** X26: The edge counts of [reorder_symmetric_edges]. The function returns
    only when [neighbors] adds up to the number of edges given; the new
    counts are then one per image, each is twice the number of kept edges
    of its image, and together they count every kept edge and its
    counter-edge. *)
Theorem reorder_symmetric_edges_neighbors
    (repeat_blocks : list nat -> nat -> bool -> nat -> result (list Z))
    (e0 e1 : list nat) (cell_offsets : list (list Z)) (neighbors : list nat)
    (edge_vector : mat) (rows : list nat * list nat) (co : list (list Z))
    (nb : list nat) (ev : mat) :
  length e0 = length e1 ->
  reorder_symmetric_edges repeat_blocks (e0, e1) cell_offsets neighbors edge_vector
  = inr (rows, co, nb, ev) ->
  exists mask,
    symmetric_mask (e0, e1) cell_offsets = inr mask
    /\ sum_list neighbors = length e0
    /\ length nb = length neighbors
    /\ (forall g, g < length neighbors ->
          nb !! g
          = Some (2 * count_occ Nat.eq_dec (masked (owners neighbors) mask) g))
    /\ sum_list nb = 2 * length (masked e0 mask).
Proof.
  intros Hlen Hrun.
  apply reorder_symmetric_edges_inr in Hrun
    as (mask & idx & r0 & r1 & co' & ev' & Hmask & Hown & _ & _ & _ & _ & _ & Heq).
  cbv zeta in Heq.
  assert (Hnb : nb = Nat.mul 2 <$> bincount (masked (owners neighbors) mask)
                                            (length neighbors)) by congruence.
  subst nb. clear Heq.
  exists mask. split; [exact Hmask |].
  pose proof (symmetric_mask_length _ _ _ _ Hmask Hlen) as Hml.
  rewrite owners_length in Hown.
  rewrite bincount_bounded by (apply masked_Forall, owners_lt).
  split; [lia |]. split; [rewrite !length_fmap; apply length_seq |]. split.
  - intros g Hg. rewrite !list_lookup_fmap, lookup_seq_lt by exact Hg. reflexivity.
  - rewrite sum_list_double, sum_count_occ by (apply masked_Forall, owners_lt).
    f_equal. apply masked_length. rewrite owners_length. lia.
Qed.

Lemma reorder_symmetric_edges_neighbors_witness :
  match reorder_symmetric_edges Demo.in_order ([0; 1; 2; 3; 3], [1; 0; 3; 2; 3])
          [[0; 0; 0]; [0; 0; 0]; [0; 0; 0]; [0; 0; 0]; [-1; 0; 0]]%Z [2; 3]
          [[Toy.half]; [- Toy.half]; [Toy.quarter]; [- Toy.quarter]; [1]]%Qc with
  | inr (rows, co, nb, ev) => length nb = 2 /\ nb !! 1 = Some 4
  | inl _ => False
  end.
Proof.
  destruct (reorder_symmetric_edges Demo.in_order ([0; 1; 2; 3; 3], [1; 0; 3; 2; 3])
              [[0; 0; 0]; [0; 0; 0]; [0; 0; 0]; [0; 0; 0]; [-1; 0; 0]]%Z [2; 3]
              [[Toy.half]; [- Toy.half]; [Toy.quarter]; [- Toy.quarter]; [1]]%Qc)
    as [e|[[[rows co] nb] ev]] eqn:Hrun;
    [vm_compute in Hrun; discriminate Hrun |].
  pose proof (reorder_symmetric_edges_neighbors Demo.in_order [0; 1; 2; 3; 3]
                [1; 0; 3; 2; 3] _ _ _ _ _ _ _ eq_refl Hrun) as Hthm.
  destruct Hthm as (mask & Hmask & _ & Hl & Hcount & _).
  split; [exact Hl |].
  rewrite (Hcount 1) by (simpl; lia). vm_compute in Hmask.
  injection Hmask as <-. reflexivity.
Defined.
